(** * mandala: the storage engine (storage_utils.py, storage.py)

    A shallow embedding of the two-tier storage of [mandala/_next]: the
    key-value tables and their write-through caches, the call table, the ref
    model, and the call engine of [Storage].  Python dictionaries used as maps
    are finite maps ([gmap]), Python sets are finite sets ([gset]), exceptions
    are an explicit result type, and mutation is explicit state passing: every
    operation returns the state it leaves behind, also when it raises. *)

From stdpp Require Import gmap strings list fin_maps sorting pretty.

(** ** Python exceptions and results *)

Inductive exn :=
  | KeyError (key : string)
  | ValueError (msg : string)
  | NotImplementedError (msg : string)
  | AssertionError
  | TypeError (msg : string)
  | IndexError
  | IntegrityError
  | AttributeError (msg : string)
  | RecursionError.

Inductive result (A : Type) :=
  | Ok (a : A)
  | Raise (e : exn).
Arguments Ok {A} a.
Arguments Raise {A} e.

Definition is_Ok {A} (r : result A) : bool :=
  match r with Ok _ => true | Raise _ => false end.

(** Two facts about [filter] used for the tables kept as lists of rows. *)
Lemma filter_all {A} (P : A → Prop) `{!∀ x, Decision (P x)} (l : list A) :
  (∀ x, x ∈ l → P x) → filter P l = l.
Proof.
  induction l as [|a l IH]; intros HP; [done|].
  rewrite filter_cons_True by (apply HP; left). f_equal. apply IH.
  intros x Hx. apply HP. by right.
Qed.

Lemma filter_none {A} (P : A → Prop) `{!∀ x, Decision (P x)} (l : list A) :
  (∀ x, x ∈ l → ¬ P x) → filter P l = [].
Proof.
  induction l as [|a l IH]; intros HP; [done|].
  rewrite filter_cons_False by (apply HP; left). apply IH.
  intros x Hx. apply HP. by right.
Qed.

Lemma filter_ext_in {A} (P Q : A → Prop)
    `{!∀ x, Decision (P x), !∀ x, Decision (Q x)} (l : list A) :
  (∀ x, x ∈ l → (P x ↔ Q x)) → filter P l = filter Q l.
Proof.
  induction l as [|a l IH]; intros HPQ; [done|].
  rewrite !filter_cons. rewrite IH by (intros x Hx; apply HPQ; by right).
  apply decide_ext. apply HPQ. left.
Qed.

(** A database connection is only a handle: every statement of the tables below
    acts on the table itself, whichever connection carries it (the database is
    the in-memory one of [Storage()], which commits each statement as it runs). *)
Definition Connection := nat.

(** [DBAdapter.conn()]: the connection of the database. *)
Definition db_conn : Connection := 0.

(** How a caller hands the connection to a method under [@transaction]: not at
    all, by keyword ([conn=c], where [c] may be [None]), or by position. *)
Inductive conn_arg :=
  | conn_left_out
  | conn_keyword (c : option Connection)
  | conn_positional (c : option Connection).

(** The [transaction] decorator looks for the connection among the keyword
    arguments only.  When it finds one that is not [None] it runs the method
    with it.  Otherwise it opens a connection of its own and calls
    [method(self, *args, conn=conn, **kwargs)]: a [TypeError] when the caller
    did pass [conn], as a [None] keyword or by position, since the method then
    gets that argument twice.  The result is the connection the method runs
    with, [None] standing for the decorator's own. *)
Definition transaction (a : conn_arg) : result (option Connection) :=
  match a with
  | conn_left_out => Ok None
  | conn_keyword (Some c) => Ok (Some c)
  | conn_keyword None =>
      Raise (TypeError "got multiple values for keyword argument 'conn'")
  | conn_positional _ =>
      Raise (TypeError "got multiple values for argument 'conn'")
  end.

(** [utils.serialize] and [utils.deserialize]: the opaque codec between Python
    objects of type [A] and the bytes of type [Blob] kept in the tables. *)
Class Codec (Blob A : Type) := {
  serialize : A → Blob;
  deserialize : Blob → A;
}.

(** ** storage_utils.py: [SQLiteDictStorage] and [CachedDictStorage] *)

Module DictStorage.
Section dict_storage.
Context {V Blob : Type} `{!Codec Blob V}.

(** The table [(key TEXT PRIMARY KEY, value BLOB)]. *)
Record SQLiteDictStorage := { table : gmap string Blob }.

Definition SQLiteDictStorage_load_all (p : SQLiteDictStorage) : gmap string V :=
  deserialize <$> table p.

(** The methods of the table are given below as they run under the decorator:
    [conn] is the connection [transaction] settled on. *)
Definition SQLiteDictStorage_get (key : string) (conn : option Connection)
    (p : SQLiteDictStorage) : result V :=
  match table p !! key with
  | None => Raise (KeyError key)
  | Some b => Ok (deserialize b)
  end.

(** [INSERT OR REPLACE]; the [sess.d()] line before it is a debugging hook
    that does not touch the table. *)
Definition SQLiteDictStorage_set (key : string) (value : V)
    (conn : option Connection) (p : SQLiteDictStorage) : SQLiteDictStorage :=
  {| table := <[key := serialize value]> (table p) |}.

Definition SQLiteDictStorage_drop (key : string) (conn : option Connection)
    (p : SQLiteDictStorage) : SQLiteDictStorage :=
  {| table := delete key (table p) |}.

Definition SQLiteDictStorage_exists (key : string) (conn : option Connection)
    (p : SQLiteDictStorage) : bool :=
  bool_decide (is_Some (table p !! key)).

Definition SQLiteDictStorage_keys (p : SQLiteDictStorage) : list string :=
  (map_to_list (table p)).*1.

Definition SQLiteDictStorage_values (p : SQLiteDictStorage) : list V :=
  deserialize <$> (map_to_list (table p)).*2.

Record CachedDictStorage := {
  persistent : SQLiteDictStorage;
  cache : gmap string V;
  dirty_keys : gset string;
}.

(** [__init__] *)
Definition CachedDictStorage_init (p : SQLiteDictStorage) : CachedDictStorage :=
  {| persistent := p; cache := ∅; dirty_keys := ∅ |}.

Definition CachedDictStorage_load_all (s : CachedDictStorage) : gmap string V :=
  SQLiteDictStorage_load_all (persistent s).

Definition CachedDictStorage_len (s : CachedDictStorage) : nat := size (cache s).

Definition CachedDictStorage_get (key : string) (s : CachedDictStorage)
    : result V * CachedDictStorage :=
  match cache s !! key with
  | Some v => (Ok v, s)
  | None =>
      match SQLiteDictStorage_get key None (persistent s) with
      | Ok value =>
          (Ok value,
           {| persistent := persistent s;
              cache := <[key := value]> (cache s);
              dirty_keys := dirty_keys s |})
      | Raise e => (Raise e, s)
      end
  end.

Definition CachedDictStorage_set (key : string) (value : V)
    (s : CachedDictStorage) : CachedDictStorage :=
  {| persistent := persistent s;
     cache := <[key := value]> (cache s);
     dirty_keys := {[key]} ∪ dirty_keys s |}.

(** The loop of [commit], [self.persistent.set(key, self.cache[key], conn=conn)]
    for each dirty key: [self.cache[key]] raises [KeyError] on a key that the
    cache does not hold, and the decorator of [set] raises [TypeError] when
    [conn] is [None]; either way the rows written so far stay. *)
Fixpoint commit_loop (keys : list string) (c : gmap string V)
    (conn : option Connection) (p : SQLiteDictStorage)
    : result unit * SQLiteDictStorage :=
  match keys with
  | [] => (Ok tt, p)
  | key :: rest =>
      match c !! key with
      | None => (Raise (KeyError key), p)
      | Some v =>
          match transaction (conn_keyword conn) with
          | Raise e => (Raise e, p)
          | Ok conn' => commit_loop rest c conn (SQLiteDictStorage_set key v conn' p)
          end
      end
  end.

Definition CachedDictStorage_commit (conn : option Connection)
    (s : CachedDictStorage) : result unit * CachedDictStorage :=
  match commit_loop (elements (dirty_keys s)) (cache s) conn (persistent s) with
  | (Ok _, p) =>
      (Ok tt, {| persistent := p; cache := cache s; dirty_keys := ∅ |})
  | (Raise e, p) =>
      (Raise e,
       {| persistent := p; cache := cache s; dirty_keys := dirty_keys s |})
  end.

Definition CachedDictStorage_clear (s : CachedDictStorage) : CachedDictStorage :=
  {| persistent := persistent s; cache := ∅; dirty_keys := ∅ |}.

Definition CachedDictStorage_drop (key : string) (s : CachedDictStorage)
    : CachedDictStorage :=
  {| persistent := SQLiteDictStorage_drop key None (persistent s);
     cache := delete key (cache s);
     dirty_keys := dirty_keys s ∖ {[key]} |}.

Definition CachedDictStorage_exists (key : string) (s : CachedDictStorage) : bool :=
  match cache s !! key with
  | Some _ => true
  | None => SQLiteDictStorage_exists key None (persistent s)
  end.

(** What a holder of the cache reads under a key: the cached value, else the
    persistent one. *)
Definition view (s : CachedDictStorage) : gmap string V :=
  cache s ∪ SQLiteDictStorage_load_all (persistent s).

(** The operations of the class as data, and the state each one leaves. *)
Inductive operation :=
  | DoGet (key : string)
  | DoSet (key : string) (value : V)
  | DoDrop (key : string)
  | DoExists (key : string)
  | DoCommit (conn : option Connection)
  | DoClear.

Definition run (o : operation) (s : CachedDictStorage) : CachedDictStorage :=
  match o with
  | DoGet key => (CachedDictStorage_get key s).2
  | DoSet key value => CachedDictStorage_set key value s
  | DoDrop key => CachedDictStorage_drop key s
  | DoExists key => s
  | DoCommit conn => (CachedDictStorage_commit conn s).2
  | DoClear => CachedDictStorage_clear s
  end.

Inductive reachable : CachedDictStorage → Prop :=
  | reachable_init p : reachable (CachedDictStorage_init p)
  | reachable_run o s : reachable s → reachable (run o s).

Definition dirty_in_cache (s : CachedDictStorage) : Prop :=
  dirty_keys s ⊆ dom (cache s).

(** *** Reading through the cache *)

Lemma CachedDictStorage_get_view key s r s' :
  CachedDictStorage_get key s = (r, s') →
  view s' = view s ∧ persistent s' = persistent s ∧ dirty_keys s' = dirty_keys s ∧
  match r with
  | Ok v => view s !! key = Some v
  | Raise e => e = KeyError key ∧ view s !! key = None ∧ s' = s
  end.
Proof.
  unfold CachedDictStorage_get, view, SQLiteDictStorage_get, SQLiteDictStorage_load_all.
  destruct (cache s !! key) as [v|] eqn:Hc.
  - intros [= <- <-]. repeat split. by apply lookup_union_Some_l.
  - destruct (table (persistent s) !! key) as [b|] eqn:Hp.
    + intros [= <- <-]. simpl.
      assert (Hv : (cache s ∪ (deserialize <$> table (persistent s))) !! key
                   = Some (deserialize b)).
      { rewrite lookup_union_r by done. by rewrite lookup_fmap, Hp. }
      repeat split; [|done].
      rewrite <- insert_union_l. by apply insert_id.
    + intros [= <- <-]. repeat split.
      rewrite lookup_union_r by done. by rewrite lookup_fmap, Hp.
Qed.

(** *** Facts about the commit loop *)

Lemma commit_loop_ok keys c (conn : Connection) p :
  Forall (λ k, is_Some (c !! k)) keys →
  ∃ p', commit_loop keys c (Some conn) p = (Ok tt, p') ∧
    (∀ k, k ∈ keys → table p' !! k = serialize <$> c !! k) ∧
    (∀ k, k ∉ keys → table p' !! k = table p !! k).
Proof.
  revert p. induction keys as [|key rest IH]; intros p Hall; simpl.
  - exists p. split; [done|]. split; [|done]. intros k Hk. by apply elem_of_nil in Hk.
  - apply Forall_cons in Hall as [[v Hv] Hrest]. rewrite Hv.
    destruct (IH (SQLiteDictStorage_set key v (Some conn) p) Hrest)
      as (p' & Hrun & Hin & Hout).
    exists p'. split; [done|]. split.
    + intros k Hk. destruct (decide (k ∈ rest)) as [Hr|Hr]; [by apply Hin|].
      apply elem_of_cons in Hk as [->|Hk]; [|done].
      rewrite (Hout key Hr). simpl. rewrite lookup_insert_eq. by rewrite Hv.
    + intros k Hk. apply not_elem_of_cons in Hk as [Hne Hk].
      rewrite (Hout k Hk). simpl. by rewrite lookup_insert_ne.
Qed.

Lemma commit_keeps_cache conn s :
  cache (CachedDictStorage_commit conn s).2 = cache s ∧
  dirty_keys (CachedDictStorage_commit conn s).2 ⊆ dirty_keys s.
Proof.
  unfold CachedDictStorage_commit.
  destruct (commit_loop _ _ _ _) as [[[]|e] p]; simpl; set_solver.
Qed.

Lemma run_dirty_in_cache o s : dirty_in_cache s → dirty_in_cache (run o s).
Proof.
  unfold dirty_in_cache. intros Hs. destruct o as [key|key value|key|key|conn|]; simpl.
  - unfold CachedDictStorage_get. destruct (cache s !! key); [done|].
    destruct (SQLiteDictStorage_get _ _ _); simpl; [|done].
    rewrite dom_insert_L. set_solver.
  - rewrite dom_insert_L. set_solver.
  - rewrite dom_delete_L. set_solver.
  - done.
  - destruct (commit_keeps_cache conn s) as [-> Hd]. set_solver.
  - set_solver.
Qed.

(** C6. The dirty set of a write-through cache never names a key that the
    in-memory cache lacks: this holds for a freshly constructed
    [CachedDictStorage] and after any sequence of [get], [set], [drop],
    [exists], [commit] and [clear], whether or not the calls raised. *)
Theorem dirty_keys_subset_cache (s : CachedDictStorage) :
  reachable s → dirty_keys s ⊆ dom (cache s).
Proof.
  induction 1 as [p|o s Hs IH].
  - simpl. set_solver.
  - by apply run_dirty_in_cache.
Qed.


Lemma dict_commit_ok (conn : Connection) (s : CachedDictStorage) :
  dirty_in_cache s →
  ∃ s', CachedDictStorage_commit (Some conn) s = (Ok tt, s') ∧
    dirty_keys s' = ∅ ∧ cache s' = cache s ∧
    (∀ k, k ∈ dirty_keys s →
       table (persistent s') !! k = serialize <$> cache s !! k) ∧
    (∀ k, k ∉ dirty_keys s →
       table (persistent s') !! k = table (persistent s) !! k).
Proof.
  intros Hinv. unfold CachedDictStorage_commit.
  destruct (commit_loop_ok (elements (dirty_keys s)) (cache s) conn (persistent s))
    as (p' & Hrun & Hin & Hout).
  { apply Forall_forall. intros k Hk. apply elem_of_elements in Hk.
    apply elem_of_dom. by apply Hinv. }
  rewrite Hrun. eexists. split; [done|]. simpl. repeat split; try done.
  - intros k Hk. apply Hin. by apply elem_of_elements.
  - intros k Hk. apply Hout. by rewrite elem_of_elements.
Qed.

(** *** What a user of the cache can rely on *)

Lemma exists_true_iff key s :
  CachedDictStorage_exists key s = true ↔ is_Some (view s !! key).
Proof.
  unfold CachedDictStorage_exists, view, SQLiteDictStorage_exists, SQLiteDictStorage_load_all.
  destruct (cache s !! key) as [v|] eqn:Hc.
  - split; [|done]. intros _. exists v. by apply lookup_union_Some_l.
  - rewrite lookup_union_r by done. rewrite lookup_fmap.
    rewrite bool_decide_eq_true. by rewrite fmap_is_Some.
Qed.

Lemma get_absent key s :
  CachedDictStorage_exists key s = false →
  CachedDictStorage_get key s = (Raise (KeyError key), s).
Proof.
  intros Hex. destruct (CachedDictStorage_get key s) as [r s'] eqn:Hget.
  destruct (CachedDictStorage_get_view _ _ _ _ Hget) as (_ & _ & _ & Hr).
  destruct r as [v|e].
  - assert (Ht : CachedDictStorage_exists key s = true)
      by (apply exists_true_iff; by rewrite Hr).
    congruence.
  - by destruct Hr as (-> & _ & ->).
Qed.

(** X1. [key in storage] and [storage[key]] agree: the first is [True] exactly when
    the second returns a value, which is what the key reads (the cached value,
    else the persistent one); otherwise [storage[key]] raises [KeyError] and
    the storage is as before.  Reading never changes what any key reads, nor
    the table, nor the dirty set. *)
Theorem exists_agrees_with_get key s :
  CachedDictStorage_exists key s = is_Ok (CachedDictStorage_get key s).1 ∧
  view (CachedDictStorage_get key s).2 = view s ∧
  persistent (CachedDictStorage_get key s).2 = persistent s ∧
  dirty_keys (CachedDictStorage_get key s).2 = dirty_keys s ∧
  (CachedDictStorage_exists key s = false →
   CachedDictStorage_get key s = (Raise (KeyError key), s)).
Proof.
  destruct (CachedDictStorage_get key s) as [r s'] eqn:Hget.
  destruct (CachedDictStorage_get_view _ _ _ _ Hget) as (Hv & Hp & Hd & Hr). cbn [fst snd].
  split; [|split; [done|split; [done|split; [done|]]]].
  - destruct r as [v|e]; cbn [is_Ok].
    + apply exists_true_iff. by rewrite Hr.
    + destruct Hr as (_ & Hnone & _). apply not_true_is_false.
      rewrite exists_true_iff, Hnone. by intros [? ?].
  - intros Hex. destruct r as [v|e].
    + assert (Ht : CachedDictStorage_exists key s = true)
        by (apply exists_true_iff; by rewrite Hr).
      congruence.
    + by destruct Hr as (-> & _ & ->).
Qed.

(** X2. A value set and committed is read back after the cache is cleared, as the
    codec returns it; a value set, not committed and cleared is gone when the
    table did not hold the key. *)
Theorem committed_value_survives_clear key (value : V) (conn : Connection) s :
  dirty_keys s ⊆ dom (cache s) →
  (∃ s', CachedDictStorage_commit (Some conn) (CachedDictStorage_set key value s)
           = (Ok tt, s') ∧
     (CachedDictStorage_get key (CachedDictStorage_clear s')).1
       = Ok (deserialize (serialize value))) ∧
  (table (persistent s) !! key = None →
   (CachedDictStorage_get key (CachedDictStorage_clear (CachedDictStorage_set key value s))).1
     = Raise (KeyError key)).
Proof.
  intros Hinv. split.
  - unfold CachedDictStorage_commit.
    destruct (commit_loop_ok (elements (dirty_keys (CachedDictStorage_set key value s)))
                (cache (CachedDictStorage_set key value s)) conn
                (persistent (CachedDictStorage_set key value s)))
      as (p' & Hrun & Hin & _).
    { apply Forall_forall. intros k Hk. apply elem_of_elements in Hk. cbn in *.
      apply elem_of_union in Hk as [Hk|Hk].
      - apply elem_of_singleton in Hk as ->. rewrite lookup_insert_eq. by eexists.
      - destruct (decide (k = key)) as [->|Hne].
        + rewrite lookup_insert_eq. by eexists.
        + rewrite lookup_insert_ne by done. apply elem_of_dom. by apply Hinv. }
    rewrite Hrun. eexists. split; [done|].
    unfold CachedDictStorage_get, CachedDictStorage_clear, SQLiteDictStorage_get. cbn.
    rewrite lookup_empty. rewrite Hin.
    + cbn. by rewrite lookup_insert_eq.
    + apply elem_of_elements. cbn. set_solver.
  - intros Hnone.
    unfold CachedDictStorage_get, CachedDictStorage_clear, SQLiteDictStorage_get. cbn.
    by rewrite lookup_empty, Hnone.
Qed.



End dict_storage.
End DictStorage.


(** ** model.py: refs, types, ops and calls

    [model.py] is not among the sources at hand; what [storage.py] uses of it
    is modelled here from the specification (section 3, 4.5 and 4.6). *)

Module Model.

(** A Python [dict]: the items in insertion order, with distinct keys. *)
Notation pydict V := (list (string * V)).

Fixpoint dict_get {V} (k : string) (d : pydict V) : option V :=
  match d with
  | [] => None
  | (k', v) :: rest => if decide (k' = k) then Some v else dict_get k rest
  end.

Definition dict_has {V} (k : string) (d : pydict V) : bool :=
  bool_decide (k ∈ d.*1).

(** [d[k] = v]: in place when the key is there, at the end otherwise. *)
Fixpoint dict_set {V} (k : string) (v : V) (d : pydict V) : pydict V :=
  match d with
  | [] => [(k, v)]
  | (k', v') :: rest =>
      if decide (k' = k) then (k, v) :: rest else (k', v') :: dict_set k v rest
  end.

(** Modelled from the spec: the class [Type] of model.py, with the variants
    AtomType, ListType(elt) and DictType(key, val). *)
Inductive PyType :=
  | AtomType
  | ListType (elt : PyType)
  | DictType (key val : PyType).

(** Modelled from the spec: the classes [AtomRef], [ListRef] and [DictRef] of
    model.py, with the attributes [cid], [hid], [in_memory] and [obj]; [obj] is
    [None] on a detached ref (for an atom, the Python value [None]).  A Python value is a primitive, a tuple, a list,
    a dict with string keys, an [_Ignore] marker around a value, or a ref. *)
Inductive Value :=
  | VNone
  | VBool (b : bool)
  | VInt (z : Z)
  | VStr (s : string)
  | VTuple (l : list Value)
  | VList (l : list Value)
  | VDict (d : list (string * Value))
  | VIgnore (v : Value)
  | VRef (r : Ref)
with Ref :=
  | AtomRef (cid hid : string) (in_memory : bool) (obj : Value)
  | ListRef (cid hid : string) (in_memory : bool) (obj : option (list Ref))
  | DictRef (cid hid : string) (in_memory : bool) (obj : option (list (string * Ref))).

Definition cid (r : Ref) : string :=
  match r with
  | AtomRef c _ _ _ | ListRef c _ _ _ | DictRef c _ _ _ => c
  end.

Definition hid (r : Ref) : string :=
  match r with
  | AtomRef _ h _ _ | ListRef _ h _ _ | DictRef _ h _ _ => h
  end.

Definition in_memory (r : Ref) : bool :=
  match r with
  | AtomRef _ _ m _ | ListRef _ _ m _ | DictRef _ _ m _ => m
  end.

Definition with_hid (h : string) (r : Ref) : Ref :=
  match r with
  | AtomRef c _ m o => AtomRef c h m o
  | ListRef c _ m o => ListRef c h m o
  | DictRef c _ m o => DictRef c h m o
  end.

(** Modelled from the spec: a detached ref keeps the variant, [cid] and [hid]
    and drops the in-memory value. *)
Definition detached (r : Ref) : Ref :=
  match r with
  | AtomRef c h _ _ => AtomRef c h false VNone
  | ListRef c h _ _ => ListRef c h false None
  | DictRef c h _ _ => DictRef c h false None
  end.

Definition shallow_copy (r : Ref) : Ref := r.

(** [ref.attached(obj=...)] at each variant. *)
Definition attached_atom (o : Value) (r : Ref) : Ref := AtomRef (cid r) (hid r) true o.
Definition attached_list (o : option (list Ref)) (r : Ref) : Ref := ListRef (cid r) (hid r) true o.
Definition attached_dict (o : option (list (string * Ref))) (r : Ref) : Ref :=
  DictRef (cid r) (hid r) true o.

(** Modelled from the spec: [shape()] of a composite ref is a detached skeleton,
    the same variant with every child replaced by its detached ref.  A
    composite without children in memory has nothing to iterate over. *)
Definition shape (r : Ref) : result Ref :=
  match r with
  | AtomRef c h _ _ => Ok (AtomRef c h false VNone)
  | ListRef c h _ (Some elts) => Ok (ListRef c h false (Some (detached <$> elts)))
  | DictRef c h _ (Some items) => Ok (DictRef c h false (Some (prod_map id detached <$> items)))
  | _ => Raise (TypeError "'NoneType' object is not iterable")
  end.


(** Python's [==] on values, structurally (dicts are compared in order). *)
Definition list_eqb {A} (eqb : A → A → bool) : list A → list A → bool :=
  fix go l1 l2 :=
    match l1, l2 with
    | [], [] => true
    | x :: xs, y :: ys => eqb x y && go xs ys
    | _, _ => false
    end.

Fixpoint Value_eqb (a b : Value) {struct a} : bool :=
  match a, b with
  | VNone, VNone => true
  | VBool x, VBool y => bool_decide (x = y)
  | VInt x, VInt y => bool_decide (x = y)
  | VStr x, VStr y => bool_decide (x = y)
  | VTuple l1, VTuple l2 | VList l1, VList l2 => list_eqb Value_eqb l1 l2
  | VDict d1, VDict d2 =>
      list_eqb (λ p q, bool_decide (p.1 = q.1) && Value_eqb p.2 q.2) d1 d2
  | VIgnore x, VIgnore y => Value_eqb x y
  | VRef r1, VRef r2 => Ref_eqb r1 r2
  | _, _ => false
  end
with Ref_eqb (a b : Ref) {struct a} : bool :=
  match a, b with
  | AtomRef c1 h1 m1 o1, AtomRef c2 h2 m2 o2 =>
      bool_decide (c1 = c2) && bool_decide (h1 = h2) && bool_decide (m1 = m2)
      && Value_eqb o1 o2
  | ListRef c1 h1 m1 o1, ListRef c2 h2 m2 o2 =>
      bool_decide (c1 = c2) && bool_decide (h1 = h2) && bool_decide (m1 = m2)
      && match o1, o2 with
         | None, None => true
         | Some l1, Some l2 => list_eqb Ref_eqb l1 l2
         | _, _ => false
         end
  | DictRef c1 h1 m1 o1, DictRef c2 h2 m2 o2 =>
      bool_decide (c1 = c2) && bool_decide (h1 = h2) && bool_decide (m1 = m2)
      && match o1, o2 with
         | None, None => true
         | Some l1, Some l2 =>
             list_eqb (λ p q, bool_decide (p.1 = q.1) && Ref_eqb p.2 q.2) l1 l2
         | _, _ => false
         end
  | _, _ => false
  end.

(** What a user function does when called: from the bound arguments and the raw
    values held for the side-effect guard it yields its return value and the
    raw values as they are after the call (an in-place mutation of an argument
    shows through the objects the guard holds), or it raises. *)
Definition PyFun : Type :=
  pydict Value → pydict Value → result (Value * pydict Value).

(** [inspect.Parameter]: kind, declared type and default of a parameter. *)
Inductive ParamKind := POSITIONAL_OR_KEYWORD | VAR_POSITIONAL | VAR_KEYWORD.

#[global] Instance ParamKind_eq_dec : EqDecision ParamKind.
Proof. solve_decision. Defined.

Inductive Default :=
  | PlainDefault (v : Value)
  | NewArgDefault (v : Value).

Record Param := {
  param_name : string;
  kind : ParamKind;
  annotation : PyType;
  param_default : option Default;
}.

(** Modelled from the spec: the class [Op] of model.py (name, function,
    ordered input signature, declared output arity and names, the declared
    output types, and the two flags).  A detached op has no function. *)
Record Op := {
  name : string;
  op_f : option PyFun;
  parameters : list Param;
  nout : nat;
  output_names : option (list string);
  return_tps : list PyType;
  __structural__ : bool;
  __allow_side_effects__ : bool;
}.

Definition Op_detached (op : Op) : Op :=
  {| name := name op; op_f := None; parameters := parameters op;
     nout := nout op; output_names := output_names op;
     return_tps := return_tps op;
     __structural__ := __structural__ op;
     __allow_side_effects__ := __allow_side_effects__ op |}.

(** Modelled from the spec: the class [Call] of model.py. *)
Record Call := {
  call_op : Op;
  call_cid : string;
  call_hid : string;
  inputs : pydict Ref;
  outputs : pydict Ref;
  semantic_version : option string;
  content_version : option string;
}.

(** What a content hash is taken of: bytes, strings, [None], and sequences. *)
Inductive hashable (Blob : Type) :=
  | HBytes (b : Blob)
  | HStr (s : string)
  | HNone
  | HSeq (l : list (hashable Blob)).
Arguments HBytes {Blob} b.
Arguments HStr {Blob} s.
Arguments HNone {Blob}.
Arguments HSeq {Blob} l.

Definition key_le {V} (a b : string * V) : Prop := String.leb a.1 b.1 = true.
#[global] Instance key_le_dec {V} (a b : string * V) : Decision (key_le a b).
Proof. unfold key_le. apply _. Defined.

(** [sorted(d.items())] on a dict with distinct string keys. *)
Definition sorted_items {V} (d : pydict V) : list (string * V) :=
  merge_sort key_le d.

Section identity.
Context {Blob : Type} `{!Codec Blob Value}.
Variable get_content_hash : hashable Blob → string.

Definition HPairs (l : list (string * string)) : hashable Blob :=
  HSeq ((λ kv, HSeq [HStr kv.1; HStr kv.2]) <$> l).

Definition HOpt (o : option string) : hashable Blob :=
  match o with Some s => HStr s | None => HNone end.

(** Modelled from the spec: Atom CID = hash of the serialized bytes. *)
Definition atom_cid (v : Value) : string := get_content_hash (HBytes (serialize v)).

(** Modelled from the spec: List CID = hash of ("list", child cids in order). *)
Definition list_cid (cids : list string) : string :=
  get_content_hash (HSeq [HStr "list"; HSeq (HStr <$> cids)]).

(** Modelled from the spec: Dict CID = hash of ("dict", sorted sequence of
    (key, child cid)). *)
Definition dict_cid (items : pydict string) : string :=
  get_content_hash (HSeq [HStr "dict"; HPairs (sorted_items items)]).

(** Modelled from the spec: Op id = op name concatenated with the op's
    semantic version, which may be null. *)
Definition get_op_id (op : Op) (semantic_version : option string) : string :=
  name op +:+ default "None" semantic_version.

(** Modelled from the spec: Call CID = hash of (op id, sorted sequence of
    (slot name, input cid), semantic version). *)
Definition get_call_content_id (op : Op) (inputs : pydict Ref)
    (semantic_version : option string) : string :=
  get_content_hash
    (HSeq [HStr (get_op_id op semantic_version);
           HPairs (sorted_items (prod_map id cid <$> inputs));
           HOpt semantic_version]).

(** Modelled from the spec: Call HID = hash of (op id, sorted sequence of
    (slot name, input hid), semantic version). *)
Definition get_call_history_id (op : Op) (inputs : pydict Ref)
    (semantic_version : option string) : string :=
  get_content_hash
    (HSeq [HStr (get_op_id op semantic_version);
           HPairs (sorted_items (prod_map id hid <$> inputs));
           HOpt semantic_version]).

(** Modelled from the spec: Output HID = hash of (call hid, output slot name). *)
Definition output_hid (call_history_id : string) (output_name : string) : string :=
  get_content_hash (HSeq [HStr call_history_id; HStr output_name]).

(** Modelled from the spec: [Op.get_output_history_ids], the output hid of each
    of the given output names. *)
Definition get_output_history_ids (call_history_id : string)
    (output_names : list string) : pydict string :=
  (λ k, (k, output_hid call_history_id k)) <$> output_names.

(** Modelled from the spec: the pre-call id, from the op id and the input hids. *)
Definition get_pre_call_id (op : Op) (inputs : pydict Ref) : string :=
  get_content_hash
    (HSeq [HStr (get_op_id op None);
           HPairs (sorted_items (prod_map id hid <$> inputs))]).

(** Modelled from the spec: [wrap_atom(obj, history_id)] makes an in-memory
    atom whose cid is the content hash of the value, at the given hid. *)
Definition wrap_atom_at (obj : Value) (history_id : string) : Ref :=
  AtomRef (atom_cid obj) history_id true obj.

(** The refs passed to a structural op by keyword. *)
Definition as_ref (v : Value) : result Ref :=
  match v with
  | VRef r => Ok r
  | _ => Raise (AttributeError "object has no attribute 'cid'")
  end.

Fixpoint as_refs (l : list Value) : result (list Ref) :=
  match l with
  | [] => Ok []
  | v :: rest =>
      match as_ref v with
      | Raise e => Raise e
      | Ok r => match as_refs rest with Raise e => Raise e | Ok rs => Ok (r :: rs) end
      end
  end.

(** The hid of the ref a structural builder returns; [call_internal] replaces
    it by the output hid of the call before the ref leaves the engine. *)
Definition builder_hid : string := "".

(** Modelled from the spec: the built-in op [__make_list__], which builds the
    ListRef of its arguments [elts_0], [elts_1], ... in order. *)
Definition make_list_f : PyFun := λ arguments raw_values,
  match as_refs arguments.*2 with
  | Raise e => Raise e
  | Ok elts =>
      Ok (VRef (ListRef (list_cid (cid <$> elts)) builder_hid true (Some elts)),
          raw_values)
  end.

(** Modelled from the spec: the built-in op [__make_dict__], which builds the
    DictRef of its keyword arguments. *)
Definition make_dict_f : PyFun := λ arguments raw_values,
  match as_refs arguments.*2 with
  | Raise e => Raise e
  | Ok vals =>
      let items := zip arguments.*1 vals in
      Ok (VRef (DictRef (dict_cid (prod_map id cid <$> items)) builder_hid true
                        (Some items)),
          raw_values)
  end.

(** Modelled from the spec: the built-in op [__get_list_item__], the element of
    the ListRef [obj] at the index held by the atom [attr]. *)
Definition get_list_item_f : PyFun := λ arguments raw_values,
  match dict_get "obj" arguments, dict_get "attr" arguments with
  | Some (VRef (ListRef _ _ _ (Some elts))), Some (VRef (AtomRef _ _ _ (VInt i))) =>
      if decide (0 ≤ i)%Z then
        match elts !! Z.to_nat i with
        | Some elt => Ok (VRef elt, raw_values)
        | None => Raise IndexError
        end
      else Raise IndexError
  | _, _ => Raise (TypeError "__get_list_item__")
  end.

(** Modelled from the spec: the built-in op [__get_dict_value__], the value of
    the DictRef [obj] under the key held by the atom [key]. *)
Definition get_dict_value_f : PyFun := λ arguments raw_values,
  match dict_get "obj" arguments, dict_get "key" arguments with
  | Some (VRef (DictRef _ _ _ (Some items))), Some (VRef (AtomRef _ _ _ (VStr k))) =>
      match dict_get k items with
      | Some v => Ok (VRef v, raw_values)
      | None => Raise (KeyError k)
      end
  | _, _ => Raise (TypeError "__get_dict_value__")
  end.

Definition structural_op (n : string) (fn : PyFun) : Op :=
  {| name := n; op_f := Some fn; parameters := []; nout := 1;
     output_names := None; return_tps := [AtomType];
     __structural__ := true; __allow_side_effects__ := false |}.

Definition __make_list__ : Op := structural_op "__make_list__" make_list_f.
Definition __make_dict__ : Op := structural_op "__make_dict__" make_dict_f.
Definition __get_list_item__ : Op := structural_op "__get_list_item__" get_list_item_f.
Definition __get_dict_value__ : Op := structural_op "__get_dict_value__" get_dict_value_f.

End identity.

(** The slot names of an op's outputs: the declared ones, else [output_0],
    [output_1], ... *)
Definition output_slot_names (op : Op) (n : nat) : list string :=
  match output_names op with
  | Some names => names
  | None => (λ i : nat, "output_" +:+ pretty i) <$> seq 0 n
  end.

Fixpoint dict_get_all {A} (names : list string) (d : pydict A) : result (list A) :=
  match names with
  | [] => Ok []
  | k :: rest =>
      match dict_get k d with
      | None => Raise (KeyError k)
      | Some v =>
          match dict_get_all rest d with
          | Raise e => Raise e
          | Ok vs => Ok (v :: vs)
          end
      end
  end.

(** Modelled from the spec: [Op.get_ordered_outputs(output_dict)], the values
    of a slot map in the order of the op's output names. *)
Definition get_ordered_outputs {A} (op : Op) (output_dict : pydict A) : result (list A) :=
  dict_get_all (output_slot_names op (length output_dict)) output_dict.

(** Modelled from the spec: [utils.parse_returns], which turns the raw return
    value into a slot map by the op's declared output arity and names, with
    the declared type of each output (an atom where none is declared). *)
Definition parse_returns (op : Op) (returns : Value)
    : result (pydict Value * pydict PyType) :=
  let names := output_slot_names op (nout op) in
  let tps := zip names (return_tps op ++ replicate (length names) AtomType) in
  match nout op with
  | 0 => Ok ([], [])
  | 1 => Ok (zip names [returns], tps)
  | n =>
      match returns with
      | VTuple l =>
          if decide (length l = n) then Ok (zip names l, tps)
          else Raise (ValueError "wrong number of outputs")
      | _ => Raise (ValueError "wrong number of outputs")
      end
  end.

End Model.

(** ** storage_utils.py: the call table and its cache *)

Module CallStorage.
Import Model.

Inductive Direction := dir_in | dir_out.

#[global] Instance Direction_eq_dec : EqDecision Direction.
Proof. solve_decision. Defined.

(** One row of the call table; the primary key is [(call_history_id, name)]. *)
Record CallRow := {
  call_history_id : string;
  slot_name : string;
  direction : Direction;
  call_content_id : string;
  ref_content_id : string;
  ref_history_id : string;
  op : string;
}.

Definition row_index (r : CallRow) : string * string :=
  (call_history_id r, slot_name r).

(** A [DataFrame] indexed by [(call_history_id, name)]: its rows in order. *)
Notation DataFrame := (list CallRow).

(** [df.loc[(hid, k), :] = ...]: overwrite the row of that index, or append. *)
Fixpoint df_set (r : CallRow) (df : DataFrame) : DataFrame :=
  match df with
  | [] => [r]
  | r' :: rest =>
      if decide (row_index r' = row_index r) then r :: rest
      else r' :: df_set r rest
  end.

(** [df.index.levels[0]]: the call hids that index some row. *)
Definition levels0 (df : DataFrame) : list string := call_history_id <$> df.

(** The dictionary [mget_data] builds for one call. *)
Record CallData := {
  d_op_name : string;
  d_cid : string;
  d_hid : string;
  input_hids : pydict string;
  output_hids : pydict string;
  input_cids : pydict string;
  output_cids : pydict string;
}.

Definition in_row (c : Call) (kv : string * Ref) : CallRow :=
  {| call_history_id := call_hid c; slot_name := kv.1; direction := dir_in;
     call_content_id := call_cid c; ref_content_id := cid kv.2;
     ref_history_id := hid kv.2; op := name (call_op c) |}.

Definition out_row (c : Call) (kv : string * Ref) : CallRow :=
  {| call_history_id := call_hid c; slot_name := kv.1; direction := dir_out;
     call_content_id := call_cid c; ref_content_id := cid kv.2;
     ref_history_id := hid kv.2; op := name (call_op c) |}.

(** The loop over the rows of one call in [mget_data]. *)
Definition add_row (acc : CallData) (row : CallRow) : CallData :=
  match direction row with
  | dir_in =>
      {| d_op_name := d_op_name acc; d_cid := d_cid acc; d_hid := d_hid acc;
         input_hids := dict_set (slot_name row) (ref_history_id row) (input_hids acc);
         output_hids := output_hids acc;
         input_cids := dict_set (slot_name row) (ref_content_id row) (input_cids acc);
         output_cids := output_cids acc |}
  | dir_out =>
      {| d_op_name := d_op_name acc; d_cid := d_cid acc; d_hid := d_hid acc;
         input_hids := input_hids acc;
         output_hids := dict_set (slot_name row) (ref_history_id row) (output_hids acc);
         input_cids := input_cids acc;
         output_cids := dict_set (slot_name row) (ref_content_id row) (output_cids acc) |}
  end.

Definition rows_of (h : string) (df : DataFrame) : list CallRow :=
  filter (λ r, call_history_id r = h) df.

(** The entry of one hid in [mget_data]; a hid without rows is a [KeyError]. *)
Definition data_of (h : string) (df : DataFrame) : result CallData :=
  match rows_of h df with
  | [] => Raise (KeyError h)
  | row0 :: rest =>
      Ok (foldl add_row
            {| d_op_name := op row0; d_cid := call_content_id row0; d_hid := h;
               input_hids := []; output_hids := [];
               input_cids := []; output_cids := [] |}
            (row0 :: rest))
  end.

Fixpoint mget_rows (call_hids : list string) (df : DataFrame) : result (list CallData) :=
  match call_hids with
  | [] => Ok []
  | h :: rest =>
      match data_of h df with
      | Raise e => Raise e
      | Ok d =>
          match mget_rows rest df with
          | Raise e => Raise e
          | Ok ds => Ok (d :: ds)
          end
      end
  end.

(** Provenance over the rows. *)
Definition creator_hids (ref_hids : gset string) (df : DataFrame) : gset string :=
  list_to_set (call_history_id <$>
    filter (λ r, ref_history_id r ∈ ref_hids ∧ direction r = dir_out) df).

Definition consumer_hids (ref_hids : gset string) (df : DataFrame) : gset string :=
  list_to_set (call_history_id <$>
    filter (λ r, ref_history_id r ∈ ref_hids ∧ direction r = dir_in) df).

Definition input_hids_of (call_hids : gset string) (df : DataFrame) : gset string :=
  list_to_set (ref_history_id <$>
    filter (λ r, call_history_id r ∈ call_hids ∧ direction r = dir_in) df).

Definition output_hids_of (call_hids : gset string) (df : DataFrame) : gset string :=
  list_to_set (ref_history_id <$>
    filter (λ r, call_history_id r ∈ call_hids ∧ direction r = dir_out) df).

(** *** [InMemCallStorage] *)

Record InMemCallStorage := {
  df : DataFrame;
  call_hids : gset string;
}.

(** [InMemCallStorage()] and [InMemCallStorage(df)] *)
Definition InMemCallStorage_init (d : option DataFrame) : InMemCallStorage :=
  match d with
  | Some d => {| df := d; call_hids := list_to_set (levels0 d) |}
  | None => {| df := []; call_hids := ∅ |}
  end.

Definition InMemCallStorage_save (c : Call) (s : InMemCallStorage) : InMemCallStorage :=
  if decide (call_hid c ∈ call_hids s) then s
  else
    let df1 := foldl (λ d kv, df_set (in_row c kv) d) (df s) (inputs c) in
    let df2 := foldl (λ d kv, df_set (out_row c kv) d) df1 (outputs c) in
    {| df := df2; call_hids := {[call_hid c]} ∪ call_hids s |}.

Definition InMemCallStorage_drop (h : string) (s : InMemCallStorage)
    : result unit * InMemCallStorage :=
  if decide (h ∈ levels0 (df s)) then
    let s' := {| df := filter (λ r, call_history_id r ≠ h) (df s);
                 call_hids := call_hids s |} in
    if decide (h ∈ call_hids s) then
      (Ok tt, {| df := df s'; call_hids := call_hids s ∖ {[h]} |})
    else (Raise (KeyError h), s')
  else (Raise (ValueError ("Call with history_id " +:+ h +:+ " does not exist")), s).

Definition InMemCallStorage_exists (h : string) (s : InMemCallStorage) : bool :=
  bool_decide (h ∈ call_hids s).

Definition InMemCallStorage_mget_data (hs : list string) (s : InMemCallStorage)
    : result (list CallData) :=
  mget_rows hs (df s).

Definition InMemCallStorage_get_data (h : string) (s : InMemCallStorage)
    : result CallData :=
  if InMemCallStorage_exists h s then
    match InMemCallStorage_mget_data [h] s with
    | Ok (d :: _) => Ok d
    | Ok [] => Raise IndexError
    | Raise e => Raise e
    end
  else Raise (ValueError ("Call with history_id " +:+ h +:+ " does not exist")).

(** [exists] called with its argument under a keyword, [exists(kw=h)]: the
    method's one parameter is [call_history_id], and any other keyword is a
    [TypeError]. *)
Definition InMemCallStorage_exists_keyword (kw : string) (h : string)
    (s : InMemCallStorage) : result bool :=
  if decide (kw = "call_history_id") then Ok (InMemCallStorage_exists h s)
  else Raise (TypeError ("exists() got an unexpected keyword argument '" +:+ kw +:+ "'")).

(** An attribute the class does not define, as in [cache.exists_content]. *)
Definition InMemCallStorage_no_attribute (attr : string) : exn :=
  AttributeError ("'InMemCallStorage' object has no attribute '" +:+ attr +:+ "'").

Definition InMemCallStorage_get_creator_hids (ref_hids : gset string)
    (s : InMemCallStorage) : gset string := creator_hids ref_hids (df s).

Definition InMemCallStorage_get_consumer_hids (ref_hids : gset string)
    (s : InMemCallStorage) : gset string := consumer_hids ref_hids (df s).

Definition InMemCallStorage_get_input_hids (hs : gset string)
    (s : InMemCallStorage) : gset string := input_hids_of hs (df s).

Definition InMemCallStorage_get_output_hids (hs : gset string)
    (s : InMemCallStorage) : gset string := output_hids_of hs (df s).

(** The [while True] loop of [get_dependents]; every round that does not stop
    adds a hid of the table, so the number of rows bounds the rounds. *)
Fixpoint dependents_loop (rounds : nat) (s : InMemCallStorage)
    (refs_result calls_result cur_refs cur_calls : gset string)
    : option (gset string * gset string) :=
  match rounds with
  | O => None
  | S rounds' =>
      let calls_upd := InMemCallStorage_get_consumer_hids cur_refs s ∖ calls_result in
      let refs_upd := InMemCallStorage_get_output_hids cur_calls s ∖ refs_result in
      if decide (calls_upd = ∅ ∧ refs_upd = ∅) then Some (refs_result, calls_result)
      else dependents_loop rounds' s (refs_result ∪ refs_upd) (calls_result ∪ calls_upd)
             refs_upd calls_upd
  end.

Definition InMemCallStorage_get_dependents (ref_hids call_hids : gset string)
    (s : InMemCallStorage) : result (gset string * gset string) :=
  match dependents_loop (S (S (2 * length (df s)))) s ref_hids call_hids ref_hids call_hids with
  | Some r => Ok r
  | None => Raise RecursionError
  end.

(** *** [SQLiteCallStorage] *)

Record SQLiteCallStorage := { rows : list CallRow }.

Definition SQLiteCallStorage_get_df (p : SQLiteCallStorage) : DataFrame := rows p.

(** [INSERT INTO calls VALUES ...]: the primary key must be new. *)
Definition sql_insert (r : CallRow) (p : SQLiteCallStorage)
    : result unit * SQLiteCallStorage :=
  if decide (row_index r ∈ row_index <$> rows p)
  then (Raise IntegrityError, p)
  else (Ok tt, {| rows := rows p ++ [r] |}).

Fixpoint sql_insert_all (rs : list CallRow) (p : SQLiteCallStorage)
    : result unit * SQLiteCallStorage :=
  match rs with
  | [] => (Ok tt, p)
  | r :: rest =>
      match sql_insert r p with
      | (Ok _, p') => sql_insert_all rest p'
      | (Raise e, p') => (Raise e, p')
      end
  end.

Definition data_rows (d : CallData) : result (list CallRow) :=
  let mk dir cids kv :=
    match dict_get kv.1 cids with
    | Some c =>
        Ok {| call_history_id := d_hid d; slot_name := kv.1; direction := dir;
              call_content_id := d_cid d; ref_content_id := c;
              ref_history_id := kv.2; op := d_op_name d |}
    | None => Raise (KeyError kv.1)
    end in
  let fix go (dir : Direction) (cids : pydict string) (l : pydict string) :=
    match l with
    | [] => Ok []
    | kv :: rest =>
        match mk dir cids kv with
        | Raise e => Raise e
        | Ok r => match go dir cids rest with Raise e => Raise e | Ok rs => Ok (r :: rs) end
        end
    end in
  match go dir_in (input_cids d) (input_hids d) with
  | Raise e => Raise e
  | Ok ins =>
      match go dir_out (output_cids d) (output_hids d) with
      | Raise e => Raise e
      | Ok outs => Ok (ins ++ outs)
      end
  end.

(** The methods of the table are given below as they run under the
    [transaction] decorator: [conn] is the connection the decorator settled on. *)
Definition SQLiteCallStorage_save (d : CallData) (conn : option Connection)
    (p : SQLiteCallStorage) : result unit * SQLiteCallStorage :=
  match data_rows d with
  | Raise e => (Raise e, p)
  | Ok rs => sql_insert_all rs p
  end.

Definition SQLiteCallStorage_drop (h : string) (conn : option Connection)
    (p : SQLiteCallStorage) : SQLiteCallStorage :=
  {| rows := filter (λ r, call_history_id r ≠ h) (rows p) |}.

Definition SQLiteCallStorage_exists (h : string) (conn : option Connection)
    (p : SQLiteCallStorage) : bool :=
  bool_decide (h ∈ call_history_id <$> rows p).

Definition SQLiteCallStorage_exists_ref_hid (h : string) (conn : option Connection)
    (p : SQLiteCallStorage) : bool :=
  bool_decide (h ∈ ref_history_id <$> rows p).

Definition SQLiteCallStorage_mget_data (hs : list string) (conn : option Connection)
    (p : SQLiteCallStorage) : result (list CallData) :=
  mget_rows hs (rows p).

(** [get_data] is [self.mget_data([call_history_id], conn)[0]]: the connection
    goes to [mget_data] by position, which its decorator refuses. *)
Definition SQLiteCallStorage_get_data (h : string) (conn : option Connection)
    (p : SQLiteCallStorage) : result CallData :=
  match transaction (conn_positional conn) with
  | Raise e => Raise e
  | Ok conn' =>
      match SQLiteCallStorage_mget_data [h] conn' p with
      | Ok (d :: _) => Ok d
      | Ok [] => Raise IndexError
      | Raise e => Raise e
      end
  end.

Definition SQLiteCallStorage_get_creator_hids (ref_hids : gset string)
    (p : SQLiteCallStorage) : gset string := creator_hids ref_hids (rows p).

Definition SQLiteCallStorage_get_consumer_hids (ref_hids : gset string)
    (p : SQLiteCallStorage) : gset string := consumer_hids ref_hids (rows p).

Definition SQLiteCallStorage_get_input_hids (hs : gset string)
    (p : SQLiteCallStorage) : gset string := input_hids_of hs (rows p).

Definition SQLiteCallStorage_get_output_hids (hs : gset string)
    (p : SQLiteCallStorage) : gset string := output_hids_of hs (rows p).

Definition SQLiteCallStorage_get_dependents (ref_hids call_hids : gset string)
    (p : SQLiteCallStorage) : result (gset string * gset string) :=
  InMemCallStorage_get_dependents ref_hids call_hids
    (InMemCallStorage_init (Some (SQLiteCallStorage_get_df p))).

(** *** [CachedCallStorage] *)

Record CachedCallStorage := {
  persistent : SQLiteCallStorage;
  cache : InMemCallStorage;
  dirty_hids : gset string;
}.

Definition CachedCallStorage_init (p : SQLiteCallStorage) : CachedCallStorage :=
  {| persistent := p; cache := InMemCallStorage_init None; dirty_hids := ∅ |}.

Definition CachedCallStorage_save (c : Call) (s : CachedCallStorage) : CachedCallStorage :=
  {| persistent := persistent s;
     cache := InMemCallStorage_save c (cache s);
     dirty_hids := {[call_hid c]} ∪ dirty_hids s |}.

Definition CachedCallStorage_drop (h : string) (s : CachedCallStorage)
    : result unit * CachedCallStorage :=
  match InMemCallStorage_drop h (cache s) with
  | (Ok _, c) =>
      (Ok tt, {| persistent := persistent s; cache := c;
                 dirty_hids := dirty_hids s ∖ {[h]} |})
  | (Raise e, c) =>
      (Raise e, {| persistent := persistent s; cache := c;
                   dirty_hids := dirty_hids s |})
  end.

Definition CachedCallStorage_exists (h : string) (s : CachedCallStorage) : bool :=
  if InMemCallStorage_exists h (cache s) then true
  else SQLiteCallStorage_exists h None (persistent s).

(** For a call that is not cached, [get_data] is
    [self.persistent.get_data(call_history_id, conn)], the connection again by
    position. *)
Definition CachedCallStorage_get_data (h : string) (conn : option Connection)
    (s : CachedCallStorage) : result CallData :=
  if InMemCallStorage_exists h (cache s) then InMemCallStorage_get_data h (cache s)
  else
    match transaction (conn_positional conn) with
    | Raise e => Raise e
    | Ok conn' => SQLiteCallStorage_get_data h conn' (persistent s)
    end.

(** The loop of [commit], [self.persistent.save(self.cache.get_data(hid),
    conn=conn)] for each dirty hid, under a connection that is not [None]. *)
Fixpoint commit_calls_loop (hs : list string) (c : InMemCallStorage)
    (conn : Connection) (p : SQLiteCallStorage)
    : result unit * SQLiteCallStorage :=
  match hs with
  | [] => (Ok tt, p)
  | h :: rest =>
      match InMemCallStorage_get_data h c with
      | Raise e => (Raise e, p)
      | Ok d =>
          match SQLiteCallStorage_save d (Some conn) p with
          | (Ok _, p') => commit_calls_loop rest c conn p'
          | (Raise e, p') => (Raise e, p')
          end
      end
  end.

(** [commit] takes the connection of the database when it is given none. *)
Definition CachedCallStorage_commit (conn : option Connection)
    (s : CachedCallStorage) : result unit * CachedCallStorage :=
  let conn := default db_conn conn in
  match commit_calls_loop (elements (dirty_hids s)) (cache s) conn (persistent s) with
  | (Ok _, p) => (Ok tt, {| persistent := p; cache := cache s; dirty_hids := ∅ |})
  | (Raise e, p) =>
      (Raise e, {| persistent := p; cache := cache s; dirty_hids := dirty_hids s |})
  end.

Definition CachedCallStorage_clear (s : CachedCallStorage) : CachedCallStorage :=
  {| persistent := persistent s; cache := InMemCallStorage_init None; dirty_hids := ∅ |}.

(** *** What the cache holds of a saved call *)

(** The cache knows the call and holds exactly its input and output rows. *)
Definition recorded (c : Call) (s : InMemCallStorage) : Prop :=
  call_hid c ∈ call_hids s ∧
  rows_of (call_hid c) (df s) = (in_row c <$> inputs c) ++ (out_row c <$> outputs c).

Lemma dict_set_fresh {V} k (v : V) (d : pydict V) :
  k ∉ d.*1 → dict_set k v d = d ++ [(k, v)].
Proof.
  induction d as [|[k' v'] d IH]; [done|]. rewrite fmap_cons. simpl.
  intros Hk. apply not_elem_of_cons in Hk as [Hne Hk].
  rewrite decide_False by done. by rewrite IH.
Qed.

Lemma foldl_dict_set {V W} (g : W → V) (l : pydict W) (acc : pydict V) :
  NoDup (acc.*1 ++ l.*1) →
  foldl (λ d kv, dict_set kv.1 (g kv.2) d) acc l = acc ++ (prod_map id g <$> l).
Proof.
  revert acc. induction l as [|[k x] l IH]; intros acc Hnd.
  - by rewrite app_nil_r.
  - rewrite fmap_cons in Hnd. simpl. rewrite dict_set_fresh.
    + rewrite IH.
      * by rewrite <- app_assoc.
      * rewrite fmap_app. simpl. rewrite <- app_assoc. done.
    + apply NoDup_app in Hnd as (_ & Hd & _). intros Hk. apply (Hd _ Hk). left.
Qed.

Lemma foldl_add_row_in c (ins : pydict Ref) acc :
  let d := foldl add_row acc (in_row c <$> ins) in
  d_op_name d = d_op_name acc ∧ d_cid d = d_cid acc ∧ d_hid d = d_hid acc ∧
  output_hids d = output_hids acc ∧ output_cids d = output_cids acc ∧
  input_hids d = foldl (λ m kv, dict_set kv.1 (hid kv.2) m) (input_hids acc) ins ∧
  input_cids d = foldl (λ m kv, dict_set kv.1 (cid kv.2) m) (input_cids acc) ins.
Proof.
  revert acc. induction ins as [|[k r] ins IH]; intros acc; [done|].
  rewrite fmap_cons. simpl. destruct (IH (add_row acc (in_row c (k, r))))
    as (H1 & H2 & H3 & H4 & H5 & H6 & H7).
  simpl in *. by rewrite H1, H2, H3, H4, H5, H6, H7.
Qed.

Lemma foldl_add_row_out c (outs : pydict Ref) acc :
  let d := foldl add_row acc (out_row c <$> outs) in
  d_op_name d = d_op_name acc ∧ d_cid d = d_cid acc ∧ d_hid d = d_hid acc ∧
  input_hids d = input_hids acc ∧ input_cids d = input_cids acc ∧
  output_hids d = foldl (λ m kv, dict_set kv.1 (hid kv.2) m) (output_hids acc) outs ∧
  output_cids d = foldl (λ m kv, dict_set kv.1 (cid kv.2) m) (output_cids acc) outs.
Proof.
  revert acc. induction outs as [|[k r] outs IH]; intros acc; [done|].
  rewrite fmap_cons. simpl. destruct (IH (add_row acc (out_row c (k, r))))
    as (H1 & H2 & H3 & H4 & H5 & H6 & H7).
  simpl in *. by rewrite H1, H2, H3, H4, H5, H6, H7.
Qed.

(** The data [get_data] gives for a recorded call. *)
Lemma get_data_recorded (c : Call) (s : InMemCallStorage) :
  recorded c s → NoDup (outputs c).*1 → inputs c ++ outputs c ≠ [] →
  ∃ d, InMemCallStorage_get_data (call_hid c) s = Ok d ∧
    d_hid d = call_hid c ∧ d_cid d = call_cid c ∧ d_op_name d = name (call_op c) ∧
    output_hids d = prod_map id hid <$> outputs c ∧
    output_cids d = prod_map id cid <$> outputs c ∧
    (NoDup (inputs c).*1 → input_hids d = prod_map id hid <$> inputs c).
Proof.
  intros [Hin Hrows] Hnd Hne.
  unfold InMemCallStorage_get_data, InMemCallStorage_exists.
  rewrite bool_decide_eq_true_2 by done.
  unfold InMemCallStorage_mget_data. simpl. unfold data_of. rewrite Hrows.
  destruct ((in_row c <$> inputs c) ++ (out_row c <$> outputs c)) as [|row0 rest] eqn:Hl.
  { apply app_eq_nil in Hl as [H1 H2]. apply fmap_nil_inv in H1, H2.
    rewrite H1, H2 in Hne. done. }
  eexists. split; [reflexivity|]. rewrite <- Hl.
  assert (Hrow0 : op row0 = name (call_op c) ∧ call_content_id row0 = call_cid c).
  { destruct (inputs c) as [|kv ins]; simpl in Hl.
    - destruct (outputs c) as [|kv outs]; [done|]. by injection Hl as <- _.
    - by injection Hl as <- _. }
  destruct Hrow0 as [-> ->]. rewrite foldl_app.
  set (init := {| d_op_name := _ |}).
  destruct (foldl_add_row_in c (inputs c) init) as (H1 & H2 & H3 & H4 & H5 & H6 & H7).
  destruct (foldl_add_row_out c (outputs c) (foldl add_row init (in_row c <$> inputs c)))
    as (G1 & G2 & G3 & G4 & G5 & G6 & G7).
  simpl in *. rewrite G1, G2, G3, G6, G7, G4, H1, H2, H3, H4, H5, H6. subst init. simpl.
  repeat split.
  - by rewrite foldl_dict_set.
  - by rewrite foldl_dict_set.
  - intros Hndi. by rewrite foldl_dict_set.
Qed.

(** *** What [save] leaves in the cache *)

Lemma df_set_fresh r (d : DataFrame) :
  row_index r ∉ row_index <$> d → df_set r d = d ++ [r].
Proof.
  induction d as [|r' d IH]; [done|]. rewrite fmap_cons. intros Hr.
  apply not_elem_of_cons in Hr as [Hne Hr]. cbn [df_set].
  rewrite decide_False by done. by rewrite IH.
Qed.

Lemma foldl_df_set {A} (g : A → CallRow) (l : list A) (d : DataFrame) :
  NoDup (row_index ∘ g <$> l) →
  (∀ x, x ∈ l → row_index (g x) ∉ row_index <$> d) →
  foldl (λ acc x, df_set (g x) acc) d l = d ++ (g <$> l).
Proof.
  revert d. induction l as [|x l IH]; intros d Hnd Hfresh.
  - by rewrite app_nil_r.
  - rewrite fmap_cons in Hnd. apply NoDup_cons in Hnd as [Hx Hnd].
    cbn [foldl]. rewrite df_set_fresh by (apply Hfresh; left).
    rewrite IH; [by rewrite fmap_cons, <- app_assoc|done|].
    intros y Hy. rewrite fmap_app. intros Hin. apply elem_of_app in Hin as [Hin|Hin].
    + by apply (Hfresh y); [right|].
    + apply list_elem_of_singleton in Hin. apply Hx.
      change ((row_index ∘ g) x) with (row_index (g x)). rewrite <- Hin.
      apply (list_elem_of_fmap_2 (row_index ∘ g)), Hy.
Qed.

(** Saving a call whose hid the cache does not list, into a cache whose rows
    all belong to listed hids, appends the rows of its inputs and outputs:
    the call is recorded. *)
Lemma save_recorded (c : Call) (s : InMemCallStorage) :
  call_hid c ∉ call_hids s →
  (∀ r, r ∈ df s → call_history_id r ∈ call_hids s) →
  NoDup ((inputs c).*1 ++ (outputs c).*1) →
  recorded c (InMemCallStorage_save c s).
Proof.
  intros Hnew Hlisted Hnd. unfold InMemCallStorage_save.
  rewrite decide_False by done. split; [cbn; set_solver|]. cbn [df].
  apply NoDup_app in Hnd as (Hin & Hdisj & Hout).
  assert (Hfresh : ∀ k, (call_hid c, k) ∉ row_index <$> df s).
  { intros k Hk. apply list_elem_of_fmap in Hk as (r & Hr & Hk).
    apply Hnew. injection Hr as -> _. by apply Hlisted. }
  assert (Hidx : ∀ (g : string * Ref → CallRow) (l : pydict Ref),
             (∀ kv, row_index (g kv) = (call_hid c, kv.1)) →
             row_index ∘ g <$> l = (λ k, (call_hid c, k)) <$> l.*1).
  { intros g l Hg. induction l as [|kv l IH]; [done|].
    rewrite !fmap_cons, <- IH. f_equal. apply Hg. }
  assert (Hinj : Inj (=) (=) (λ k : string, (call_hid c, k))) by (by intros k k' [=]).
  rewrite (foldl_df_set (in_row c)); cycle 1.
  { rewrite (Hidx (in_row c) _ (λ _, eq_refl)). by apply NoDup_fmap_2. }
  { intros kv _. apply Hfresh. }
  rewrite (foldl_df_set (out_row c)); cycle 1.
  { rewrite (Hidx (out_row c) _ (λ _, eq_refl)). by apply NoDup_fmap_2. }
  { intros kv Hkv. rewrite fmap_app. intros Hk. apply elem_of_app in Hk as [Hk|Hk].
    - by apply (Hfresh kv.1).
    - rewrite <- list_fmap_compose, (Hidx (in_row c) _ (λ _, eq_refl)) in Hk.
      apply list_elem_of_fmap in Hk as (k & Heq & Hk). injection Heq as Heq.
      apply (Hdisj kv.1); [by rewrite Heq|by apply list_elem_of_fmap_2]. }
  unfold rows_of. rewrite !filter_app.
  rewrite (filter_none _ (df s));
    [|intros r Hr Heq; apply Hnew; rewrite <- Heq; by apply Hlisted].
  rewrite !filter_all; [done|..]; intros r Hr;
    apply list_elem_of_fmap in Hr as (kv & -> & _); done.
Qed.

Lemma elem_of_df_set r x (d : DataFrame) : r ∈ df_set x d → r = x ∨ r ∈ d.
Proof.
  induction d as [|r' d IH]; cbn [df_set].
  - intros Hr. apply list_elem_of_singleton in Hr. by left.
  - destruct (decide _).
    + intros Hr. apply elem_of_cons in Hr as [->|Hr]; [by left|]. right. by right.
    + intros Hr. apply elem_of_cons in Hr as [->|Hr]; [right; left|].
      destruct (IH Hr) as [->|Hd]; [by left|]. right. by right.
Qed.

Lemma elem_of_foldl_df_set {A} (g : A → CallRow) (l : list A) (d : DataFrame) r :
  r ∈ foldl (λ acc x, df_set (g x) acc) d l → r ∈ d ∨ ∃ x, x ∈ l ∧ r = g x.
Proof.
  revert d. induction l as [|x l IH]; intros d; cbn [foldl]; [by left|].
  intros Hr. destruct (IH _ Hr) as [Hd|(y & Hy & ->)].
  - destruct (elem_of_df_set _ _ _ Hd) as [->|Hd']; [|by left].
    right. exists x. split; [left|done].
  - right. exists y. split; [by right|done].
Qed.

(** [save] keeps every row of the cache under a listed hid. *)
Lemma save_rows_listed (c : Call) (s : InMemCallStorage) :
  (∀ r, r ∈ df s → call_history_id r ∈ call_hids s) →
  ∀ r, r ∈ df (InMemCallStorage_save c s) →
       call_history_id r ∈ call_hids (InMemCallStorage_save c s).
Proof.
  intros Hlisted r. unfold InMemCallStorage_save.
  destruct (decide _); [apply Hlisted|]. cbn [df call_hids]. intros Hr.
  destruct (elem_of_foldl_df_set _ _ _ _ Hr) as [Hr1|(kv & _ & ->)]; [|set_solver].
  destruct (elem_of_foldl_df_set _ _ _ _ Hr1) as [Hr0|(kv & _ & ->)]; [|set_solver].
  apply elem_of_union_r. by apply Hlisted.
Qed.

(** *** The data of calls, in bulk and one by one *)

Lemma foldl_add_row_hid rs acc : d_hid (foldl add_row acc rs) = d_hid acc.
Proof.
  revert acc. induction rs as [|r rs IH]; intros acc; [done|]. cbn [foldl].
  rewrite IH. unfold add_row. by destruct (direction r).
Qed.

Lemma data_of_hid h (d : DataFrame) x : data_of h d = Ok x → d_hid x = h.
Proof.
  unfold data_of. destruct (rows_of h d) as [|row0 rest]; [done|].
  intros [= <-]. rewrite foldl_add_row_hid. unfold add_row. by destruct (direction row0).
Qed.

Lemma data_of_raise h (d : DataFrame) e :
  data_of h d = Raise e → rows_of h d = [] ∧ e = KeyError h.
Proof.
  unfold data_of. destruct (rows_of h d) as [|row0 rest]; [|done]. by intros [= <-].
Qed.

Lemma mget_rows_spec hs (d : DataFrame) :
  match mget_rows hs d with
  | Ok ds => d_hid <$> ds = hs ∧ Forall (λ h, rows_of h d ≠ []) hs
  | Raise e => ∃ h, h ∈ hs ∧ rows_of h d = [] ∧ e = KeyError h
  end.
Proof.
  induction hs as [|h hs IH]; cbn [mget_rows]; [done|].
  destruct (data_of h d) as [x|e] eqn:Hx.
  - destruct (mget_rows hs d) as [ds|e].
    + destruct IH as [IH1 IH2]. split.
      * rewrite fmap_cons, IH1. f_equal. by eapply data_of_hid.
      * constructor; [|done]. intros Hnil. unfold data_of in Hx. by rewrite Hnil in Hx.
    + destruct IH as (h' & Hh' & Hnil & ->). exists h'. split; [by right|done].
  - apply data_of_raise in Hx as [Hnil ->]. exists h. split; [left|done].
Qed.

(** X5. [mget_data] answers in the order of the hids it is given, one entry per
    hid (repeated hids included), each carrying its hid; it raises [KeyError]
    exactly when some hid has no row, in the cache as in the table. *)
Theorem mget_data_in_order (hs : list string) (s : InMemCallStorage)
    (conn : option Connection) (p : SQLiteCallStorage) :
  match InMemCallStorage_mget_data hs s with
  | Ok ds => d_hid <$> ds = hs ∧ Forall (λ h, rows_of h (df s) ≠ []) hs
  | Raise e => ∃ h, h ∈ hs ∧ rows_of h (df s) = [] ∧ e = KeyError h
  end ∧
  match SQLiteCallStorage_mget_data hs conn p with
  | Ok ds => d_hid <$> ds = hs ∧ Forall (λ h, rows_of h (rows p) ≠ []) hs
  | Raise e => ∃ h, h ∈ hs ∧ rows_of h (rows p) = [] ∧ e = KeyError h
  end.
Proof. split; apply mget_rows_spec. Qed.

(** The data [mget_data] builds from the rows of a call. *)
Definition data_of_call (c : Call) : CallData :=
  {| d_op_name := name (call_op c); d_cid := call_cid c; d_hid := call_hid c;
     input_hids := prod_map id hid <$> inputs c;
     output_hids := prod_map id hid <$> outputs c;
     input_cids := prod_map id cid <$> inputs c;
     output_cids := prod_map id cid <$> outputs c |}.

Lemma data_of_rows_of_call (c : Call) (d : DataFrame) :
  rows_of (call_hid c) d = (in_row c <$> inputs c) ++ (out_row c <$> outputs c) →
  NoDup (inputs c).*1 → NoDup (outputs c).*1 → inputs c ++ outputs c ≠ [] →
  data_of (call_hid c) d = Ok (data_of_call c).
Proof.
  intros Hrows Hndi Hndo Hne. unfold data_of. rewrite Hrows.
  destruct ((in_row c <$> inputs c) ++ (out_row c <$> outputs c)) as [|row0 rest] eqn:Hl.
  { apply app_eq_nil in Hl as [H1 H2]. apply fmap_nil_inv in H1, H2.
    rewrite H1, H2 in Hne. done. }
  f_equal. rewrite <- Hl.
  assert (Hrow0 : op row0 = name (call_op c) ∧ call_content_id row0 = call_cid c).
  { destruct (inputs c) as [|kv ins]; simpl in Hl.
    - destruct (outputs c) as [|kv outs]; [done|]. by injection Hl as <- _.
    - by injection Hl as <- _. }
  destruct Hrow0 as [-> ->]. rewrite foldl_app.
  set (init := {| d_op_name := _ |}).
  destruct (foldl_add_row_in c (inputs c) init) as (H1 & H2 & H3 & H4 & H5 & H6 & H7).
  destruct (foldl_add_row_out c (outputs c) (foldl add_row init (in_row c <$> inputs c)))
    as (G1 & G2 & G3 & G4 & G5 & G6 & G7).
  cbn zeta in *.
  destruct (foldl add_row (foldl add_row init (in_row c <$> inputs c))
              (out_row c <$> outputs c)) as [n0 c0 h0 ih oh ic oc].
  cbn in *. unfold data_of_call. subst.
  rewrite H1, H2, H3, H4, H5, H6, H7. subst init. cbn.
  by rewrite !foldl_dict_set.
Qed.

Lemma rows_of_app h (d1 d2 : DataFrame) : rows_of h (d1 ++ d2) = rows_of h d1 ++ rows_of h d2.
Proof. apply filter_app. Qed.

Lemma save_appends (c : Call) (s : InMemCallStorage) :
  call_hid c ∉ call_hids s →
  (∀ r, r ∈ df s → call_history_id r ∈ call_hids s) →
  NoDup ((inputs c).*1 ++ (outputs c).*1) →
  InMemCallStorage_save c s =
    {| df := df s ++ (in_row c <$> inputs c) ++ (out_row c <$> outputs c);
       call_hids := {[call_hid c]} ∪ call_hids s |}.
Proof.
  intros Hnew Hlisted Hnd. unfold InMemCallStorage_save.
  rewrite decide_False by done. f_equal.
  apply NoDup_app in Hnd as (Hin & Hdisj & Hout).
  assert (Hfresh : ∀ k, (call_hid c, k) ∉ row_index <$> df s).
  { intros k Hk. apply list_elem_of_fmap in Hk as (r & Hr & Hk).
    apply Hnew. injection Hr as -> _. by apply Hlisted. }
  assert (Hidx : ∀ (g : string * Ref → CallRow) (l : pydict Ref),
             (∀ kv, row_index (g kv) = (call_hid c, kv.1)) →
             row_index ∘ g <$> l = (λ k, (call_hid c, k)) <$> l.*1).
  { intros g l Hg. induction l as [|kv l IH]; [done|].
    rewrite !fmap_cons, <- IH. f_equal. apply Hg. }
  assert (Hinj : Inj (=) (=) (λ k : string, (call_hid c, k))) by (by intros k k' [=]).
  rewrite (foldl_df_set (in_row c)); cycle 1.
  { rewrite (Hidx (in_row c) _ (λ _, eq_refl)). by apply NoDup_fmap_2. }
  { intros kv _. apply Hfresh. }
  rewrite (foldl_df_set (out_row c)); cycle 1.
  { rewrite (Hidx (out_row c) _ (λ _, eq_refl)). by apply NoDup_fmap_2. }
  { intros kv Hkv. rewrite fmap_app. intros Hk. apply elem_of_app in Hk as [Hk|Hk].
    - by apply (Hfresh kv.1).
    - rewrite <- list_fmap_compose, (Hidx (in_row c) _ (λ _, eq_refl)) in Hk.
      apply list_elem_of_fmap in Hk as (k & Heq & Hk). injection Heq as Heq.
      apply (Hdisj kv.1); [by rewrite Heq|by apply list_elem_of_fmap_2]. }
  by rewrite <- app_assoc.
Qed.

Lemma rows_of_call_rows h (c : Call) :
  rows_of h ((in_row c <$> inputs c) ++ (out_row c <$> outputs c)) =
    if decide (call_hid c = h)
    then (in_row c <$> inputs c) ++ (out_row c <$> outputs c) else [].
Proof.
  unfold rows_of. destruct (decide (call_hid c = h)) as [Heq|Hne].
  - apply filter_all. intros r Hr. apply elem_of_app in Hr as [Hr|Hr];
      apply list_elem_of_fmap in Hr as (kv & -> & _); done.
  - apply filter_none. intros r Hr. apply elem_of_app in Hr as [Hr|Hr];
      apply list_elem_of_fmap in Hr as (kv & -> & _); done.
Qed.

(** X6. [save] then [get_data]: a call with distinct slot names (and at least one
    slot) that the cache does not list yet is read back as the data of that
    call, and the data of every other call is as before. *)
Theorem save_then_get_data (c : Call) (s : InMemCallStorage) :
  call_hid c ∉ call_hids s →
  (∀ r, r ∈ df s → call_history_id r ∈ call_hids s) →
  NoDup ((inputs c).*1 ++ (outputs c).*1) →
  inputs c ++ outputs c ≠ [] →
  InMemCallStorage_exists (call_hid c) (InMemCallStorage_save c s) = true ∧
  InMemCallStorage_get_data (call_hid c) (InMemCallStorage_save c s)
    = Ok (data_of_call c) ∧
  ∀ h, h ≠ call_hid c →
    InMemCallStorage_exists h (InMemCallStorage_save c s) = InMemCallStorage_exists h s ∧
    InMemCallStorage_get_data h (InMemCallStorage_save c s) = InMemCallStorage_get_data h s.
Proof.
  intros Hnew Hlisted Hnd Hne. rewrite save_appends by done.
  assert (Hex : ∀ h, h ≠ call_hid c →
    InMemCallStorage_exists h {| df := df s ++ (in_row c <$> inputs c) ++ (out_row c <$> outputs c);
                                 call_hids := {[call_hid c]} ∪ call_hids s |}
      = InMemCallStorage_exists h s).
  { intros h Hh. unfold InMemCallStorage_exists. cbn. apply bool_decide_ext. set_solver. }
  split; [|split].
  - unfold InMemCallStorage_exists. cbn. apply bool_decide_eq_true_2. set_solver.
  - unfold InMemCallStorage_get_data, InMemCallStorage_exists. cbn [call_hids].
    rewrite bool_decide_eq_true_2 by set_solver.
    unfold InMemCallStorage_mget_data. cbn [df mget_rows].
    rewrite (data_of_rows_of_call c); [done| |by apply NoDup_app in Hnd as (? & _ & _)
      |by apply NoDup_app in Hnd as (_ & _ & ?)|done].
    rewrite rows_of_app, rows_of_call_rows, decide_True by done.
    unfold rows_of. rewrite filter_none; [done|].
    intros r Hr Heq. apply Hnew. rewrite <- Heq. by apply Hlisted.
  - intros h Hh. split; [by apply Hex|].
    unfold InMemCallStorage_get_data. rewrite Hex by done.
    unfold InMemCallStorage_mget_data. cbn [df mget_rows]. unfold data_of.
    rewrite rows_of_app, rows_of_call_rows, decide_False by done. by rewrite app_nil_r.
Qed.

Lemma rows_of_drop h h' (d : DataFrame) :
  rows_of h' (filter (λ r, call_history_id r ≠ h) d) =
    if decide (h' = h) then [] else rows_of h' d.
Proof.
  unfold rows_of. rewrite list_filter_filter. destruct (decide (h' = h)) as [->|Hne].
  - apply filter_none. intros r _ [H1 H2]. done.
  - apply filter_ext_in. intros r _. split; [by intros [? _]|]. intros Hr. split; [done|].
    congruence.
Qed.

(** X7. [drop] of a call the cache lists and has rows of removes exactly that
    call: it is no longer listed, none of its rows is left, and every other
    call is listed and read as before.  A hid that indexes no row is a
    [ValueError] and changes nothing. *)
Theorem drop_removes_that_call (h : string) (s : InMemCallStorage) :
  (h ∈ levels0 (df s) → h ∈ call_hids s →
   ∃ s', InMemCallStorage_drop h s = (Ok tt, s') ∧
     InMemCallStorage_exists h s' = false ∧
     rows_of h (df s') = [] ∧
     ∀ h', h' ≠ h →
       InMemCallStorage_exists h' s' = InMemCallStorage_exists h' s ∧
       InMemCallStorage_get_data h' s' = InMemCallStorage_get_data h' s) ∧
  (h ∉ levels0 (df s) →
   InMemCallStorage_drop h s =
     (Raise (ValueError ("Call with history_id " +:+ h +:+ " does not exist")), s)).
Proof.
  unfold InMemCallStorage_drop. split.
  - intros Hrows Hlisted. rewrite !decide_True by done. eexists. split; [done|].
    assert (Hex : ∀ h', h' ≠ h →
      InMemCallStorage_exists h' {| df := filter (λ r, call_history_id r ≠ h) (df s);
                                    call_hids := call_hids s ∖ {[h]} |}
        = InMemCallStorage_exists h' s).
    { intros h' Hh'. unfold InMemCallStorage_exists. cbn. apply bool_decide_ext. set_solver. }
    cbn [df]. split; [|split].
    + unfold InMemCallStorage_exists. cbn. apply bool_decide_eq_false_2. set_solver.
    + rewrite rows_of_drop. by rewrite decide_True.
    + intros h' Hh'. split; [by apply Hex|].
      unfold InMemCallStorage_get_data. rewrite Hex by done.
      unfold InMemCallStorage_mget_data. cbn [df mget_rows]. unfold data_of.
      by rewrite rows_of_drop, decide_False.
  - intros Hno. by rewrite decide_False.
Qed.

(** *** The persistent table and [commit] *)

Definition call_rows (c : Call) : list CallRow :=
  (in_row c <$> inputs c) ++ (out_row c <$> outputs c).

Lemma dict_get_prod_map {A B} (g : A → B) (l : pydict A) k x :
  NoDup l.*1 → (k, x) ∈ l → dict_get k (prod_map id g <$> l) = Some (g x).
Proof.
  induction l as [|[k' x'] l IH]; intros Hnd Hin; [by apply elem_of_nil in Hin|].
  rewrite fmap_cons in Hnd. apply NoDup_cons in Hnd as [Hk Hnd].
  rewrite fmap_cons. cbn. apply elem_of_cons in Hin as [[= -> ->]|Hin].
  - by rewrite decide_True.
  - rewrite decide_False; [by apply IH|]. intros ->. apply Hk.
    by apply (list_elem_of_fmap_2 fst) in Hin.
Qed.

Lemma data_rows_of_call (c : Call) :
  NoDup (inputs c).*1 → NoDup (outputs c).*1 →
  data_rows (data_of_call c) = Ok (call_rows c).
Proof.
  intros Hndi Hndo. unfold data_rows, call_rows. cbn [input_cids input_hids output_cids output_hids
    data_of_call d_hid d_cid d_op_name].
  set (go := fix go (dir : Direction) (cids l : pydict string) {struct l} := _).
  assert (Hgo : ∀ dir (mk : string * Ref → CallRow) (all l : pydict Ref),
    NoDup all.*1 → l ⊆ all →
    (∀ kv, mk kv = {| call_history_id := call_hid c; slot_name := kv.1; direction := dir;
                      call_content_id := call_cid c; ref_content_id := cid kv.2;
                      ref_history_id := hid kv.2; op := name (call_op c) |}) →
    go dir (prod_map id cid <$> all) (prod_map id hid <$> l) = Ok (mk <$> l)).
  { intros dir mk all l Hnd. induction l as [|[k r] l IH]; intros Hsub Hmk; [done|].
    rewrite !fmap_cons. cbn.
    rewrite (dict_get_prod_map cid all k r Hnd) by (apply Hsub; left).
    rewrite IH; [|intros x Hx; apply Hsub; by right|done]. by rewrite Hmk. }
  rewrite (Hgo dir_in (in_row c) (inputs c) (inputs c)); [|done..].
  rewrite (Hgo dir_out (out_row c) (outputs c) (outputs c)); done.
Qed.

Lemma sql_insert_all_fresh (rs : list CallRow) (p : SQLiteCallStorage) :
  NoDup (row_index <$> rs) →
  (∀ r, r ∈ rs → row_index r ∉ row_index <$> rows p) →
  sql_insert_all rs p = (Ok tt, {| rows := rows p ++ rs |}).
Proof.
  revert p. induction rs as [|r rs IH]; intros p Hnd Hfresh.
  - cbn. rewrite app_nil_r. by destruct p.
  - rewrite fmap_cons in Hnd. apply NoDup_cons in Hnd as [Hr Hnd].
    cbn [sql_insert_all]. unfold sql_insert.
    rewrite decide_False by (apply Hfresh; left).
    rewrite IH; [cbn; by rewrite <- app_assoc|done|].
    intros r' Hr'. cbn. rewrite fmap_app. intros Hin.
    apply elem_of_app in Hin as [Hin|Hin].
    + by apply (Hfresh r'); [right|].
    + apply list_elem_of_singleton in Hin. apply Hr. rewrite <- Hin.
      by apply list_elem_of_fmap_2.
Qed.

Lemma call_rows_index (c : Call) :
  row_index <$> call_rows c = (λ k, (call_hid c, k)) <$> ((inputs c).*1 ++ (outputs c).*1).
Proof.
  unfold call_rows. rewrite !fmap_app, <- !list_fmap_compose. done.
Qed.

Lemma table_save_call (c : Call) conn (p : SQLiteCallStorage) :
  NoDup ((inputs c).*1 ++ (outputs c).*1) →
  SQLiteCallStorage_exists (call_hid c) None p = false →
  SQLiteCallStorage_save (data_of_call c) conn p = (Ok tt, {| rows := rows p ++ call_rows c |}).
Proof.
  intros Hnd Hnew. unfold SQLiteCallStorage_save.
  rewrite data_rows_of_call;
    [|by apply NoDup_app in Hnd as (? & _ & _)|by apply NoDup_app in Hnd as (_ & _ & ?)].
  apply sql_insert_all_fresh.
  - rewrite call_rows_index. apply NoDup_fmap_2; [by intros k k' [=]|done].
  - intros r Hr Hin. apply bool_decide_eq_false in Hnew. apply Hnew.
    apply list_elem_of_fmap in Hin as (r' & Heq & Hr').
    assert (Hh : call_history_id r = call_hid c).
    { unfold call_rows in Hr. apply elem_of_app in Hr as [Hr|Hr];
        apply list_elem_of_fmap in Hr as (kv & -> & _); done. }
    rewrite <- Hh. injection Heq as -> _. by apply list_elem_of_fmap_2.
Qed.

Lemma rows_of_absent h (d : DataFrame) : h ∉ call_history_id <$> d → rows_of h d = [].
Proof.
  intros Hh. apply filter_none. intros r Hr Heq. apply Hh. rewrite <- Heq.
  by apply list_elem_of_fmap_2.
Qed.

Lemma rows_of_present h (d : DataFrame) : rows_of h d ≠ [] → h ∈ call_history_id <$> d.
Proof.
  intros Hne. destruct (rows_of h d) as [|r rest] eqn:Hr; [done|].
  assert (Hin : r ∈ rows_of h d) by (rewrite Hr; left).
  apply list_elem_of_filter in Hin as [<- Hin]. by apply list_elem_of_fmap_2.
Qed.

(** X8. The table's [save]: the data of a call with distinct slot names and at
    least one slot, saved under a hid the table does not hold, adds the rows of
    that call and no other; the call then exists in the table, and saving the
    same data once more raises [IntegrityError] on the primary key and leaves
    the table as it is. *)
Theorem table_save_adds_rows_once (c : Call) (conn : option Connection)
    (p : SQLiteCallStorage) :
  NoDup ((inputs c).*1 ++ (outputs c).*1) →
  inputs c ++ outputs c ≠ [] →
  SQLiteCallStorage_exists (call_hid c) None p = false →
  ∃ p', SQLiteCallStorage_save (data_of_call c) conn p = (Ok tt, p') ∧
    SQLiteCallStorage_exists (call_hid c) conn p' = true ∧
    rows_of (call_hid c) (rows p') = call_rows c ∧
    (∀ h, h ≠ call_hid c → rows_of h (rows p') = rows_of h (rows p)) ∧
    SQLiteCallStorage_save (data_of_call c) conn p' = (Raise IntegrityError, p').
Proof.
  intros Hnd Hne Hnew. eexists. split; [by apply table_save_call|].
  assert (Hrows : rows_of (call_hid c) (rows p ++ call_rows c) = call_rows c).
  { rewrite rows_of_app. unfold call_rows at 1. rewrite rows_of_call_rows, decide_True by done.
    rewrite rows_of_absent; [done|]. by apply bool_decide_eq_false in Hnew. }
  assert (Hfirst : ∃ r rest, call_rows c = r :: rest).
  { unfold call_rows. destruct (inputs c) as [|kv ins]; cbn.
    - destruct (outputs c) as [|kv outs]; [done|]. cbn. eauto.
    - eauto. }
  split; [|split; [exact Hrows|split]].
  - unfold SQLiteCallStorage_exists. cbn. apply bool_decide_eq_true_2.
    apply rows_of_present. rewrite Hrows. by destruct Hfirst as (r & rest & ->).
  - intros h Hh. cbn [rows]. rewrite rows_of_app. unfold call_rows at 1.
    rewrite rows_of_call_rows, decide_False by done. by rewrite app_nil_r.
  - unfold SQLiteCallStorage_save.
    rewrite data_rows_of_call;
      [|by apply NoDup_app in Hnd as (? & _ & _)|by apply NoDup_app in Hnd as (_ & _ & ?)].
    destruct Hfirst as (r & rest & Hr). rewrite Hr. cbn [sql_insert_all]. unfold sql_insert.
    rewrite decide_True; [done|]. cbn. apply list_elem_of_fmap_2.
    apply elem_of_app. right. left.
Qed.

(** The loop of [commit] over dirty hids whose calls the cache records and the
    table does not hold yet. *)
Definition committable (c : InMemCallStorage) (p : SQLiteCallStorage) (h : string) : Prop :=
  ∃ call, call_hid call = h ∧ recorded call c ∧
    NoDup ((inputs call).*1 ++ (outputs call).*1) ∧ inputs call ++ outputs call ≠ [] ∧
    SQLiteCallStorage_exists h None p = false.

Lemma get_data_of_recorded (call : Call) (c : InMemCallStorage) :
  recorded call c → NoDup ((inputs call).*1 ++ (outputs call).*1) →
  inputs call ++ outputs call ≠ [] →
  InMemCallStorage_get_data (call_hid call) c = Ok (data_of_call call).
Proof.
  intros [Hin Hrows] Hnd Hne. unfold InMemCallStorage_get_data, InMemCallStorage_exists.
  rewrite bool_decide_eq_true_2 by done.
  unfold InMemCallStorage_mget_data. cbn [mget_rows].
  rewrite (data_of_rows_of_call call); [done|done
    |by apply NoDup_app in Hnd as (? & _ & _)|by apply NoDup_app in Hnd as (_ & _ & ?)|done].
Qed.

Lemma commit_calls_loop_ok hs (c : InMemCallStorage) conn (p : SQLiteCallStorage) :
  NoDup hs → (∀ h, h ∈ hs → committable c p h) →
  ∃ p', commit_calls_loop hs c conn p = (Ok tt, p') ∧
    (∀ h, h ∈ hs → rows_of h (rows p') = rows_of h (df c)) ∧
    (∀ h, h ∉ hs → rows_of h (rows p') = rows_of h (rows p)).
Proof.
  revert p. induction hs as [|h hs IH]; intros p Hnd Hall.
  - exists p. split; [done|]. split; [|done]. intros h Hh. by apply elem_of_nil in Hh.
  - apply NoDup_cons in Hnd as [Hh Hnd].
    destruct (Hall h) as (call & <- & Hrec & Hndc & Hne & Hnew); [left|].
    cbn [commit_calls_loop]. rewrite (get_data_of_recorded call) by done.
    rewrite table_save_call by done.
    destruct (IH {| rows := rows p ++ call_rows call |} Hnd) as (p' & Hrun & Hin & Hout).
    { intros h' Hh'. destruct (Hall h') as (call' & <- & Hrec' & Hndc' & Hne' & Hnew');
        [by right|].
      exists call'. split; [done|]. split; [done|]. split; [done|]. split; [done|].
      apply bool_decide_eq_false_2. apply bool_decide_eq_false in Hnew'. cbn.
      rewrite fmap_app. intros Hx. apply elem_of_app in Hx as [Hx|Hx]; [done|].
      apply list_elem_of_fmap in Hx as (r & Heq & Hr).
      assert (Hrh : call_history_id r = call_hid call).
      { unfold call_rows in Hr. apply elem_of_app in Hr as [Hr|Hr];
          apply list_elem_of_fmap in Hr as (kv & -> & _); done. }
      apply Hh. rewrite <- Hrh, <- Heq. done. }
    exists p'. split; [done|]. split.
    + intros h' Hh'. apply elem_of_cons in Hh' as [->|Hh']; [|by apply Hin].
      rewrite (Hout _ Hh). cbn [rows]. rewrite rows_of_app. unfold call_rows at 1.
      rewrite rows_of_call_rows, decide_True by done.
      rewrite rows_of_absent by (by apply bool_decide_eq_false in Hnew).
      by destruct Hrec as [_ ->].
    + intros h' Hh'. apply not_elem_of_cons in Hh' as [Hne' Hh'].
      rewrite (Hout _ Hh'). cbn [rows]. rewrite rows_of_app. unfold call_rows.
      rewrite rows_of_call_rows, decide_False by done. by rewrite app_nil_r.
Qed.

Lemma calls_commit_ok (conn : option Connection) (s : CachedCallStorage) :
  (∀ h, h ∈ dirty_hids s → committable (cache s) (persistent s) h) →
  ∃ s', CachedCallStorage_commit conn s = (Ok tt, s') ∧
    dirty_hids s' = ∅ ∧ cache s' = cache s ∧
    (∀ h, h ∈ dirty_hids s →
       SQLiteCallStorage_exists h conn (persistent s') = true ∧
       rows_of h (rows (persistent s')) = rows_of h (df (cache s))) ∧
    (∀ h, h ∉ dirty_hids s →
       rows_of h (rows (persistent s')) = rows_of h (rows (persistent s))).
Proof.
  intros Hall. unfold CachedCallStorage_commit.
  destruct (commit_calls_loop_ok (elements (dirty_hids s)) (cache s)
              (default db_conn conn) (persistent s))
    as (p' & Hrun & Hin & Hout).
  { apply NoDup_elements. }
  { intros h Hh. apply Hall. by apply elem_of_elements. }
  cbv zeta. rewrite Hrun. eexists. split; [done|]. cbn. split; [done|]. split; [done|]. split.
  - intros h Hh. destruct (Hall h Hh) as (call & <- & Hrec & Hnd & Hne & Hnew).
    assert (Hrows : rows_of (call_hid call) (rows p') = call_rows call).
    { rewrite Hin by (by apply elem_of_elements). by destruct Hrec as [_ ->]. }
    split.
    + apply bool_decide_eq_true_2. apply rows_of_present. rewrite Hrows.
      unfold call_rows. destruct (inputs call) as [|kv ins]; cbn; [|done].
      by destruct (outputs call).
    + by apply Hin, elem_of_elements.
  - intros h Hh. apply Hout. by rewrite elem_of_elements.
Qed.

(** X9. [commit] of the call storage: when every dirty hid is a call the cache
    records (with distinct slot names and at least one slot) that the table
    does not hold yet, [commit] returns, empties the dirty set, leaves the
    cache as it is, and afterwards the table holds for every committed hid the
    rows the cache holds, and for every other hid the rows it had. *)
Theorem calls_commit_writes_dirty (conn : option Connection) (s : CachedCallStorage) :
  (∀ h, h ∈ dirty_hids s → committable (cache s) (persistent s) h) →
  ∃ s', CachedCallStorage_commit conn s = (Ok tt, s') ∧
    dirty_hids s' = ∅ ∧ cache s' = cache s ∧
    (∀ h, h ∈ dirty_hids s →
       SQLiteCallStorage_exists h conn (persistent s') = true ∧
       rows_of h (rows (persistent s')) = rows_of h (df (cache s))) ∧
    (∀ h, h ∉ dirty_hids s →
       rows_of h (rows (persistent s')) = rows_of h (rows (persistent s))).
Proof. apply calls_commit_ok. Qed.

(** *** Provenance: dependencies and dependents *)

(** The [while True] loop of [get_dependencies], as that of [get_dependents]
    with creators for consumers and inputs for outputs. *)
Fixpoint dependencies_loop (rounds : nat) (s : InMemCallStorage)
    (refs_result calls_result cur_refs cur_calls : gset string)
    : option (gset string * gset string) :=
  match rounds with
  | O => None
  | S rounds' =>
      let calls_upd := InMemCallStorage_get_creator_hids cur_refs s ∖ calls_result in
      let refs_upd := InMemCallStorage_get_input_hids cur_calls s ∖ refs_result in
      if decide (calls_upd = ∅ ∧ refs_upd = ∅) then Some (refs_result, calls_result)
      else dependencies_loop rounds' s (refs_result ∪ refs_upd) (calls_result ∪ calls_upd)
             refs_upd calls_upd
  end.

Definition InMemCallStorage_get_dependencies (ref_hids call_hids : gset string)
    (s : InMemCallStorage) : result (gset string * gset string) :=
  match dependencies_loop (S (S (2 * length (df s)))) s ref_hids call_hids ref_hids call_hids with
  | Some r => Ok r
  | None => Raise RecursionError
  end.

Definition SQLiteCallStorage_get_dependencies (ref_hids call_hids : gset string)
    (p : SQLiteCallStorage) : result (gset string * gset string) :=
  InMemCallStorage_get_dependencies ref_hids call_hids
    (InMemCallStorage_init (Some (SQLiteCallStorage_get_df p))).

(** The sets [refs] and [calls] are closed under the two steps, hold the
    seeds, and are the least such sets. *)
Definition closed_under (f g : gset string → gset string) (refs calls : gset string) : Prop :=
  f refs ⊆ calls ∧ g calls ⊆ refs.

Definition least_closed (f g : gset string → gset string)
    (ref_hids call_hids refs calls : gset string) : Prop :=
  ref_hids ⊆ refs ∧ call_hids ⊆ calls ∧ closed_under f g refs calls ∧
  ∀ R C, ref_hids ⊆ R → call_hids ⊆ C → closed_under f g R C → refs ⊆ R ∧ calls ⊆ C.

Section closure.
Variables (f g : gset string → gset string) (Uc Ur : gset string).
Hypothesis f_union : ∀ A B, f (A ∪ B) = f A ∪ f B.
Hypothesis g_union : ∀ A B, g (A ∪ B) = g A ∪ g B.
Hypothesis f_empty : f ∅ = ∅.
Hypothesis g_empty : g ∅ = ∅.
Hypothesis f_bound : ∀ A, f A ⊆ Uc.
Hypothesis g_bound : ∀ A, g A ⊆ Ur.

Fixpoint closure_loop (rounds : nat) (refs_result calls_result cur_refs cur_calls : gset string)
    : option (gset string * gset string) :=
  match rounds with
  | O => None
  | S rounds' =>
      let calls_upd := f cur_refs ∖ calls_result in
      let refs_upd := g cur_calls ∖ refs_result in
      if decide (calls_upd = ∅ ∧ refs_upd = ∅) then Some (refs_result, calls_result)
      else closure_loop rounds' (refs_result ∪ refs_upd) (calls_result ∪ calls_upd)
             refs_upd calls_upd
  end.

Lemma f_mono A B : A ⊆ B → f A ⊆ f B.
Proof. intros HAB. replace B with (A ∪ B) by set_solver. rewrite f_union. set_solver. Qed.

Lemma g_mono A B : A ⊆ B → g A ⊆ g B.
Proof. intros HAB. replace B with (A ∪ B) by set_solver. rewrite g_union. set_solver. Qed.

Lemma size_shrinks (U X upd : gset string) :
  upd ⊆ U → upd ## X → upd ≠ ∅ → size (U ∖ (X ∪ upd)) < size (U ∖ X).
Proof.
  intros HU Hdisj Hne. apply subset_size. split; [set_solver|].
  apply set_choose_L in Hne as [x Hx]. intros Hsub.
  assert (x ∈ U ∖ (X ∪ upd)) by (apply Hsub; set_solver). set_solver.
Qed.

Lemma size_keeps (U X upd : gset string) : size (U ∖ (X ∪ upd)) ≤ size (U ∖ X).
Proof. apply subseteq_size. set_solver. Qed.

Lemma closure_loop_spec n rr cr cur_r cur_c :
  size (Uc ∖ cr) + size (Ur ∖ rr) < n →
  cur_r ⊆ rr → cur_c ⊆ cr →
  f (rr ∖ cur_r) ⊆ cr → g (cr ∖ cur_c) ⊆ rr →
  ∃ refs calls, closure_loop n rr cr cur_r cur_c = Some (refs, calls) ∧
    rr ⊆ refs ∧ cr ⊆ calls ∧ closed_under f g refs calls ∧
    ∀ R C, rr ⊆ R → cr ⊆ C → closed_under f g R C → refs ⊆ R ∧ calls ⊆ C.
Proof.
  revert rr cr cur_r cur_c. induction n as [|n IH]; intros rr cr cur_r cur_c Hn Hr Hc Hf Hg;
    [lia|].
  cbn [closure_loop]. cbv zeta.
  destruct (decide (f cur_r ∖ cr = ∅ ∧ g cur_c ∖ rr = ∅)) as [[Hcu Hru]|Hgo].
  - exists rr, cr. split; [done|]. split; [done|]. split; [done|]. split; [|done]. split.
    + replace rr with ((rr ∖ cur_r) ∪ cur_r)
        by (apply set_eq; intros x; destruct (decide (x ∈ cur_r)); set_solver).
      rewrite f_union. set_solver.
    + replace cr with ((cr ∖ cur_c) ∪ cur_c)
        by (apply set_eq; intros x; destruct (decide (x ∈ cur_c)); set_solver).
      rewrite g_union. set_solver.
  - set (calls_upd := f cur_r ∖ cr) in *. set (refs_upd := g cur_c ∖ rr) in *.
    destruct (IH (rr ∪ refs_upd) (cr ∪ calls_upd) refs_upd calls_upd)
      as (refs & calls & Hrun & Hrr & Hcr & Hclosed & Hleast).
    + assert (Hcb : calls_upd ⊆ Uc) by (pose proof (f_bound cur_r); set_solver).
      assert (Hrb : refs_upd ⊆ Ur) by (pose proof (g_bound cur_c); set_solver).
      assert (Hcd : calls_upd ## cr) by set_solver.
      assert (Hrd : refs_upd ## rr) by set_solver.
      pose proof (size_keeps Uc cr calls_upd). pose proof (size_keeps Ur rr refs_upd).
      destruct (decide (calls_upd = ∅)) as [Hce|Hce].
      * destruct (decide (refs_upd = ∅)) as [Hre|Hre]; [by destruct Hgo|].
        pose proof (size_shrinks Ur rr refs_upd Hrb Hrd Hre). lia.
      * pose proof (size_shrinks Uc cr calls_upd Hcb Hcd Hce). lia.
    + set_solver.
    + set_solver.
    + replace ((rr ∪ refs_upd) ∖ refs_upd) with rr by set_solver.
      replace rr with ((rr ∖ cur_r) ∪ cur_r)
        by (apply set_eq; intros x; destruct (decide (x ∈ cur_r)); set_solver).
      rewrite f_union. intros x Hx. apply elem_of_union in Hx as [Hx|Hx]; [set_solver|].
      destruct (decide (x ∈ cr)); set_solver.
    + replace ((cr ∪ calls_upd) ∖ calls_upd) with cr by set_solver.
      replace cr with ((cr ∖ cur_c) ∪ cur_c)
        by (apply set_eq; intros x; destruct (decide (x ∈ cur_c)); set_solver).
      rewrite g_union. intros x Hx. apply elem_of_union in Hx as [Hx|Hx]; [set_solver|].
      destruct (decide (x ∈ rr)); set_solver.
    + exists refs, calls. split; [done|]. split; [set_solver|]. split; [set_solver|].
      split; [done|]. intros R C HR HC [HfR HgC]. apply Hleast; [| |done].
      * assert (Hg1 : g cur_c ⊆ R) by (etrans; [apply g_mono; etrans; [exact Hc|exact HC]|done]).
        clear -HR Hg1. set_solver.
      * assert (Hf1 : f cur_r ⊆ C) by (etrans; [apply f_mono; etrans; [exact Hr|exact HR]|done]).
        clear -HC Hf1. set_solver.
Qed.

Lemma closure_loop_least_closed n ref_hids call_hids :
  size Uc + size Ur < n →
  ∃ refs calls, closure_loop n ref_hids call_hids ref_hids call_hids = Some (refs, calls) ∧
    least_closed f g ref_hids call_hids refs calls.
Proof.
  intros Hn.
  destruct (closure_loop_spec n ref_hids call_hids ref_hids call_hids)
    as (refs & calls & Hrun & Hr & Hc & Hclosed & Hleast); [|done|done| | |].
  - assert (size (Uc ∖ call_hids) ≤ size Uc) by (apply subseteq_size; set_solver).
    assert (size (Ur ∖ ref_hids) ≤ size Ur) by (apply subseteq_size; set_solver). lia.
  - replace (ref_hids ∖ ref_hids) with (∅ : gset string) by set_solver.
    rewrite f_empty. set_solver.
  - replace (call_hids ∖ call_hids) with (∅ : gset string) by set_solver.
    rewrite g_empty. set_solver.
  - by exists refs, calls.
Qed.

End closure.

Lemma size_list_to_set_le (l : list string) : size (list_to_set l : gset string) ≤ length l.
Proof.
  induction l as [|x l IH]; [by rewrite list_to_set_nil, size_empty|].
  rewrite list_to_set_cons, size_union_alt, size_singleton. cbn.
  assert (size (list_to_set l ∖ {[x]} : gset string) ≤ size (list_to_set l : gset string))
    by (apply subseteq_size; set_solver).
  lia.
Qed.

Lemma elem_of_step (key val : CallRow → string) (dir : Direction) (X : gset string)
    (d : DataFrame) h :
  h ∈ (list_to_set (key <$> filter (λ r, val r ∈ X ∧ direction r = dir) d) : gset string) ↔
  ∃ r, r ∈ d ∧ key r = h ∧ val r ∈ X ∧ direction r = dir.
Proof.
  rewrite elem_of_list_to_set, list_elem_of_fmap. split.
  - intros (r & -> & Hr). apply list_elem_of_filter in Hr as [[? ?] ?]. by exists r.
  - intros (r & Hr & <- & ? & ?). exists r. split; [done|]. by apply list_elem_of_filter.
Qed.

Lemma step_union (key val : CallRow → string) (dir : Direction) (A B : gset string)
    (d : DataFrame) :
  (list_to_set (key <$> filter (λ r, val r ∈ A ∪ B ∧ direction r = dir) d) : gset string) =
  list_to_set (key <$> filter (λ r, val r ∈ A ∧ direction r = dir) d) ∪
  list_to_set (key <$> filter (λ r, val r ∈ B ∧ direction r = dir) d).
Proof.
  apply set_eq. intros h. rewrite elem_of_union, !elem_of_step. split.
  - intros (r & Hr & Hk & Hv & Hd). apply elem_of_union in Hv as [Hv|Hv]; [left|right];
      by exists r.
  - intros [(r & Hr & Hk & Hv & Hd)|(r & Hr & Hk & Hv & Hd)]; exists r; set_solver.
Qed.

Lemma step_empty (key val : CallRow → string) (dir : Direction) (X : gset string)
    (d : DataFrame) :
  X = ∅ →
  (list_to_set (key <$> filter (λ r, val r ∈ X ∧ direction r = dir) d) : gset string) = ∅.
Proof.
  intros ->. rewrite filter_none; [done|]. intros r _ [Hv _]. set_solver.
Qed.

Lemma step_bound (key val : CallRow → string) (dir : Direction) (X : gset string)
    (d : DataFrame) :
  (list_to_set (key <$> filter (λ r, val r ∈ X ∧ direction r = dir) d) : gset string)
    ⊆ list_to_set (key <$> d).
Proof.
  intros h. rewrite elem_of_step, elem_of_list_to_set.
  intros (r & Hr & <- & _). by apply list_elem_of_fmap_2.
Qed.

Lemma dependents_loop_closure n s rr cr cur_r cur_c :
  dependents_loop n s rr cr cur_r cur_c =
    closure_loop (λ R, consumer_hids R (df s)) (λ C, output_hids_of C (df s)) n rr cr cur_r cur_c.
Proof.
  revert rr cr cur_r cur_c. induction n as [|n IH]; intros rr cr cur_r cur_c; [done|].
  cbn [dependents_loop closure_loop]. cbv zeta.
  unfold InMemCallStorage_get_consumer_hids, InMemCallStorage_get_output_hids.
  destruct (decide _); [done|]. apply IH.
Qed.

Lemma dependencies_loop_closure n s rr cr cur_r cur_c :
  dependencies_loop n s rr cr cur_r cur_c =
    closure_loop (λ R, creator_hids R (df s)) (λ C, input_hids_of C (df s)) n rr cr cur_r cur_c.
Proof.
  revert rr cr cur_r cur_c. induction n as [|n IH]; intros rr cr cur_r cur_c; [done|].
  cbn [dependencies_loop closure_loop]. cbv zeta.
  unfold InMemCallStorage_get_creator_hids, InMemCallStorage_get_input_hids.
  destruct (decide _); [done|]. apply IH.
Qed.

Lemma loop_bound (d : DataFrame) :
  size (list_to_set (call_history_id <$> d) : gset string) +
  size (list_to_set (ref_history_id <$> d) : gset string) < S (S (2 * length d)).
Proof.
  pose proof (size_list_to_set_le (call_history_id <$> d)) as H1.
  pose proof (size_list_to_set_le (ref_history_id <$> d)) as H2.
  rewrite length_fmap in H1, H2. lia.
Qed.

Lemma dependents_of_rows (ref_hids call_hids : gset string) (d : DataFrame) cs :
  ∃ refs calls,
    InMemCallStorage_get_dependents ref_hids call_hids {| df := d; call_hids := cs |}
      = Ok (refs, calls) ∧
    least_closed (λ R, consumer_hids R d) (λ C, output_hids_of C d)
      ref_hids call_hids refs calls.
Proof.
  unfold InMemCallStorage_get_dependents. rewrite dependents_loop_closure. cbn [df].
  destruct (closure_loop_least_closed
              (λ R, consumer_hids R d) (λ C, output_hids_of C d)
              (list_to_set (call_history_id <$> d)) (list_to_set (ref_history_id <$> d))
              (λ A B, step_union call_history_id ref_history_id _ A B d)
              (λ A B, step_union ref_history_id call_history_id _ A B d)
              (step_empty call_history_id ref_history_id _ ∅ d eq_refl)
              (step_empty ref_history_id call_history_id _ ∅ d eq_refl)
              (λ A, step_bound call_history_id ref_history_id _ A d)
              (λ A, step_bound ref_history_id call_history_id _ A d)
              (S (S (2 * length d))) ref_hids call_hids (loop_bound d))
    as (refs & calls & -> & Hl).
  by exists refs, calls.
Qed.

Lemma dependencies_of_rows (ref_hids call_hids : gset string) (d : DataFrame) cs :
  ∃ refs calls,
    InMemCallStorage_get_dependencies ref_hids call_hids {| df := d; call_hids := cs |}
      = Ok (refs, calls) ∧
    least_closed (λ R, creator_hids R d) (λ C, input_hids_of C d)
      ref_hids call_hids refs calls.
Proof.
  unfold InMemCallStorage_get_dependencies. rewrite dependencies_loop_closure. cbn [df].
  destruct (closure_loop_least_closed
              (λ R, creator_hids R d) (λ C, input_hids_of C d)
              (list_to_set (call_history_id <$> d)) (list_to_set (ref_history_id <$> d))
              (λ A B, step_union call_history_id ref_history_id _ A B d)
              (λ A B, step_union ref_history_id call_history_id _ A B d)
              (step_empty call_history_id ref_history_id _ ∅ d eq_refl)
              (step_empty ref_history_id call_history_id _ ∅ d eq_refl)
              (λ A, step_bound call_history_id ref_history_id _ A d)
              (λ A, step_bound ref_history_id call_history_id _ A d)
              (S (S (2 * length d))) ref_hids call_hids (loop_bound d))
    as (refs & calls & -> & Hl).
  by exists refs, calls.
Qed.

(** X10. [get_dependents] always returns: its loop ends within the rounds the
    table allows.  The refs and calls it returns hold the given ones, are
    closed under "calls that consume a ref" and "refs that a call outputs",
    and are the least such sets: the transitive dependents.  The table's
    method answers the same on its rows. *)
Theorem get_dependents_least_closed (ref_hids call_hids : gset string)
    (s : InMemCallStorage) (p : SQLiteCallStorage) :
  (∃ refs calls,
     InMemCallStorage_get_dependents ref_hids call_hids s = Ok (refs, calls) ∧
     least_closed (λ R, InMemCallStorage_get_consumer_hids R s)
       (λ C, InMemCallStorage_get_output_hids C s) ref_hids call_hids refs calls) ∧
  (∃ refs calls,
     SQLiteCallStorage_get_dependents ref_hids call_hids p = Ok (refs, calls) ∧
     least_closed (λ R, SQLiteCallStorage_get_consumer_hids R p)
       (λ C, SQLiteCallStorage_get_output_hids C p) ref_hids call_hids refs calls).
Proof.
  split.
  - destruct s as [d cs]. apply dependents_of_rows.
  - unfold SQLiteCallStorage_get_dependents, InMemCallStorage_init, SQLiteCallStorage_get_df.
    apply dependents_of_rows.
Qed.

(** X11. [get_dependencies] always returns, with the least sets of refs and calls
    that hold the given ones and are closed under "calls that create a ref"
    and "refs that a call takes as input": the transitive dependencies. *)
Theorem get_dependencies_least_closed (ref_hids call_hids : gset string)
    (s : InMemCallStorage) (p : SQLiteCallStorage) :
  (∃ refs calls,
     InMemCallStorage_get_dependencies ref_hids call_hids s = Ok (refs, calls) ∧
     least_closed (λ R, InMemCallStorage_get_creator_hids R s)
       (λ C, InMemCallStorage_get_input_hids C s) ref_hids call_hids refs calls) ∧
  (∃ refs calls,
     SQLiteCallStorage_get_dependencies ref_hids call_hids p = Ok (refs, calls) ∧
     least_closed (λ R, SQLiteCallStorage_get_creator_hids R p)
       (λ C, SQLiteCallStorage_get_input_hids C p) ref_hids call_hids refs calls).
Proof.
  split.
  - destruct s as [d cs]. apply dependencies_of_rows.
  - unfold SQLiteCallStorage_get_dependencies, InMemCallStorage_init, SQLiteCallStorage_get_df.
    apply dependencies_of_rows.
Qed.

(** *** Listed calls and their rows *)

Lemma levels0_df_set x (d : DataFrame) h :
  h ∈ levels0 (df_set x d) ↔ h = call_history_id x ∨ h ∈ levels0 d.
Proof.
  unfold levels0. induction d as [|r' d IH]; cbn [df_set].
  - rewrite fmap_cons, fmap_nil, elem_of_cons. set_solver.
  - destruct (decide (row_index r' = row_index x)) as [Heq|Hne].
    + rewrite !fmap_cons, !elem_of_cons. injection Heq as Heq _. rewrite Heq. tauto.
    + rewrite !fmap_cons, !elem_of_cons, IH. tauto.
Qed.

Lemma levels0_foldl_df_set {A} (g : A → CallRow) (l : list A) (d : DataFrame) h :
  h ∈ levels0 (foldl (λ acc x, df_set (g x) acc) d l) ↔
  h ∈ levels0 d ∨ ∃ x, x ∈ l ∧ h = call_history_id (g x).
Proof.
  revert d. induction l as [|x l IH]; intros d; cbn [foldl].
  - split; [by left|]. intros [?|(x & Hx & _)]; [done|]. by apply elem_of_nil in Hx.
  - rewrite IH, levels0_df_set. split.
    + intros [[->|Hd]|(y & Hy & ->)].
      * right. exists x. split; [left|done].
      * by left.
      * right. exists y. split; [by right|done].
    + intros [Hd|(y & Hy & ->)]; [left; by right|].
      apply elem_of_cons in Hy as [->|Hy]; [left; by left|]. right. by exists y.
Qed.

(** [save] gives a call with at least one slot a row. *)
Lemma save_has_rows (c : Call) (s : InMemCallStorage) :
  inputs c ++ outputs c ≠ [] →
  (∀ h, h ∈ call_hids s → h ∈ levels0 (df s)) →
  ∀ h, h ∈ call_hids (InMemCallStorage_save c s) →
       h ∈ levels0 (df (InMemCallStorage_save c s)).
Proof.
  intros Hne Hrows h. unfold InMemCallStorage_save.
  destruct (decide _); [apply Hrows|]. cbn [df call_hids].
  rewrite !levels0_foldl_df_set. intros Hh. apply elem_of_union in Hh as [Hh|Hh].
  - apply elem_of_singleton in Hh as ->.
    destruct (outputs c) as [|kv outs] eqn:Ho.
    + destruct (inputs c) as [|kv ins] eqn:Hi; [done|].
      left. right. exists kv. split; [left|done].
    + right. exists kv. split; [left|done].
  - left. left. by apply Hrows.
Qed.

(** [drop] takes the rows and the hid away together. *)
Lemma drop_has_rows h (s : InMemCallStorage) :
  (∀ h', h' ∈ call_hids s → h' ∈ levels0 (df s)) →
  ∀ h', h' ∈ call_hids (InMemCallStorage_drop h s).2 →
        h' ∈ levels0 (df (InMemCallStorage_drop h s).2).
Proof.
  intros Hrows h'. unfold InMemCallStorage_drop.
  destruct (decide (h ∈ levels0 (df s))); [|apply Hrows].
  destruct (decide (h ∈ call_hids s)); cbn.
  - intros Hh. apply elem_of_difference in Hh as [Hh Hne].
    apply Hrows in Hh. unfold levels0 in *. apply list_elem_of_fmap in Hh as (r & -> & Hr).
    apply list_elem_of_fmap_2. apply list_elem_of_filter. split; [set_solver|done].
  - intros Hh. assert (h' ≠ h) by (by intros ->).
    apply Hrows in Hh. unfold levels0 in *. apply list_elem_of_fmap in Hh as (r & -> & Hr).
    apply list_elem_of_fmap_2. apply list_elem_of_filter. split; [done|done].
Qed.

(** X12. [get_data] of the table cannot answer: it hands its connection to
    [mget_data] by position, which the [transaction] decorator turns into a
    [TypeError], whatever the table holds and however the caller passed the
    connection.  So [get_data] of the cached storage answers for the calls of
    the cache only; for any other hid it raises that [TypeError]. *)
Theorem table_get_data_raises (h : string) (conn : option Connection)
    (p : SQLiteCallStorage) (s : CachedCallStorage) :
  SQLiteCallStorage_get_data h conn p
    = Raise (TypeError "got multiple values for argument 'conn'") ∧
  CachedCallStorage_get_data h conn s =
    (if InMemCallStorage_exists h (cache s) then InMemCallStorage_get_data h (cache s)
     else Raise (TypeError "got multiple values for argument 'conn'")) ∧
  (InMemCallStorage_exists h (cache s) = true →
   rows_of h (df (cache s)) ≠ [] →
   ∃ d, CachedCallStorage_get_data h conn s = Ok d ∧ d_hid d = h).
Proof.
  split; [done|]. split; [done|]. intros Hex Hrows.
  unfold CachedCallStorage_get_data, InMemCallStorage_get_data. rewrite Hex.
  unfold InMemCallStorage_mget_data. cbn [mget_rows].
  destruct (data_of h (df (cache s))) as [d|e] eqn:Hd.
  - exists d. split; [done|]. by eapply data_of_hid.
  - unfold data_of in Hd. by destruct (rows_of h (df (cache s))).
Qed.

End CallStorage.

(** ** storage.py: the class [Storage] *)

Module Engine.
Import Model.
Export DictStorage.

Section storage.
Context {Blob : Type}.
Context `{!Codec Blob Value, !Codec Blob Blob, !Codec Blob Ref, !Codec Blob Op}.

(** [get_content_hash] of model.py. *)
Variable get_content_hash : hashable Blob → string.

(** Modelled from the spec: a ref introduced from outside any call gets a fresh
    history id; [new_hid n c] is the id of the [n]-th such ref, of content [c]. *)
Variable new_hid : nat → string → string.

(** The versioner of a versioned storage, an external collaborator: what it
    answers, given the executions traced so far, to [lookup_call] and to
    [get_version_ids] for an op and a pre-call id. *)
Variable versioner_lookup_call :
  list (string * pydict Value) → Op → string → option (string * string).
Variable versioner_get_version_ids :
  list (string * pydict Value) → Op → string → string * string.

(** The state of a [Storage]: the call storage with its cache
    ([self.calls]; [self.call_storage] is its persistent table and
    [self.call_cache] its cache), the three key-value tables with their
    caches, the versioning flag, and whether [self.cached_versioner] is set
    (it is [None] outside a context).  With it travel the process-wide slot
    [Context.current_context], the number of fresh history ids drawn, and a log
    of the invocations of op functions. *)
Record Storage := {
  calls : CallStorage.CachedCallStorage;
  atoms : @CachedDictStorage Blob Blob;
  shapes : @CachedDictStorage Ref Blob;
  ops : @CachedDictStorage Op Blob;
  _versioned : bool;
  cached_versioner : bool;
  current_context : bool;
  hids_drawn : nat;
  exec_log : list (string * pydict Value);
}.

Definition call_storage (st : Storage) : CallStorage.SQLiteCallStorage :=
  CallStorage.persistent (calls st).
Definition call_cache (st : Storage) : CallStorage.InMemCallStorage :=
  CallStorage.cache (calls st).

Definition set_calls (c : CallStorage.CachedCallStorage) (st : Storage) : Storage :=
  {| calls := c; atoms := atoms st; shapes := shapes st; ops := ops st;
     _versioned := _versioned st; cached_versioner := cached_versioner st;
     current_context := current_context st;
     hids_drawn := hids_drawn st; exec_log := exec_log st |}.
Definition set_atoms (a : @CachedDictStorage Blob Blob) (st : Storage) : Storage :=
  {| calls := calls st; atoms := a; shapes := shapes st; ops := ops st;
     _versioned := _versioned st; cached_versioner := cached_versioner st;
     current_context := current_context st;
     hids_drawn := hids_drawn st; exec_log := exec_log st |}.
Definition set_shapes (s : @CachedDictStorage Ref Blob) (st : Storage) : Storage :=
  {| calls := calls st; atoms := atoms st; shapes := s; ops := ops st;
     _versioned := _versioned st; cached_versioner := cached_versioner st;
     current_context := current_context st;
     hids_drawn := hids_drawn st; exec_log := exec_log st |}.
Definition set_ops (o : @CachedDictStorage Op Blob) (st : Storage) : Storage :=
  {| calls := calls st; atoms := atoms st; shapes := shapes st; ops := o;
     _versioned := _versioned st; cached_versioner := cached_versioner st;
     current_context := current_context st;
     hids_drawn := hids_drawn st; exec_log := exec_log st |}.
Definition set_current_context (b : bool) (st : Storage) : Storage :=
  {| calls := calls st; atoms := atoms st; shapes := shapes st; ops := ops st;
     _versioned := _versioned st; cached_versioner := cached_versioner st;
     current_context := b;
     hids_drawn := hids_drawn st; exec_log := exec_log st |}.
Definition set_cached_versioner (b : bool) (st : Storage) : Storage :=
  {| calls := calls st; atoms := atoms st; shapes := shapes st; ops := ops st;
     _versioned := _versioned st; cached_versioner := b;
     current_context := current_context st;
     hids_drawn := hids_drawn st; exec_log := exec_log st |}.
Definition set_call_cache (c : CallStorage.InMemCallStorage) (st : Storage) : Storage :=
  set_calls {| CallStorage.persistent := call_storage st; CallStorage.cache := c;
               CallStorage.dirty_hids := CallStorage.dirty_hids (calls st) |} st.
Definition set_call_storage (p : CallStorage.SQLiteCallStorage) (st : Storage) : Storage :=
  set_calls {| CallStorage.persistent := p; CallStorage.cache := call_cache st;
               CallStorage.dirty_hids := CallStorage.dirty_hids (calls st) |} st.

(** [Storage(db_path)] on a database holding the given tables. *)
Definition Storage_init (pc : CallStorage.SQLiteCallStorage)
    (pa ps po : @SQLiteDictStorage Blob) (versioned : bool) : Storage :=
  {| calls := CallStorage.CachedCallStorage_init pc;
     atoms := CachedDictStorage_init pa;
     shapes := CachedDictStorage_init ps;
     ops := CachedDictStorage_init po;
     _versioned := versioned; cached_versioner := false;
     current_context := false;
     hids_drawn := 0; exec_log := [] |}.

(** *** Methods as state transformers that may raise *)

Definition M (A : Type) : Type := Storage → result A * Storage.

#[global] Instance M_ret : MRet M := λ A a st, (Ok a, st).
#[global] Instance M_bind : MBind M := λ A B k m st,
  match m st with
  | (Ok a, st') => k a st'
  | (Raise e, st') => (Raise e, st')
  end.

Definition raise {A} (e : exn) : M A := λ st, (Raise e, st).
Definition lift {A} (r : result A) : M A := λ st, (r, st).
Definition gets {A} (g : Storage → A) : M A := λ st, (Ok (g st), st).
Definition modify (g : Storage → Storage) : M unit := λ st, (Ok tt, g st).

Fixpoint for_each {A B} (body : A → M B) (l : list A) : M (list B) :=
  match l with
  | [] => mret []
  | x :: rest => y ← body x; ys ← for_each body rest; mret (y :: ys)
  end.

Lemma bind_ok {A B} (m : M A) (k : A → M B) st a st' :
  m st = (Ok a, st') → (m ≫= k) st = k a st'.
Proof. intros H. unfold mbind, M_bind. by rewrite H. Qed.

Lemma bind_raise {A B} (m : M A) (k : A → M B) st e st' :
  m st = (Raise e, st') → (m ≫= k) st = (Raise e, st').
Proof. intros H. unfold mbind, M_bind. by rewrite H. Qed.

Lemma bind_inv {A B} (m : M A) (k : A → M B) st b st2 :
  (m ≫= k) st = (Ok b, st2) → ∃ a st1, m st = (Ok a, st1) ∧ k a st1 = (Ok b, st2).
Proof.
  unfold mbind, M_bind. destruct (m st) as [[a|e] st1]; [|done]. eauto.
Qed.

Lemma run_eq {A} (m : M A) st a : (m st).1 = Ok a → m st = (Ok a, (m st).2).
Proof. destruct (m st) as [r st']. simpl. by intros ->. Qed.

Lemma ret_inv {A} (a b : A) st st' :
  (mret a : M A) st = (Ok b, st') → a = b ∧ st = st'.
Proof. by intros [= -> ->]. Qed.

Lemma for_each_cons {A B} (body : A → M B) x l :
  for_each body (x :: l) = (y ← body x; ys ← for_each body l; mret (y :: ys)).
Proof. done. Qed.

(** [self.shapes[hid]], [self.atoms[cid]], [self.ops[name]]: read through the cache. *)
Definition shapes_get (h : string) : M Ref := λ st,
  let '(r, s) := CachedDictStorage_get h (shapes st) in (r, set_shapes s st).
Definition atoms_get (c : string) : M Blob := λ st,
  let '(r, s) := CachedDictStorage_get c (atoms st) in (r, set_atoms s st).
Definition ops_get (n : string) : M Op := λ st,
  let '(r, s) := CachedDictStorage_get n (ops st) in (r, set_ops s st).

Definition shapes_set (h : string) (r : Ref) : M unit :=
  modify (λ st, set_shapes (CachedDictStorage_set h r (shapes st)) st).
Definition atoms_set (c : string) (b : Blob) : M unit :=
  modify (λ st, set_atoms (CachedDictStorage_set c b (atoms st)) st).
Definition ops_set (n : string) (o : Op) : M unit :=
  modify (λ st, set_ops (CachedDictStorage_set n o (ops st)) st).

Definition in_context : M bool := gets current_context.

(** *** refs interface *)

Fixpoint save_ref (ref : Ref) : M unit :=
  present ← gets (λ st, CachedDictStorage_exists (hid ref) (shapes st));
  if (present : bool) then mret tt
  else
    match ref with
    | AtomRef c h m o =>
        (if m then atoms_set c (serialize o) else mret tt) ;;
        shapes_set h (detached ref)
    | ListRef c h m o =>
        sh ← lift (shape ref);
        shapes_set h sh ;;
        match o with
        | None => raise (TypeError "'NoneType' object is not iterable")
        | Some elts =>
            (fix go (l : list Ref) : M unit :=
               match l with
               | [] => mret tt
               | elt :: rest => save_ref elt ;; go rest
               end) elts
        end
    | DictRef c h m o =>
        sh ← lift (shape ref);
        shapes_set h sh ;;
        match o with
        | None => raise (TypeError "'NoneType' object is not iterable")
        | Some items =>
            (fix go (l : list (string * Ref)) : M unit :=
               match l with
               | [] => mret tt
               | (k, v) :: rest => save_ref v ;; go rest
               end) items
        end
    end.

(** The recursion of [load_ref] follows the hids of the shapes table, which
    need not end; [depth] bounds it as the interpreter's recursion limit does. *)
Fixpoint load_ref (depth : nat) (h : string) (lazy : bool) : M Ref :=
  match depth with
  | O => raise RecursionError
  | S depth' =>
      sh ← shapes_get h;
      match sh with
      | AtomRef _ _ _ _ =>
          if lazy then mret (shallow_copy sh)
          else b ← atoms_get (cid sh); mret (attached_atom (deserialize b) sh)
      | ListRef _ _ _ o =>
          match o with
          | None => raise (TypeError "'NoneType' object is not iterable")
          | Some elts =>
              obj ← for_each (λ elt, load_ref depth' (hid elt) lazy) elts;
              mret (attached_list o sh)
          end
      | DictRef _ _ _ o =>
          match o with
          | None => raise (TypeError "'NoneType' object is not iterable")
          | Some items =>
              obj ← for_each (λ kv : string * Ref,
                                v ← load_ref depth' (hid kv.2) lazy; mret (kv.1, v)) items;
              mret (attached_dict (Some obj) sh)
          end
      end
  end.

Definition _drop_ref_hid (h : string) : M unit :=
  modify (λ st, set_shapes (CachedDictStorage_drop h (shapes st)) st).

Definition _drop_ref (c : string) : M unit :=
  modify (λ st, set_atoms (CachedDictStorage_drop c (atoms st)) st).


(** Modelled from the spec: [recurse_on_ref_collections(f, obj)] of model.py
    walks through lists, tuples, dicts and container refs and applies [f] to
    the atom refs it meets; anything else is returned as it is. *)
Fixpoint recurse_on_ref_collections (f : Ref → M Value) (obj : Value) : M Value :=
  match obj with
  | VRef r => recurse_on_ref f r
  | VList l =>
      l' ← (fix go (l : list Value) : M (list Value) :=
              match l with
              | [] => mret []
              | x :: rest =>
                  y ← recurse_on_ref_collections f x; ys ← go rest; mret (y :: ys)
              end) l;
      mret (VList l')
  | VTuple l =>
      l' ← (fix go (l : list Value) : M (list Value) :=
              match l with
              | [] => mret []
              | x :: rest =>
                  y ← recurse_on_ref_collections f x; ys ← go rest; mret (y :: ys)
              end) l;
      mret (VTuple l')
  | VDict d =>
      d' ← (fix go (l : list (string * Value)) : M (list (string * Value)) :=
              match l with
              | [] => mret []
              | (k, x) :: rest =>
                  y ← recurse_on_ref_collections f x; ys ← go rest; mret ((k, y) :: ys)
              end) d;
      mret (VDict d')
  | _ => mret obj
  end
with recurse_on_ref (f : Ref → M Value) (r : Ref) : M Value :=
  match r with
  | AtomRef _ _ _ _ => f r
  | ListRef _ _ _ None => raise (TypeError "'NoneType' object is not iterable")
  | ListRef _ _ _ (Some elts) =>
      l' ← (fix go (l : list Ref) : M (list Value) :=
              match l with
              | [] => mret []
              | x :: rest => y ← recurse_on_ref f x; ys ← go rest; mret (y :: ys)
              end) elts;
      mret (VList l')
  | DictRef _ _ _ None => raise (TypeError "'NoneType' object is not iterable")
  | DictRef _ _ _ (Some items) =>
      d' ← (fix go (l : list (string * Ref)) : M (list (string * Value)) :=
              match l with
              | [] => mret []
              | (k, x) :: rest => y ← recurse_on_ref f x; ys ← go rest; mret ((k, y) :: ys)
              end) items;
      mret (VDict d')
  end.

(** [ref.obj] as a Python value. *)
Definition ref_obj (r : Ref) : Value :=
  match r with
  | AtomRef _ _ _ o => o
  | ListRef _ _ _ (Some elts) => VList (VRef <$> elts)
  | DictRef _ _ _ (Some items) => VDict (prod_map id VRef <$> items)
  | _ => VNone
  end.

Definition _unwrap_atom (depth : nat) (obj : Ref) : M Value :=
  match obj with
  | AtomRef _ h m o =>
      if negb m then ref ← load_ref depth h false; mret (ref_obj ref)
      else mret o
  | _ => raise AssertionError
  end.

Definition unwrap (depth : nat) (obj : Value) : M Value :=
  recurse_on_ref_collections (_unwrap_atom depth) obj.

(** *** calls interface *)

Definition exists_call (h : string) : M bool :=
  gets (λ st, CallStorage.CachedCallStorage_exists h (calls st)).

Definition save_call (call : Call) : M unit :=
  present ← exists_call (call_hid call);
  if (present : bool) then mret tt
  else
    known ← gets (λ st, CachedDictStorage_exists (name (call_op call)) (ops st));
    (if (known : bool) then mret tt
     else ops_set (name (call_op call)) (Op_detached (call_op call))) ;;
    for_each save_ref ((inputs call).*2 ++ (outputs call).*2) ;;
    modify (λ st, set_calls (CallStorage.CachedCallStorage_save call (calls st)) st).

Definition load_items (depth : nat) (lazy : bool) (d : pydict string) : M (pydict Ref) :=
  for_each (λ kv : string * string, r ← load_ref depth kv.2 lazy; mret (kv.1, r)) d.

Definition _get_call_from_data (depth : nat) (call_data : CallStorage.CallData)
    (lazy : bool) : M Call :=
  o ← ops_get (CallStorage.d_op_name call_data);
  ins ← load_items depth lazy (CallStorage.input_hids call_data);
  outs ← load_items depth lazy (CallStorage.output_hids call_data);
  mret {| call_op := o;
          call_cid := CallStorage.d_cid call_data;
          call_hid := CallStorage.d_hid call_data;
          inputs := ins; outputs := outs;
          semantic_version := None; content_version := None |}.

(** The local function [merge_lists] of [mget_call]. *)
Fixpoint merge_lists {A} (list_true list_false : list A) (mask : list bool)
    : result (list A) :=
  match mask with
  | [] => Ok []
  | true :: mask' =>
      match list_true with
      | [] => Raise IndexError
      | x :: rest =>
          match merge_lists rest list_false mask' with
          | Raise e => Raise e
          | Ok l => Ok (x :: l)
          end
      end
  | false :: mask' =>
      match list_false with
      | [] => Raise IndexError
      | x :: rest =>
          match merge_lists list_true rest mask' with
          | Raise e => Raise e
          | Ok l => Ok (x :: l)
          end
      end
  end.

Definition mget_call (depth : nat) (hids : list string) (lazy : bool) : M (list Call) :=
  cc ← gets call_cache;
  let cache_part := filter (λ h, CallStorage.InMemCallStorage_exists h cc = true) hids in
  let db_part := filter (λ h, ¬ CallStorage.InMemCallStorage_exists h cc = true) hids in
  let mask := (λ h, CallStorage.InMemCallStorage_exists h cc) <$> hids in
  cache_datas ← lift (CallStorage.InMemCallStorage_mget_data cache_part cc);
  p ← gets call_storage;
  db_datas ← lift (CallStorage.SQLiteCallStorage_mget_data db_part None p);
  call_datas ← lift (merge_lists cache_datas db_datas mask);
  for_each (λ d, _get_call_from_data depth d lazy) call_datas.

Definition get_call (depth : nat) (h : string) (lazy : bool) : M Call :=
  cs ← mget_call depth [h] lazy;
  match cs with
  | c :: _ => mret c
  | [] => raise IndexError
  end.

(** The two loops of [drop_calls]. *)
Definition drop_from_cache (h : string) : M nat := λ st,
  if CallStorage.InMemCallStorage_exists h (call_cache st) then
    match CallStorage.InMemCallStorage_drop h (call_cache st) with
    | (Ok _, c) => (Ok 1, set_call_cache c st)
    | (Raise e, c) => (Raise e, set_call_cache c st)
    end
  else (Ok 0, st).

Definition drop_from_storage (h : string) : M nat := λ st,
  if CallStorage.SQLiteCallStorage_exists h None (call_storage st) then
    (Ok 1, set_call_storage (CallStorage.SQLiteCallStorage_drop h None (call_storage st)) st)
  else (Ok 0, st).

(** [drop_calls] is given calls or hids; it returns nothing, and logs the two
    counts, which are the result here. *)
Definition drop_calls (calls_or_hids : list Call + list string)
    (delete_dependents : bool) : M (nat * nat) :=
  let hids : gset string :=
    match calls_or_hids with
    | inl cs => list_to_set (call_hid <$> cs)
    | inr hs => list_to_set hs
    end in
  hids ← (if delete_dependents then
            p ← gets call_storage;
            '(_, dependent_call_hids) ←
              lift (CallStorage.SQLiteCallStorage_get_dependents ∅ hids p);
            mret (hids ∪ dependent_call_hids)
          else mret hids);
  dropped_cache ← for_each drop_from_cache (elements hids);
  dropped_persistent ← for_each drop_from_storage (elements hids);
  mret (sum_list dropped_persistent, sum_list dropped_cache).

(** *** provenance queries *)

Definition not_in_context : exn :=
  NotImplementedError "Method not supported while in a context.".

Definition get_creators (depth : nat) (ref_hids : gset string) : M (list Call) :=
  c ← in_context;
  if (c : bool) then raise not_in_context
  else
    p ← gets call_storage;
    mget_call depth (elements (CallStorage.SQLiteCallStorage_get_creator_hids ref_hids p)) true.

Definition get_consumers (depth : nat) (ref_hids : gset string) : M (list Call) :=
  c ← in_context;
  if (c : bool) then raise not_in_context
  else
    p ← gets call_storage;
    mget_call depth (elements (CallStorage.SQLiteCallStorage_get_consumer_hids ref_hids p)) true.

Definition get_orphans : M (gset string) :=
  c ← in_context;
  if (c : bool) then raise not_in_context
  else
    st ← gets id;
    let all_hids : gset string :=
      list_to_set (SQLiteDictStorage_keys (persistent (shapes st))) in
    let hids_in_calls : gset string :=
      list_to_set (CallStorage.ref_history_id <$>
                     CallStorage.SQLiteCallStorage_get_df (call_storage st)) in
    mret (all_hids ∖ hids_in_calls).

Definition get_unreferenced_cids : M (gset string) :=
  c ← in_context;
  if (c : bool) then raise not_in_context
  else
    st ← gets id;
    let all_cids : gset string :=
      list_to_set (SQLiteDictStorage_keys (persistent (atoms st))) in
    let cids_in_calls : gset string :=
      list_to_set (CallStorage.ref_content_id <$>
                     CallStorage.SQLiteCallStorage_get_df (call_storage st)) in
    let cids_in_shapes : gset string :=
      list_to_set (cid <$> SQLiteDictStorage_values (persistent (shapes st))) in
    mret ((all_cids ∖ cids_in_calls) ∖ cids_in_shapes).

Definition cleanup_refs : M unit :=
  orphans ← get_orphans;
  for_each _drop_ref_hid (elements orphans) ;;
  unreferenced_cids ← get_unreferenced_cids;
  for_each _drop_ref (elements unreferenced_cids) ;;
  mret tt.


(** *** the call engine *)

(** Modelled from the spec: [wrap_atom(val, history_id)] of model.py; without a
    history id the atom gets a fresh one. *)
Definition draw_hid (st : Storage) : Storage :=
  {| calls := calls st; atoms := atoms st; shapes := shapes st; ops := ops st;
     _versioned := _versioned st; cached_versioner := cached_versioner st;
     current_context := current_context st;
     hids_drawn := S (hids_drawn st); exec_log := exec_log st |}.

Definition wrap_atom (val : Value) (history_id : option string) : M Ref :=
  match history_id with
  | Some h => mret (wrap_atom_at get_content_hash val h)
  | None => λ st,
      (Ok (wrap_atom_at get_content_hash val
             (new_hid (hids_drawn st) (atom_cid get_content_hash val))),
       draw_hid st)
  end.

Definition get_struct_builder (tp : PyType) : result Op :=
  match tp with
  | ListType _ => Ok (__make_list__ get_content_hash)
  | DictType _ _ => Ok (__make_dict__ get_content_hash)
  | AtomType => Raise (NotImplementedError "")
  end.

(** What [enumerate(val)] runs over. *)
Definition iterate (val : Value) : result (list Value) :=
  match val with
  | VList l | VTuple l => Ok l
  | VDict d => Ok (VStr <$> d.*1)
  | VStr s => Ok ((λ a, VStr (String a EmptyString)) <$> String.list_ascii_of_string s)
  | VRef (ListRef _ _ _ (Some elts)) => Ok (VRef <$> elts)
  | _ => Raise (TypeError "object is not iterable")
  end.

Definition enumerate {A} (l : list A) : list (nat * A) := zip (seq 0 (length l)) l.

Definition elts_name (i : nat) : string := "elts_" +:+ pretty i.

Definition get_struct_inputs (tp : PyType) (val : Value) : result (pydict Value) :=
  match tp with
  | ListType _ =>
      match iterate val with
      | Raise e => Raise e
      | Ok l => Ok ((λ ie : nat * Value, (elts_name ie.1, ie.2)) <$> enumerate l)
      end
  | DictType _ _ =>
      match val with
      | VDict d => Ok d
      | _ => Raise (AttributeError "object has no attribute 'keys'")
      end
  | AtomType => Raise (NotImplementedError "")
  end.

Definition get_struct_tps (tp : PyType) (struct_inputs : pydict Value)
    : result (pydict PyType) :=
  match tp with
  | ListType elt => Ok ((λ i, (elts_name i, elt)) <$> seq 0 (length struct_inputs))
  | DictType _ val => Ok ((λ kv : string * Value, (kv.1, val)) <$> struct_inputs)
  | AtomType => Raise (NotImplementedError "")
  end.

(** The type of [call_internal], for the methods that call it back. *)
Definition call_internal_t : Type :=
  Op → pydict Value → pydict PyType → option (pydict Value) →
  M (pydict Ref * Call * list Call).

Definition construct_with (call_internal : call_internal_t)
    (tp : PyType) (val : Value) : M (Ref * list Call) :=
  match val with
  | VRef r => mret (r, [])
  | _ =>
      match tp with
      | AtomType => r ← wrap_atom val None; mret (r, [])
      | _ =>
          struct_builder ← lift (get_struct_builder tp);
          struct_inputs ← lift (get_struct_inputs tp val);
          struct_tps ← lift (get_struct_tps tp struct_inputs);
          '(res, main_call, calls) ←
            call_internal struct_builder struct_inputs struct_tps None;
          match outputs main_call with
          | [] => raise IndexError
          | (_, output_ref) :: _ => mret (output_ref, calls ++ [main_call])
          end
      end
  end.

Definition dict_item {V} (k : string) (d : pydict V) : M V :=
  match dict_get k d with
  | Some v => mret v
  | None => raise (KeyError k)
  end.

Fixpoint destruct_with (call_internal : call_internal_t)
    (tp : PyType) (ref : Ref) : M (Ref * list Call) :=
  match ref with
  | AtomRef _ _ _ _ => mret (ref, [])
  | ListRef c h _ o =>
      match tp with
      | ListType elt_tp =>
          match o with
          | None => raise (TypeError "'NoneType' object is not iterable")
          | Some elts =>
              res ← for_each (λ ie : nat * Ref,
                  '(getitem_dict, item_call, _) ←
                    call_internal __get_list_item__
                      [("obj", VRef ref); ("attr", VInt (Z.of_nat ie.1))]
                      [("obj", tp); ("attr", AtomType)] None;
                  new_elt ← dict_item "output_0" getitem_dict;
                  '(new_elt, elt_subcalls) ← destruct_with call_internal elt_tp new_elt;
                  mret (new_elt, item_call :: elt_subcalls)) (enumerate elts);
              mret (ListRef c h true (Some res.*1), concat res.*2)
          end
      | _ => raise AssertionError
      end
  | DictRef c h _ o =>
      match tp with
      | DictType key_tp val_tp =>
          match o with
          | None => raise (TypeError "'NoneType' object is not iterable")
          | Some items =>
              res ← for_each (λ kv : string * Ref,
                  '(getvalue_dict, value_call, _) ←
                    call_internal __get_dict_value__
                      [("obj", VRef ref); ("key", VStr kv.1)]
                      [("obj", tp); ("key", key_tp)] None;
                  new_v ← dict_item "output_0" getvalue_dict;
                  '(new_v, v_subcalls) ← destruct_with call_internal val_tp new_v;
                  mret ((kv.1, new_v), value_call :: v_subcalls)) items;
              mret (DictRef c h true (Some res.*1), concat res.*2)
          end
      | _ => raise AssertionError
      end
  end.

(** The semantic version [lookup_call] resolves: [None] for the whole lookup
    when the versioner does not know the call. *)
Definition resolve_semantic_version (op : Op) (pre_call_uid : string)
    : M (option (option string)) :=
  st ← gets id;
  if negb (_versioned st) then mret (Some None)
  else
    match versioner_lookup_call (exec_log st) op pre_call_uid with
    | None => mret None
    | Some (_, semantic_version) => mret (Some (Some semantic_version))
    end.

(** [lookup_call].  Once the version is resolved the method asks the call
    cache [exists(hid=call_hid)]; the content lookup that follows a miss starts
    with [self.call_cache.exists_content], which [InMemCallStorage] does not
    have. *)
Definition lookup_call (depth : nat) (op : Op) (inputs : pydict Ref)
    (pre_call_uid : string) : M (option Call) :=
  resolved ← resolve_semantic_version op pre_call_uid;
  match resolved with
  | None => mret None
  | Some semantic_version =>
      (* first, look up by history ID *)
      let call_hid := get_call_history_id get_content_hash op inputs semantic_version in
      cc ← gets call_cache;
      found ← lift (CallStorage.InMemCallStorage_exists_keyword "hid" call_hid cc);
      if (found : bool) then
        call_data ← lift (CallStorage.InMemCallStorage_get_data call_hid cc);
        c ← _get_call_from_data depth call_data true;
        mret (Some c)
      else
        (* if this fails, look up by content ID *)
        raise (CallStorage.InMemCallStorage_no_attribute "exists_content")
  end.

Definition log_call (op : Op) (arguments : pydict Value) (st : Storage) : Storage :=
  {| calls := calls st; atoms := atoms st; shapes := shapes st; ops := ops st;
     _versioned := _versioned st; cached_versioner := cached_versioner st;
     current_context := current_context st;
     hids_drawn := hids_drawn st;
     exec_log := exec_log st ++ [(name op, arguments)] |}.

(** [f(...)]: the call of the op's function, logged. *)
Definition invoke (op : Op) (arguments raw_values : pydict Value)
    : M (Value * pydict Value) :=
  match op_f op with
  | None => raise (TypeError "'NoneType' object is not callable")
  | Some fn => λ st, (fn arguments raw_values, log_call op arguments st)
  end.

(** The raw values after the call: each one as the function left it. *)
Definition raw_values_after (raw_values updates : pydict Value) : pydict Value :=
  (λ kv : string * Value, (kv.1, default kv.2 (dict_get kv.1 updates))) <$> raw_values.

Definition changed_inputs (cids_before cids_after : pydict string) : M (list string) :=
  ks ← for_each (λ kv : string * string,
          after ← dict_item kv.1 cids_after;
          mret (if decide (kv.2 ≠ after) then [kv.1] else [])) cids_before;
  mret (concat ks).

Definition side_effects_error (op : Op) : exn :=
  ValueError ("Function " +:+ name op +:+ " has side effects on inputs; aborting call.").

Definition wrap_inputs (construct : PyType → Value → M (Ref * list Call))
    (storage_inputs : pydict Value) (storage_tps : pydict PyType)
    : M (pydict Ref * list Call) :=
  res ← for_each (λ kv : string * Value,
          tp ← dict_item kv.1 storage_tps;
          '(r, struct_calls) ← construct tp kv.2;
          mret ((kv.1, r), struct_calls)) storage_inputs;
  mret (res.*1, concat res.*2).

(** [{k: self.unwrap(v) for k, v in d.items()}] *)
Definition unwrap_items (depth : nat) (d : pydict Value) : M (pydict Value) :=
  for_each (λ kv : string * Value, v ← unwrap depth kv.2; mret (kv.1, v)) d.

(** [{k: self.construct(tp=storage_tps[k], val=v)[0].cid for k, v in raw_values.items()}] *)
Definition cids_of_raw (construct : PyType → Value → M (Ref * list Call))
    (storage_tps : pydict PyType) (raw_values : pydict Value) : M (pydict string) :=
  for_each (λ kv : string * Value,
              tp ← dict_item kv.1 storage_tps;
              '(r, _) ← construct tp kv.2;
              mret (kv.1, cid r)) raw_values.

(** The part of [call_internal] under "execute the call if it doesn't exist",
    up to the side-effect guard: it yields the raw return value. *)
Definition execute (depth : nat) (construct : PyType → Value → M (Ref * list Call))
    (op : Op) (wrapped_inputs : pydict Ref) (storage_tps : pydict PyType)
    (bound_arguments : option (pydict Value)) : M Value :=
  if __structural__ op then
    '(returns, _) ← invoke op (prod_map id VRef <$> wrapped_inputs) [];
    mret returns
  else
    (* guard against side effects *)
    let cids_before := prod_map id cid <$> wrapped_inputs in
    raw_values ← unwrap_items depth (prod_map id VRef <$> wrapped_inputs);
    (* call the function *)
    ba ← match bound_arguments with
         | Some ba => mret ba
         | None => raise (AttributeError "'NoneType' object has no attribute 'args'")
         end;
    arguments ← unwrap_items depth ba;
    '(returns, updates) ← invoke op arguments raw_values;
    (if negb (__allow_side_effects__ op) then
       cids_after ← cids_of_raw construct storage_tps
                      (raw_values_after raw_values updates);
       changed ← changed_inputs cids_before cids_after;
       if decide (0 < length changed) then raise (side_effects_error op) else mret tt
     else mret tt) ;;
    mret returns.

(** [self.cached_versioner.get_version_ids(...) if self.versioned else (None, None)] *)
Definition get_version_ids (op : Op) (pre_call_id : string) (st : Storage)
    : option string * option string :=
  if _versioned st then
    let '(c, s) := versioner_get_version_ids (exec_log st) op pre_call_id in
    (Some c, Some s)
  else (None, None).

(** The rest of [call_internal]: versions, the outputs and the [Call]. *)
Definition wrap_outputs (construct : PyType → Value → M (Ref * list Call))
    (destruct : PyType → Ref → M (Ref * list Call))
    (op : Op) (wrapped_inputs : pydict Ref) (input_calls : list Call)
    (pre_call_id : string) (returns : Value) : M (pydict Ref * Call * list Call) :=
  '(content_version, semantic_version) ← gets (get_version_ids op pre_call_id);
  '(outputs_dict, output_tps) ← lift (parse_returns op returns);
  let call_content_id :=
    get_call_content_id get_content_hash op wrapped_inputs semantic_version in
  let call_hid :=
    get_call_history_id get_content_hash op wrapped_inputs semantic_version in
  let output_history_ids :=
    get_output_history_ids get_content_hash call_hid outputs_dict.*1 in
  res ← for_each (λ kv : string * Value,
          match kv.2 with
          | VRef v =>
              h ← dict_item kv.1 output_history_ids;
              mret ((kv.1, with_hid h v), [])
          | _ =>
              tp ← dict_item kv.1 output_tps;
              match tp with
              | AtomType =>
                  h ← dict_item kv.1 output_history_ids;
                  r ← wrap_atom kv.2 (Some h);
                  mret ((kv.1, r), [])
              | _ =>
                  '(start, _) ← construct tp kv.2;
                  h ← dict_item kv.1 output_history_ids;
                  '(final, output_calls_for_output) ← destruct tp (with_hid h start);
                  mret ((kv.1, final), output_calls_for_output)
              end
          end) outputs_dict;
  let main_call :=
    {| call_op := op; call_cid := call_content_id; call_hid := call_hid;
       inputs := wrapped_inputs; outputs := res.*1;
       semantic_version := semantic_version;
       content_version := content_version |} in
  mret (outputs main_call, main_call, input_calls ++ concat res.*2).

(** [self.cached_versioner.TracerCls.get_active_trace_obj()], which a versioned
    storage evaluates before the lookup: outside a context there is no cached
    versioner to ask. *)
Definition suspend_trace : M unit :=
  st ← gets id;
  if _versioned st && negb (cached_versioner st)
  then raise (AttributeError "'NoneType' object has no attribute 'TracerCls'")
  else mret tt.

(** [call_internal]; [depth] is the recursion depth left, since the method
    calls itself through [construct] and [destruct]. *)
Fixpoint call_internal (depth : nat) (op : Op) (storage_inputs : pydict Value)
    (storage_tps : pydict PyType) (bound_arguments : option (pydict Value))
    : M (pydict Ref * Call * list Call) :=
  match depth with
  | O => raise RecursionError
  | S depth' =>
      let construct := construct_with (call_internal depth') in
      let destruct := destruct_with (call_internal depth') in
      (* wrap the inputs *)
      '(wrapped_inputs, input_calls) ← wrap_inputs construct storage_inputs storage_tps;
      suspend_trace ;;
      (* check for the call *)
      let pre_call_id := get_pre_call_id get_content_hash op wrapped_inputs in
      call_option ← lookup_call depth' op wrapped_inputs pre_call_id;
      match call_option with
      | Some main_call => mret (outputs main_call, main_call, input_calls)
      | None =>
          (* execute the call if it doesn't exist *)
          returns ← execute depth' construct op wrapped_inputs storage_tps bound_arguments;
          (* wrap the outputs *)
          wrap_outputs construct destruct op wrapped_inputs input_calls pre_call_id returns
      end
  end.

Definition construct (depth : nat) : PyType → Value → M (Ref * list Call) :=
  construct_with (call_internal depth).

Definition destruct (depth : nat) (ref : Ref) (tp : PyType) : M (Ref * list Call) :=
  destruct_with (call_internal depth) tp ref.


(** *** user-facing functions *)

Definition unwrap_ignore (arg : Value) : Value :=
  match arg with VIgnore v => v | _ => arg end.

Definition is_ignore (arg : Value) : bool :=
  match arg with VIgnore _ => true | _ => false end.

Definition find_kind (k : ParamKind) (sig : list Param) : option Param :=
  head (filter (λ p, kind p = k) sig).

Definition find_param (n : string) (sig : list Param) : option Param :=
  head (filter (λ p, param_name p = n) sig).

(** The state of the loop of [parse_args]: the bound arguments, the storage
    inputs and the storage annotations. *)
Definition parsed : Type := pydict Value * pydict Value * pydict PyType.

Definition add_storage_inputs (names : list string) (vals : list Value)
    (tp : PyType) (acc : parsed) : parsed :=
  foldl (λ (a : parsed) (nv : string * Value),
           let '(b, si, sa) := a in
           if is_ignore nv.2 then a
           else (b, dict_set nv.1 (unwrap_ignore nv.2) si, dict_set nv.1 tp sa))
        acc (zip names vals).

(** The body of the loop of [parse_args] for the bound argument [k = v]. *)
Definition parse_arg (depth : nat) (sig : list Param) (acc : parsed)
    (kv : string * Value) : M parsed :=
  let '(k, v) := kv in
  let '(b, si, sa) := acc in
  let var_positional := find_kind VAR_POSITIONAL sig in
  let var_keyword := find_kind VAR_KEYWORD sig in
  let regular (tp : PyType) : M parsed :=
    mret (b, dict_set k v si, dict_set k tp sa) in
  match find_param k sig with
  | None => raise (KeyError k)
  | Some p =>
      if bool_decide (param_name <$> var_positional = Some k) then
        args ← lift (iterate v);
        let names := (λ i : nat, k +:+ "_" +:+ pretty i) <$> seq 0 (length args) in
        mret (add_storage_inputs names args (annotation p)
                (dict_set k (VTuple (unwrap_ignore <$> args)) b, si, sa))
      else if bool_decide (param_name <$> var_keyword = Some k) then
        match v with
        | VDict d =>
            mret (add_storage_inputs d.*1 d.*2 (annotation p)
                    (dict_set k (VDict (prod_map id unwrap_ignore <$> d)) b, si, sa))
        | _ => raise (AttributeError "object has no attribute 'items'")
        end
      else
        match v with
        | VIgnore x => mret (dict_set k x b, si, sa)
        | _ =>
            match param_default p with
            | Some (NewArgDefault d) =>
                same ← match v with
                       | VRef _ => u ← unwrap depth v; mret (Value_eqb u d)
                       | _ => mret false
                       end;
                if (same : bool) || Value_eqb v d then mret (dict_set k d b, si, sa)
                else regular (annotation p)
            | _ => regular (annotation p)
            end
        end
  end.

Fixpoint parse_args_loop (depth : nat) (sig : list Param) (acc : parsed)
    (items : pydict Value) : M parsed :=
  match items with
  | [] => mret acc
  | kv :: rest => acc' ← parse_arg depth sig acc kv; parse_args_loop depth sig acc' rest
  end.

(** [parse_args]; [bound] is what [sig.bind] of the standard library gives for
    the positional and keyword arguments, with the defaults applied. *)
Definition parse_args (depth : nat) (sig : list Param) (bound : pydict Value)
    : M parsed :=
  parse_args_loop depth sig (bound, [], []) bound.

(** [Storage.call]: [save_calls] is [__config__.get("save_calls", False)]. *)
Definition call (depth : nat) (__op__ : Op) (bound : pydict Value)
    (save_calls : bool) : M Value :=
  '(bound_arguments, storage_inputs, storage_annotations) ←
    parse_args depth (parameters __op__) bound;
  let storage_tps := storage_annotations in
  '(res, main_call, calls) ←
    call_internal depth __op__ storage_inputs storage_tps (Some bound_arguments);
  (if save_calls then
     save_call main_call ;; for_each save_call calls ;; mret tt
   else mret tt) ;;
  ord_outputs ← lift (get_ordered_outputs __op__ (outputs main_call));
  match ord_outputs with
  | [r] => mret (VRef r)
  | _ => mret (VTuple (VRef <$> ord_outputs))
  end.

Definition commit : M unit := λ st,
  let conn := Some db_conn in
  match CachedDictStorage_commit conn (atoms st) with
  | (Raise e, a) => (Raise e, set_atoms a st)
  | (Ok _, a) =>
      let st := set_atoms a st in
      match CachedDictStorage_commit conn (shapes st) with
      | (Raise e, s) => (Raise e, set_shapes s st)
      | (Ok _, s) =>
          let st := set_shapes s st in
          match CachedDictStorage_commit conn (ops st) with
          | (Raise e, o) => (Raise e, set_ops o st)
          | (Ok _, o) =>
              let st := set_ops o st in
              match CallStorage.CachedCallStorage_commit conn (calls st) with
              | (r, c) => (r, set_calls c st)
              end
          end
      end
  end.

(** [__enter__]: a versioned storage syncs the code, which is the versioner's
    work, and caches the versioner. *)
Definition __enter__ : M unit :=
  modify (set_current_context true) ;;
  st ← gets id;
  if _versioned st then modify (set_cached_versioner true) else mret tt.

(** [__exit__]: the commit, and whether or not it raised ([finally]) the cached
    versioner is dropped. *)
Definition __exit__ : M unit := λ st,
  let '(r, st') := commit (set_current_context false st) in
  (r, set_cached_versioner false st').


(** *** Which exceptions a method can raise *)

Definition never {A} (e : exn) (m : M A) : Prop := ∀ st, (m st).1 ≠ Raise e.

Lemma never_ret {A} e (a : A) : never e (mret a).
Proof. intros st. done. Qed.

Lemma never_bind {A B} e (m : M A) (k : A → M B) :
  never e m → (∀ a, never e (k a)) → never e (m ≫= k).
Proof.
  intros Hm Hk st. unfold mbind, M_bind. specialize (Hm st).
  destruct (m st) as [[a|e'] st']; simpl in *; [apply Hk|congruence].
Qed.

Lemma never_raise {A} e e' : e' ≠ e → never e (raise (A:=A) e').
Proof. intros Hne st. simpl. congruence. Qed.

Lemma never_lift {A} e (r : result A) : r ≠ Raise e → never e (lift r).
Proof. intros Hne st. done. Qed.

Lemma never_gets {A} e (g : Storage → A) : never e (gets g).
Proof. intros st. done. Qed.

Lemma never_for_each {A B} e (body : A → M B) l :
  (∀ x, never e (body x)) → never e (for_each body l).
Proof.
  intros Hb. induction l as [|x l IH]; simpl; [apply never_ret|].
  apply never_bind; [apply Hb|]. intros y.
  apply never_bind; [apply IH|]. intros ys. apply never_ret.
Qed.

Lemma CachedDictStorage_get_raises {V} `{!Codec Blob V} k (s : @CachedDictStorage V Blob) e :
  (CachedDictStorage_get k s).1 = Raise e → e = KeyError k.
Proof.
  unfold CachedDictStorage_get, SQLiteDictStorage_get.
  destruct (cache s !! k); simpl; [done|].
  destruct (table (persistent s) !! k); simpl; congruence.
Qed.

Lemma never_shapes_get e h : (∀ k, e ≠ KeyError k) → never e (shapes_get h).
Proof.
  intros He st Hr. unfold shapes_get in Hr.
  destruct (CachedDictStorage_get h (shapes st)) as [r s] eqn:Hg. simpl in Hr. subst r.
  eapply He. apply (CachedDictStorage_get_raises h (shapes st)). by rewrite Hg.
Qed.

Lemma never_atoms_get e h : (∀ k, e ≠ KeyError k) → never e (atoms_get h).
Proof.
  intros He st Hr. unfold atoms_get in Hr.
  destruct (CachedDictStorage_get h (atoms st)) as [r s] eqn:Hg. simpl in Hr. subst r.
  eapply He. apply (CachedDictStorage_get_raises h (atoms st)). by rewrite Hg.
Qed.

Lemma never_ops_get e h : (∀ k, e ≠ KeyError k) → never e (ops_get h).
Proof.
  intros He st Hr. unfold ops_get in Hr.
  destruct (CachedDictStorage_get h (ops st)) as [r s] eqn:Hg. simpl in Hr. subst r.
  eapply He. apply (CachedDictStorage_get_raises h (ops st)). by rewrite Hg.
Qed.

Lemma never_load_ref msg depth h lazy : never (NotImplementedError msg) (load_ref depth h lazy).
Proof.
  revert h. induction depth as [|depth IH]; intros h; simpl.
  - by apply never_raise.
  - apply never_bind; [by apply never_shapes_get|]. intros [c' h' m o|c' h' m o|c' h' m o].
    + destruct lazy; [apply never_ret|].
      apply never_bind; [by apply never_atoms_get|]. intros b. apply never_ret.
    + destruct o as [elts|]; [|by apply never_raise].
      apply never_bind; [|intros; apply never_ret].
      apply never_for_each. intros elt. apply IH.
    + destruct o as [items|]; [|by apply never_raise].
      apply never_bind; [|intros; apply never_ret].
      apply never_for_each. intros kv.
      apply never_bind; [apply IH|intros; apply never_ret].
Qed.

Lemma never_get_call_from_data msg depth d lazy :
  never (NotImplementedError msg) (_get_call_from_data depth d lazy).
Proof.
  unfold _get_call_from_data, load_items.
  apply never_bind; [by apply never_ops_get|]. intros o.
  apply never_bind.
  { apply never_for_each. intros kv.
    apply never_bind; [apply never_load_ref|intros; apply never_ret]. }
  intros ins. apply never_bind; [|intros; apply never_ret].
  apply never_for_each. intros kv.
  apply never_bind; [apply never_load_ref|intros; apply never_ret].
Qed.

Lemma mget_rows_raises hs d e :
  CallStorage.mget_rows hs d = Raise e → ∃ k, e = KeyError k.
Proof.
  induction hs as [|h hs IH]; simpl; [done|].
  unfold CallStorage.data_of at 1.
  destruct (CallStorage.rows_of h d); [intros [= <-]; eauto|].
  destruct (CallStorage.mget_rows hs d); [done|]. intros [= <-]. by apply IH.
Qed.

Lemma merge_lists_raises {A} (lt lf : list A) mask e :
  merge_lists lt lf mask = Raise e → e = IndexError.
Proof.
  revert lt lf. induction mask as [|[] mask IH]; intros lt lf; simpl; [done| |].
  - destruct lt as [|x lt]; [congruence|].
    destruct (merge_lists lt lf mask) eqn:Hm; [done|]. intros [= <-]. by eapply IH.
  - destruct lf as [|x lf]; [congruence|].
    destruct (merge_lists lt lf mask) eqn:Hm; [done|]. intros [= <-]. by eapply IH.
Qed.

Lemma never_mget_call msg depth hids lazy :
  never (NotImplementedError msg) (mget_call depth hids lazy).
Proof.
  unfold mget_call.
  apply never_bind; [apply never_gets|]. intros cc.
  apply never_bind.
  { apply never_lift. intros Hr. apply mget_rows_raises in Hr as [k Hk]. done. }
  intros cache_datas. apply never_bind; [apply never_gets|]. intros p.
  apply never_bind.
  { apply never_lift. intros Hr. apply mget_rows_raises in Hr as [k Hk]. done. }
  intros db_datas. apply never_bind.
  { apply never_lift. intros Hr. apply merge_lists_raises in Hr. done. }
  intros call_datas. apply never_for_each. intros d. apply never_get_call_from_data.
Qed.

(** C8. Each provenance query of the storage ([get_creators],
    [get_consumers], [get_orphans], [get_unreferenced_cids]) raises the
    "not supported while in a context" error (a [NotImplementedError] in the
    code) exactly when a storage context is open, and then leaves the storage
    as it is; with no context open it runs the query itself: the calls fetched
    for the creator or consumer hids, the set of orphan hids, the set of
    unreferenced cids. *)
Theorem provenance_queries_need_no_context (depth : nat) (ref_hids : gset string)
    (st : Storage) :
  let creators :=
    mget_call depth
      (elements (CallStorage.SQLiteCallStorage_get_creator_hids ref_hids (call_storage st)))
      true st in
  let consumers :=
    mget_call depth
      (elements (CallStorage.SQLiteCallStorage_get_consumer_hids ref_hids (call_storage st)))
      true st in
  let orphans : gset string :=
    list_to_set (SQLiteDictStorage_keys (persistent (shapes st))) ∖
    list_to_set (CallStorage.ref_history_id <$> CallStorage.rows (call_storage st)) in
  let unreferenced : gset string :=
    (list_to_set (SQLiteDictStorage_keys (persistent (atoms st))) ∖
     list_to_set (CallStorage.ref_content_id <$> CallStorage.rows (call_storage st))) ∖
    list_to_set (cid <$> SQLiteDictStorage_values (persistent (shapes st))) in
  get_creators depth ref_hids st =
    (if current_context st then (Raise not_in_context, st) else creators) ∧
  get_consumers depth ref_hids st =
    (if current_context st then (Raise not_in_context, st) else consumers) ∧
  get_orphans st =
    (if current_context st then (Raise not_in_context, st) else (Ok orphans, st)) ∧
  get_unreferenced_cids st =
    (if current_context st then (Raise not_in_context, st) else (Ok unreferenced, st)) ∧
  ((get_creators depth ref_hids st).1 = Raise not_in_context ↔ current_context st = true) ∧
  ((get_consumers depth ref_hids st).1 = Raise not_in_context ↔ current_context st = true) ∧
  ((get_orphans st).1 = Raise not_in_context ↔ current_context st = true) ∧
  ((get_unreferenced_cids st).1 = Raise not_in_context ↔ current_context st = true).
Proof.
  intros creators consumers orphans unreferenced.
  assert (Hc : get_creators depth ref_hids st =
    (if current_context st then (Raise not_in_context, st) else creators)).
  { unfold get_creators, in_context, gets, mbind, M_bind. by destruct (current_context st). }
  assert (Hs : get_consumers depth ref_hids st =
    (if current_context st then (Raise not_in_context, st) else consumers)).
  { unfold get_consumers, in_context, gets, mbind, M_bind. by destruct (current_context st). }
  assert (Ho : get_orphans st =
    (if current_context st then (Raise not_in_context, st) else (Ok orphans, st))).
  { unfold get_orphans, in_context, gets, mbind, M_bind. by destruct (current_context st). }
  assert (Hu : get_unreferenced_cids st =
    (if current_context st then (Raise not_in_context, st) else (Ok unreferenced, st))).
  { unfold get_unreferenced_cids, in_context, gets, mbind, M_bind.
    by destruct (current_context st). }
  rewrite Hc, Hs, Ho, Hu. repeat split; try done.
  all: destruct (current_context st) eqn:Hctx; simpl; try done.
  - intros Hr. by apply never_mget_call in Hr.
  - intros Hr. by apply never_mget_call in Hr.
Qed.


(** *** Dropping calls *)

(** Every call the cache knows has a row: a call is saved with its input and
    output rows, and [drop] removes the rows together with the hid. *)
Definition cache_has_rows (c : CallStorage.InMemCallStorage) : Prop :=
  ∀ h, h ∈ CallStorage.call_hids c → h ∈ CallStorage.levels0 (CallStorage.df c).









(** *** What [call] returns *)





(** *** The side-effect guard *)

Lemma call_internal_eq depth op storage_inputs storage_tps bound_arguments :
  call_internal (S depth) op storage_inputs storage_tps bound_arguments =
  (let construct := construct_with (call_internal depth) in
   let destruct := destruct_with (call_internal depth) in
   '(wrapped_inputs, input_calls) ← wrap_inputs construct storage_inputs storage_tps;
   suspend_trace ;;
   let pre_call_id := get_pre_call_id get_content_hash op wrapped_inputs in
   call_option ← lookup_call depth op wrapped_inputs pre_call_id;
   match call_option with
   | Some main_call => mret (outputs main_call, main_call, input_calls)
   | None =>
       returns ← execute depth construct op wrapped_inputs storage_tps bound_arguments;
       wrap_outputs construct destruct op wrapped_inputs input_calls pre_call_id returns
   end).
Proof. reflexivity. Qed.

Lemma suspend_trace_ok st :
  (_versioned st = true → cached_versioner st = true) → suspend_trace st = (Ok tt, st).
Proof.
  intros Hc. unfold suspend_trace, gets, mbind, M_bind, id.
  destruct (_versioned st); [|done]. by rewrite Hc.
Qed.

Lemma suspend_trace_raises st :
  _versioned st = true → cached_versioner st = false →
  suspend_trace st
    = (Raise (AttributeError "'NoneType' object has no attribute 'TracerCls'"), st).
Proof.
  intros Hv Hc. unfold suspend_trace, gets, mbind, M_bind, id. by rewrite Hv, Hc.
Qed.

(** Some input has a content id after the call that differs from the one
    snapshotted before it. *)
Definition cid_changed (cids_before cids_after : pydict string) : Prop :=
  ∃ k c c', (k, c) ∈ cids_before ∧ dict_get k cids_after = Some c' ∧ c ≠ c'.

Lemma for_each_keys {A B} (g : string * A → M B) (l : pydict A) st l' st' :
  for_each (λ kv, v ← g kv; mret (kv.1, v)) l st = (Ok l', st') → l'.*1 = l.*1.
Proof.
  revert st l' st'. induction l as [|[k x] l IH]; intros st l' st' Hrun.
  - by apply ret_inv in Hrun as [<- _].
  - rewrite for_each_cons in Hrun.
    apply bind_inv in Hrun as (y & st1 & Hy & Hrun).
    apply bind_inv in Hy as (v & st0 & _ & Hy). apply ret_inv in Hy as [<- _].
    apply bind_inv in Hrun as (ys & st2 & Hys & Hrun). apply ret_inv in Hrun as [<- _].
    rewrite !fmap_cons. f_equal. by eapply IH.
Qed.

Lemma cids_of_raw_keys construct tps raw st l' st' :
  cids_of_raw construct tps raw st = (Ok l', st') → l'.*1 = raw.*1.
Proof.
  unfold cids_of_raw. revert st l' st'. induction raw as [|[k x] l IH]; intros st l' st' Hrun.
  - by apply ret_inv in Hrun as [<- _].
  - rewrite for_each_cons in Hrun.
    apply bind_inv in Hrun as (y & st1 & Hy & Hrun).
    apply bind_inv in Hy as (tp & st0 & _ & Hy).
    apply bind_inv in Hy as ([r cs] & st0' & _ & Hy). apply ret_inv in Hy as [<- _].
    apply bind_inv in Hrun as (ys & st2 & Hys & Hrun). apply ret_inv in Hrun as [<- _].
    rewrite !fmap_cons. f_equal. by eapply IH.
Qed.

Lemma dict_get_is_Some {V} k (d : pydict V) : k ∈ d.*1 → is_Some (dict_get k d).
Proof.
  induction d as [|[k' v] d IH]; simpl; [by intros ?%elem_of_nil|].
  intros Hk. destruct (decide (k' = k)); [by eexists|].
  apply IH. by apply elem_of_cons in Hk as [->|?].
Qed.

Lemma changed_inputs_spec (cids_before cids_after : pydict string) st :
  cids_before.*1 ⊆ cids_after.*1 →
  ∃ changed, changed_inputs cids_before cids_after st = (Ok changed, st) ∧
    (0 < length changed ↔ cid_changed cids_before cids_after).
Proof.
  intros Hsub.
  set (mark := λ kv : string * string,
         if decide (kv.2 ≠ default "" (dict_get kv.1 cids_after)) then [kv.1] else []).
  assert (Hloop : ∀ l, l.*1 ⊆ cids_after.*1 →
    for_each (λ kv : string * string,
                after ← dict_item kv.1 cids_after;
                mret (if decide (kv.2 ≠ after) then [kv.1] else [])) l st
    = (Ok (mark <$> l), st)).
  { induction l as [|[k c] l IH]; intros Hl; [done|].
    destruct (dict_get_is_Some k cids_after) as [c' Hc'].
    { apply Hl. rewrite fmap_cons. left. }
    rewrite for_each_cons.
    erewrite bind_ok; [|unfold dict_item; simpl; rewrite Hc'; reflexivity].
    erewrite bind_ok; [|apply IH; intros x Hx; apply Hl; rewrite fmap_cons; by right].
    unfold mark at 2. simpl. by rewrite Hc'. }
  exists (concat (mark <$> cids_before)). split.
  { unfold changed_inputs. erewrite bind_ok; [|by apply Hloop]. done. }
  unfold cid_changed. clear Hloop.
  induction cids_before as [|[k c] l IH].
  - simpl. split; [lia|]. intros (k & c & c' & Hin & _). by apply elem_of_nil in Hin.
  - destruct (dict_get_is_Some k cids_after) as [c' Hc'].
    { apply Hsub. rewrite fmap_cons. left. }
    destruct IH as [IH1 IH2].
    { intros x Hx. apply Hsub. rewrite fmap_cons. by right. }
    rewrite fmap_cons. simpl. rewrite length_app. unfold mark at 1. simpl. rewrite Hc'. simpl.
    split.
    + intros Hlen. destruct (decide (c ≠ c')) as [Hne|Heq].
      * exists k, c, c'. split; [left|done].
      * simpl in Hlen. destruct (IH1 Hlen) as (k0 & c0 & c0' & Hin & Hget & Hne).
        exists k0, c0, c0'. split; [by right|done].
    + intros (k0 & c0 & c0' & Hin & Hget & Hne).
      apply elem_of_cons in Hin as [[= -> ->]|Hin].
      * rewrite Hc' in Hget. injection Hget as <-. rewrite decide_True by done. simpl. lia.
      * assert (0 < length (concat (mark <$> l))); [|lia].
        apply IH2. by exists k0, c0, c0'.
Qed.

Lemma keys_prod_map {A B} (g : A → B) (l : pydict A) : (prod_map id g <$> l).*1 = l.*1.
Proof. induction l as [|[k x] l IH]; [done|]. rewrite !fmap_cons. by rewrite IH. Qed.

Lemma raw_values_after_keys raw updates : (raw_values_after raw updates).*1 = raw.*1.
Proof.
  unfold raw_values_after. induction raw as [|[k x] l IH]; [done|].
  rewrite !fmap_cons. by rewrite IH.
Qed.

Lemma invoke_ok op fn arguments raw_values st r :
  op_f op = Some fn → fn arguments raw_values = r →
  invoke op arguments raw_values st = (r, log_call op arguments st).
Proof. intros Hf Hr. unfold invoke. by rewrite Hf, Hr. Qed.

Lemma execute_guard depth construct op w tps ba st2 raw st3 arguments st4 fn returns updates :
  __structural__ op = false →
  unwrap_items depth (prod_map id VRef <$> w) st2 = (Ok raw, st3) →
  unwrap_items depth ba st3 = (Ok arguments, st4) →
  op_f op = Some fn →
  fn arguments raw = Ok (returns, updates) →
  (__allow_side_effects__ op = true →
   execute depth construct op w tps (Some ba) st2 = (Ok returns, log_call op arguments st4)) ∧
  (__allow_side_effects__ op = false →
   ∀ cids_after st6,
     cids_of_raw construct tps (raw_values_after raw updates) (log_call op arguments st4)
       = (Ok cids_after, st6) →
     (cid_changed (prod_map id cid <$> w) cids_after →
      execute depth construct op w tps (Some ba) st2 = (Raise (side_effects_error op), st6)) ∧
     (¬ cid_changed (prod_map id cid <$> w) cids_after →
      execute depth construct op w tps (Some ba) st2 = (Ok returns, st6))).
Proof.
  intros Hs Hraw Hargs Hf Hfn.
  assert (Hpre : ∀ k : Value * pydict Value → M Value,
    execute depth construct op w tps (Some ba) st2 =
    ((if negb (__allow_side_effects__ op) then
        cids_after ← cids_of_raw construct tps (raw_values_after raw updates);
        changed ← changed_inputs (prod_map id cid <$> w) cids_after;
        if decide (0 < length changed) then raise (side_effects_error op) else mret tt
      else mret tt) ;; mret returns) (log_call op arguments st4)).
  { intros _. unfold execute. rewrite Hs.
    erewrite bind_ok; [|exact Hraw].
    erewrite bind_ok; [|reflexivity].
    erewrite bind_ok; [|exact Hargs].
    erewrite bind_ok; [|by apply (invoke_ok _ fn)].
    reflexivity. }
  rewrite (Hpre (λ _, mret VNone)). clear Hpre. split.
  - intros Ha. rewrite Ha. reflexivity.
  - intros Ha cids_after st6 Hcids. rewrite Ha. simpl negb. cbv iota.
    destruct (changed_inputs_spec (prod_map id cid <$> w) cids_after st6)
      as (changed & Hch & Hiff).
    { rewrite (cids_of_raw_keys _ _ _ _ _ _ Hcids), raw_values_after_keys.
      unfold unwrap_items in Hraw. apply for_each_keys in Hraw.
      by rewrite Hraw, !keys_prod_map. }
    split; intros Hc.
    + erewrite bind_raise; [reflexivity|].
      erewrite bind_ok; [|exact Hcids].
      erewrite bind_ok; [|exact Hch].
      rewrite decide_True by (by apply Hiff). reflexivity.
    + erewrite bind_ok; [reflexivity|].
      erewrite bind_ok; [|exact Hcids].
      erewrite bind_ok; [|exact Hch].
      rewrite decide_False by (by rewrite Hiff). reflexivity.
Qed.

Lemma dict_get_output_hid H names k :
  k ∈ names →
  dict_get k (get_output_history_ids get_content_hash H names)
    = Some (output_hid get_content_hash H k).
Proof.
  unfold get_output_history_ids. induction names as [|k' names IH]; [by intros ?%elem_of_nil|].
  intros Hk. rewrite fmap_cons. simpl. destruct (decide (k' = k)) as [->|Hne]; [done|].
  apply IH. by apply elem_of_cons in Hk as [->|?].
Qed.

(** An output that [call_internal] wraps without recursion: a ref, or a value
    of atom type. *)
Definition simple_output (output_tps : pydict PyType) (kv : string * Value) : Prop :=
  (∃ r, kv.2 = VRef r) ∨ dict_get kv.1 output_tps = Some AtomType.

Definition wrap_simple_output (call_hid : string) (kv : string * Value) : string * Ref :=
  match kv.2 with
  | VRef r => (kv.1, with_hid (output_hid get_content_hash call_hid kv.1) r)
  | v => (kv.1, wrap_atom_at get_content_hash v (output_hid get_content_hash call_hid kv.1))
  end.

(** With simple outputs the last part of [call_internal] returns the [Call]:
    each output sits at the output hid derived from the call hid. *)
Lemma wrap_outputs_simple construct destruct op w ic pre returns od otps st :
  parse_returns op returns = Ok (od, otps) →
  Forall (simple_output otps) od →
  let sv := (get_version_ids op pre st).2 in
  let H := get_call_history_id get_content_hash op w sv in
  let main_call :=
    {| call_op := op;
       call_cid := get_call_content_id get_content_hash op w sv;
       call_hid := H; inputs := w;
       outputs := wrap_simple_output H <$> od;
       semantic_version := sv;
       content_version := (get_version_ids op pre st).1 |} in
  wrap_outputs construct destruct op w ic pre returns st
    = (Ok (outputs main_call, main_call, ic), st).
Proof.
  intros Hparse Hsimple sv H main_call. unfold wrap_outputs.
  erewrite bind_ok; [|reflexivity].
  destruct (get_version_ids op pre st) as [cv sv'] eqn:Hv. simpl in sv. subst sv.
  erewrite bind_ok; [|unfold lift; rewrite Hparse; reflexivity]. cbv beta iota.
  fold H.
  assert (Hloop : ∀ l, l.*1 ⊆ od.*1 → Forall (simple_output otps) l →
    for_each (λ kv : string * Value,
      match kv.2 with
      | VRef v =>
          h ← dict_item kv.1 (get_output_history_ids get_content_hash H od.*1);
          mret ((kv.1, with_hid h v), [])
      | _ =>
          tp ← dict_item kv.1 otps;
          match tp with
          | AtomType =>
              h ← dict_item kv.1 (get_output_history_ids get_content_hash H od.*1);
              r ← wrap_atom kv.2 (Some h);
              mret ((kv.1, r), [])
          | _ =>
              '(start, _) ← construct tp kv.2;
              h ← dict_item kv.1 (get_output_history_ids get_content_hash H od.*1);
              '(final, output_calls_for_output) ← destruct tp (with_hid h start);
              mret ((kv.1, final), output_calls_for_output)
          end
      end) l st
    = (Ok ((λ kv, (wrap_simple_output H kv, @nil Call)) <$> l), st)).
  { induction l as [|[k v] l IH]; intros Hsub Hl; [done|].
    apply Forall_cons in Hl as [Hkv Hl].
    assert (Hk : dict_get k (get_output_history_ids get_content_hash H od.*1)
                 = Some (output_hid get_content_hash H k)).
    { apply dict_get_output_hid. apply Hsub. rewrite fmap_cons. left. }
    rewrite for_each_cons.
    erewrite bind_ok; [erewrite bind_ok;
      [reflexivity|apply IH; [intros x Hx; apply Hsub; rewrite fmap_cons; by right|done]]|].
    unfold wrap_simple_output. simpl.
    destruct Hkv as [[r Hr]|Htp]; simpl in *.
    - subst v. unfold dict_item. rewrite Hk. reflexivity.
    - unfold dict_item. rewrite Htp, Hk.
      destruct v; try reflexivity. }
  erewrite bind_ok; [|apply Hloop; [done|done]].
  unfold mret, M_ret. subst main_call. cbn [outputs].
  assert (E1 : ((λ kv : string * Value, (wrap_simple_output H kv, @nil Call)) <$> od).*1
               = wrap_simple_output H <$> od).
  { clear. induction od as [|kv od IH]; [done|]. rewrite !fmap_cons. by rewrite IH. }
  assert (E2 : concat ((λ kv : string * Value, (wrap_simple_output H kv, @nil Call)) <$> od).*2
               = []).
  { clear. induction od as [|kv od IH]; [done|]. rewrite !fmap_cons. simpl. by rewrite IH. }
  by rewrite E1, E2, app_nil_r.
Qed.

(** C7. A call of a non-structural op that is not found by the lookup (on a
    versioned storage, inside its context) runs the user function on the
    unwrapped arguments.  If the op does not allow
    side effects, the inputs are then fingerprinted again from the raw values
    as the function left them: when the content id of some input differs from
    the one snapshotted before the call, [call_internal] raises the
    side-effect error (a [ValueError] in the code) and returns no [Call];
    when none differs, or when the op allows side effects (and nothing is
    fingerprinted), the call goes on to wrap the outputs, which yields the
    [Call] record whenever each output is a ref or of atom type. *)
Theorem side_effect_guard_aborts (depth : nat) (op : Op)
    (storage_inputs : pydict Value) (storage_tps : pydict PyType)
    (bound_arguments : pydict Value) (st st1 st2 st3 st4 : Storage)
    (wrapped_inputs : pydict Ref) (input_calls : list Call)
    (raw_values arguments updates : pydict Value) (fn : PyFun) (returns : Value) :
  __structural__ op = false →
  wrap_inputs (construct depth) storage_inputs storage_tps st
    = (Ok (wrapped_inputs, input_calls), st1) →
  (_versioned st1 = true → cached_versioner st1 = true) →
  lookup_call depth op wrapped_inputs (get_pre_call_id get_content_hash op wrapped_inputs) st1
    = (Ok None, st2) →
  unwrap_items depth (prod_map id VRef <$> wrapped_inputs) st2 = (Ok raw_values, st3) →
  unwrap_items depth bound_arguments st3 = (Ok arguments, st4) →
  op_f op = Some fn →
  fn arguments raw_values = Ok (returns, updates) →
  let finish :=
    wrap_outputs (construct depth) (destruct_with (call_internal depth)) op
      wrapped_inputs input_calls (get_pre_call_id get_content_hash op wrapped_inputs)
      returns in
  let run :=
    call_internal (S depth) op storage_inputs storage_tps (Some bound_arguments) st in
  let cids_before := prod_map id cid <$> wrapped_inputs in
  (__allow_side_effects__ op = true → run = finish (log_call op arguments st4)) ∧
  (__allow_side_effects__ op = false →
   ∀ cids_after st6,
     cids_of_raw (construct depth) storage_tps (raw_values_after raw_values updates)
       (log_call op arguments st4) = (Ok cids_after, st6) →
     (cid_changed cids_before cids_after → run = (Raise (side_effects_error op), st6)) ∧
     (¬ cid_changed cids_before cids_after → run = finish st6)) ∧
  (∀ outputs_dict output_tps st',
     parse_returns op returns = Ok (outputs_dict, output_tps) →
     Forall (simple_output output_tps) outputs_dict →
     ∃ main_call,
       finish st' = (Ok (outputs main_call, main_call, input_calls), st') ∧
       call_op main_call = op ∧ inputs main_call = wrapped_inputs ∧
       (outputs main_call).*1 = outputs_dict.*1).
Proof.
  intros Hs Hwrap Hcached Hlookup Hraw Hargs Hf Hfn finish run cids_before.
  assert (Hrun : run =
    (r ← execute depth (construct depth) op wrapped_inputs storage_tps
           (Some bound_arguments);
     wrap_outputs (construct depth) (destruct_with (call_internal depth)) op
       wrapped_inputs input_calls (get_pre_call_id get_content_hash op wrapped_inputs) r)
    st2).
  { subst run. rewrite call_internal_eq. cbv zeta.
    erewrite bind_ok; [|exact Hwrap]. cbv beta iota.
    erewrite bind_ok; [|by apply suspend_trace_ok].
    erewrite bind_ok; [|exact Hlookup]. reflexivity. }
  destruct (execute_guard depth (construct depth) op wrapped_inputs storage_tps
              bound_arguments st2 raw_values st3 arguments st4 fn returns updates
              Hs Hraw Hargs Hf Hfn) as [Hallow Hguard].
  split; [|split].
  - intros Ha. rewrite Hrun. erewrite bind_ok; [|by apply Hallow]. reflexivity.
  - intros Ha cids_after st6 Hcids.
    destruct (Hguard Ha cids_after st6 Hcids) as [Hraise Hok]. split; intros Hc.
    + rewrite Hrun. erewrite bind_raise; [|by apply Hraise]. reflexivity.
    + rewrite Hrun. erewrite bind_ok; [|by apply Hok]. reflexivity.
  - intros od otps st' Hparse Hsimple. eexists. split.
    + subst finish. by apply (wrap_outputs_simple _ _ _ _ _ _ _ od otps).
    + simpl. split; [done|]. split; [done|].
      clear. induction od as [|[k v] od IH]; [done|]. rewrite !fmap_cons. rewrite IH.
      f_equal. unfold wrap_simple_output. simpl. by destruct v.
Qed.

(** *** Methods that only read

    A lookup changes the storage only by caching what it read: the call
    storage, the flags, the log and what each table shows stay the same. *)
Record same_views (st st' : Storage) : Prop := {
  sv_calls : calls st' = calls st;
  sv_atoms : view (atoms st') = view (atoms st);
  sv_shapes : view (shapes st') = view (shapes st);
  sv_ops : view (ops st') = view (ops st);
  sv_versioned : _versioned st' = _versioned st;
  sv_cached : cached_versioner st' = cached_versioner st;
  sv_context : current_context st' = current_context st;
  sv_hids : hids_drawn st' = hids_drawn st;
  sv_log : exec_log st' = exec_log st;
}.

Lemma same_views_refl st : same_views st st.
Proof. by split. Qed.

Lemma same_views_trans st1 st2 st3 :
  same_views st1 st2 → same_views st2 st3 → same_views st1 st3.
Proof. intros [] []. split; congruence. Qed.

Definition reads_only {A} (m : M A) : Prop :=
  ∀ st r st', m st = (r, st') → same_views st st'.

Lemma reads_only_ret {A} (a : A) : reads_only (mret a).
Proof. intros st r st' [= <- <-]. apply same_views_refl. Qed.

Lemma reads_only_raise {A} e : reads_only (raise (A:=A) e).
Proof. intros st r st' [= <- <-]. apply same_views_refl. Qed.

Lemma reads_only_lift {A} (r : result A) : reads_only (lift r).
Proof. intros st r' st' [= <- <-]. apply same_views_refl. Qed.

Lemma reads_only_gets {A} (g : Storage → A) : reads_only (gets g).
Proof. intros st r' st' [= <- <-]. apply same_views_refl. Qed.

Lemma reads_only_bind {A B} (m : M A) (k : A → M B) :
  reads_only m → (∀ a, reads_only (k a)) → reads_only (m ≫= k).
Proof.
  intros Hm Hk st r st'. unfold mbind, M_bind.
  destruct (m st) as [[a|e] st1] eqn:Hst.
  - intros Hr. eapply same_views_trans; [by eapply Hm|by eapply Hk].
  - intros [= <- <-]. by eapply Hm.
Qed.

Lemma reads_only_for_each {A B} (body : A → M B) l :
  (∀ x, reads_only (body x)) → reads_only (for_each body l).
Proof.
  intros Hb. induction l as [|x l IH]; [apply reads_only_ret|].
  rewrite for_each_cons. apply reads_only_bind; [apply Hb|]. intros y.
  apply reads_only_bind; [apply IH|]. intros ys. apply reads_only_ret.
Qed.

Lemma reads_only_shapes_get h : reads_only (shapes_get h).
Proof.
  intros st r st'. unfold shapes_get.
  destruct (CachedDictStorage_get h (shapes st)) as [r0 s] eqn:Hg.
  intros [= <- <-]. apply CachedDictStorage_get_view in Hg as (Hv & _).
  by split.
Qed.

Lemma reads_only_atoms_get h : reads_only (atoms_get h).
Proof.
  intros st r st'. unfold atoms_get.
  destruct (CachedDictStorage_get h (atoms st)) as [r0 s] eqn:Hg.
  intros [= <- <-]. apply CachedDictStorage_get_view in Hg as (Hv & _).
  by split.
Qed.

Lemma reads_only_ops_get h : reads_only (ops_get h).
Proof.
  intros st r st'. unfold ops_get.
  destruct (CachedDictStorage_get h (ops st)) as [r0 s] eqn:Hg.
  intros [= <- <-]. apply CachedDictStorage_get_view in Hg as (Hv & _).
  by split.
Qed.

Lemma reads_only_load_ref depth h lazy : reads_only (load_ref depth h lazy).
Proof.
  revert h. induction depth as [|depth IH]; intros h; simpl.
  - apply reads_only_raise.
  - apply reads_only_bind; [apply reads_only_shapes_get|].
    intros [c' h' m o|c' h' m o|c' h' m o].
    + destruct lazy; [apply reads_only_ret|].
      apply reads_only_bind; [apply reads_only_atoms_get|]. intros b. apply reads_only_ret.
    + destruct o as [elts|]; [|apply reads_only_raise].
      apply reads_only_bind; [|intros; apply reads_only_ret].
      apply reads_only_for_each. intros elt. apply IH.
    + destruct o as [items|]; [|apply reads_only_raise].
      apply reads_only_bind; [|intros; apply reads_only_ret].
      apply reads_only_for_each. intros kv.
      apply reads_only_bind; [apply IH|intros; apply reads_only_ret].
Qed.

Lemma reads_only_load_items depth lazy d : reads_only (load_items depth lazy d).
Proof.
  apply reads_only_for_each. intros kv.
  apply reads_only_bind; [apply reads_only_load_ref|intros; apply reads_only_ret].
Qed.

Lemma reads_only_get_call_from_data depth d lazy :
  reads_only (_get_call_from_data depth d lazy).
Proof.
  unfold _get_call_from_data.
  apply reads_only_bind; [apply reads_only_ops_get|]. intros o.
  apply reads_only_bind; [apply reads_only_load_items|]. intros ins.
  apply reads_only_bind; [apply reads_only_load_items|]. intros outs.
  apply reads_only_ret.
Qed.

Lemma reads_only_dict_item {V} k (d : pydict V) : reads_only (dict_item k d).
Proof. unfold dict_item. destruct (dict_get k d); [apply reads_only_ret|apply reads_only_raise]. Qed.

Lemma reads_only_resolve op pre : reads_only (resolve_semantic_version op pre).
Proof.
  unfold resolve_semantic_version. apply reads_only_bind; [apply reads_only_gets|].
  intros st. destruct (negb (_versioned st)); [apply reads_only_ret|].
  destruct (versioner_lookup_call _ _ _) as [[]|]; apply reads_only_ret.
Qed.

Lemma reads_only_lookup_call depth op inputs pre :
  reads_only (lookup_call depth op inputs pre).
Proof.
  unfold lookup_call. apply reads_only_bind; [apply reads_only_resolve|].
  intros [sv|]; [|apply reads_only_ret].
  apply reads_only_bind; [apply reads_only_gets|]. intros cc.
  apply reads_only_bind; [apply reads_only_lift|]. intros [|].
  - apply reads_only_bind; [apply reads_only_lift|]. intros d.
    apply reads_only_bind; [apply reads_only_get_call_from_data|].
    intros c. apply reads_only_ret.
  - apply reads_only_raise.
Qed.

(** Every shape is stored under its own history id. *)
Definition shapes_keyed (st : Storage) : Prop :=
  map_Forall (λ h r, hid r = h) (view (shapes st)).

Lemma shapes_keyed_same_views st st' :
  same_views st st' → shapes_keyed st → shapes_keyed st'.
Proof. intros [] Hk h r. rewrite sv_shapes0. apply Hk. Qed.

Lemma shapes_get_view h st r st' :
  shapes_get h st = (Ok r, st') → view (shapes st) !! h = Some r.
Proof.
  unfold shapes_get. destruct (CachedDictStorage_get h (shapes st)) as [r0 s] eqn:Hg.
  intros [= -> <-]. by apply CachedDictStorage_get_view in Hg as (_ & _ & _ & Hv).
Qed.

Lemma load_ref_hid depth h lazy st r st' :
  shapes_keyed st → load_ref depth h lazy st = (Ok r, st') → hid r = h.
Proof.
  intros Hk. destruct depth as [|depth]; [done|]. simpl. intros Hrun.
  apply bind_inv in Hrun as (sh & st1 & Hsh & Hrun).
  apply shapes_get_view in Hsh. apply Hk in Hsh.
  destruct sh as [c' h' m o|c' h' m o|c' h' m o]; simpl in Hsh; subst h'.
  - destruct lazy.
    + by apply ret_inv in Hrun as [<- _].
    + apply bind_inv in Hrun as (b & st2 & _ & Hrun). by apply ret_inv in Hrun as [<- _].
  - destruct o as [elts|]; [|done].
    apply bind_inv in Hrun as (obj & st2 & _ & Hrun). by apply ret_inv in Hrun as [<- _].
  - destruct o as [items|]; [|done].
    apply bind_inv in Hrun as (obj & st2 & _ & Hrun). by apply ret_inv in Hrun as [<- _].
Qed.

Lemma load_items_hids depth lazy d st rs st' :
  shapes_keyed st → load_items depth lazy d st = (Ok rs, st') →
  prod_map id hid <$> rs = d.
Proof.
  unfold load_items. revert st rs st'.
  induction d as [|[k h] d IH]; intros st rs st' Hk Hrun.
  - by apply ret_inv in Hrun as [<- _].
  - rewrite for_each_cons in Hrun.
    apply bind_inv in Hrun as (y & st1 & Hy & Hrun).
    apply bind_inv in Hrun as (ys & st2 & Hys & Hrun). apply ret_inv in Hrun as [<- _].
    assert (Hsv : same_views st st1).
    { eapply (reads_only_bind (load_ref depth h lazy) (λ r, mret (k, r)));
        [apply reads_only_load_ref|intros; apply reads_only_ret|exact Hy]. }
    apply bind_inv in Hy as (r & st0 & Hr & Hy). apply ret_inv in Hy as [<- _].
    rewrite fmap_cons. f_equal.
    + unfold prod_map. simpl. f_equal. by eapply load_ref_hid.
    + eapply IH; [|exact Hys]. by eapply shapes_keyed_same_views.
Qed.

(** *** Looking a call up by its history id *)

(** The list path of [load_ref] loads each child and then returns the stored
    shape attached to its own children: whatever the loads gave, the result
    carries the children of the shape. *)
Lemma load_ref_list_shape_children depth h lazy st c h' m elts st1 r st' :
  shapes_get h st = (Ok (ListRef c h' m (Some elts)), st1) →
  load_ref (S depth) h lazy st = (Ok r, st') →
  r = ListRef c h' true (Some elts).
Proof.
  intros Hsh Hrun. cbn [load_ref] in Hrun.
  erewrite bind_ok in Hrun; [|exact Hsh]. cbv beta iota in Hrun.
  apply bind_inv in Hrun as (obj & st2 & _ & Hrun). by apply ret_inv in Hrun as [<- _].
Qed.

(** The dict path returns the children it loaded. *)
Lemma load_ref_dict_loaded_children depth h lazy st c h' m items st1 r st' :
  shapes_get h st = (Ok (DictRef c h' m (Some items)), st1) →
  load_ref (S depth) h lazy st = (Ok r, st') →
  ∃ obj st2,
    for_each (λ kv : string * Ref, v ← load_ref depth (hid kv.2) lazy; mret (kv.1, v))
      items st1 = (Ok obj, st2) ∧
    r = DictRef c h' true (Some obj).
Proof.
  intros Hsh Hrun. cbn [load_ref] in Hrun.
  erewrite bind_ok in Hrun; [|exact Hsh]. cbv beta iota in Hrun.
  apply bind_inv in Hrun as (obj & st2 & Hobj & Hrun). apply ret_inv in Hrun as [<- _].
  by exists obj, st2.
Qed.

(** *** What [save_call] leaves in the call cache *)

(** Methods that do not touch the call storage. *)
Definition keeps_calls {A} (m : M A) : Prop := ∀ st, calls (m st).2 = calls st.

Lemma keeps_calls_ret {A} (a : A) : keeps_calls (mret a).
Proof. done. Qed.

Lemma keeps_calls_raise {A} e : keeps_calls (raise (A:=A) e).
Proof. done. Qed.

Lemma keeps_calls_lift {A} (r : result A) : keeps_calls (lift r).
Proof. done. Qed.

Lemma keeps_calls_gets {A} (g : Storage → A) : keeps_calls (gets g).
Proof. done. Qed.

Lemma keeps_calls_bind {A B} (m : M A) (k : A → M B) :
  keeps_calls m → (∀ a, keeps_calls (k a)) → keeps_calls (m ≫= k).
Proof.
  intros Hm Hk st. unfold mbind, M_bind. specialize (Hm st).
  destruct (m st) as [[a|e] st1]; simpl in *; [by rewrite Hk|done].
Qed.

Lemma keeps_calls_for_each {A B} (body : A → M B) l :
  (∀ x, keeps_calls (body x)) → keeps_calls (for_each body l).
Proof.
  intros Hb. induction l as [|x l IH]; [apply keeps_calls_ret|].
  rewrite for_each_cons. apply keeps_calls_bind; [apply Hb|]. intros y.
  apply keeps_calls_bind; [apply IH|]. intros ys. apply keeps_calls_ret.
Qed.

Lemma keeps_calls_shapes_set h r : keeps_calls (shapes_set h r).
Proof. done. Qed.

Lemma keeps_calls_atoms_set c b : keeps_calls (atoms_set c b).
Proof. done. Qed.

Lemma keeps_calls_ops_set n o : keeps_calls (ops_set n o).
Proof. done. Qed.

Lemma keeps_calls_save_ref (r : Ref) : keeps_calls (save_ref r).
Proof.
  revert r. fix IH 1. intros [c h m o|c h m o|c h m o]; cbn [save_ref].
  all: apply keeps_calls_bind; [apply keeps_calls_gets|].
  all: intros [|]; [apply keeps_calls_ret|].
  - apply keeps_calls_bind; [|intros _; apply keeps_calls_shapes_set].
    destruct m; [apply keeps_calls_atoms_set|apply keeps_calls_ret].
  - apply keeps_calls_bind; [apply keeps_calls_lift|]. intros sh.
    apply keeps_calls_bind; [apply keeps_calls_shapes_set|]. intros _.
    destruct o as [elts|]; [|apply keeps_calls_raise].
    induction elts as [|elt rest IHl]; [apply keeps_calls_ret|].
    apply keeps_calls_bind; [apply IH|intros _; apply IHl].
  - apply keeps_calls_bind; [apply keeps_calls_lift|]. intros sh.
    apply keeps_calls_bind; [apply keeps_calls_shapes_set|]. intros _.
    destruct o as [items|]; [|apply keeps_calls_raise].
    induction items as [|[k v] rest IHl]; [apply keeps_calls_ret|].
    apply keeps_calls_bind; [apply IH|intros _; apply IHl].
Qed.

(** The rows of the call cache all belong to hids it lists, as [save] and
    [drop] keep it. *)
Definition rows_listed (c : CallStorage.InMemCallStorage) : Prop :=
  ∀ r, r ∈ CallStorage.df c → CallStorage.call_history_id r ∈ CallStorage.call_hids c.

Lemma rows_listed_init pc pa ps po v :
  rows_listed (call_cache (Storage_init pc pa ps po v)).
Proof. intros r Hr. by apply elem_of_nil in Hr. Qed.

(** [save_call] of a call that neither the cache nor the table lists records
    it in the in-memory call cache. *)
Lemma save_call_records (c : Call) (st st' : Storage) :
  (exists_call (call_hid c) st).1 = Ok false →
  rows_listed (call_cache st) →
  NoDup ((inputs c).*1 ++ (outputs c).*1) →
  save_call c st = (Ok tt, st') →
  CallStorage.recorded c (call_cache st').
Proof.
  intros Hex Hl Hnd Hrun. unfold save_call in Hrun.
  apply bind_inv in Hrun as (present & st0 & Hp & Hrun).
  unfold exists_call, gets in Hp, Hex. simpl in Hex. injection Hex as Hex.
  injection Hp as <- <-. rewrite Hex in Hrun.
  apply bind_inv in Hrun as (known & st1 & Hk & Hrun). injection Hk as <- <-.
  apply bind_inv in Hrun as (u & st2 & H2 & Hrun).
  apply bind_inv in Hrun as (l & st3 & H3 & Hrun).
  injection Hrun as <-.
  assert (Hc2 : calls st2 = calls st).
  { change st2 with (Ok u, st2).2. rewrite <- H2.
    destruct (CachedDictStorage_exists _ _);
      [apply keeps_calls_ret|apply keeps_calls_ops_set]. }
  assert (Hc3 : calls st3 = calls st).
  { rewrite <- Hc2. change st3 with (Ok l, st3).2. rewrite <- H3.
    apply keeps_calls_for_each, keeps_calls_save_ref. }
  unfold call_cache. cbn. rewrite Hc3. apply CallStorage.save_recorded; [|done..].
  unfold CallStorage.CachedCallStorage_exists in Hex.
  destruct (CallStorage.InMemCallStorage_exists _ _) eqn:Hm; [done|].
  by apply bool_decide_eq_false in Hm.
Qed.

(** *** Saving twice *)

(** Methods that keep every key of the shapes table. *)
Definition shapes_grow {A} (m : M A) : Prop :=
  ∀ st k, CachedDictStorage_exists k (shapes st) = true →
          CachedDictStorage_exists k (shapes (m st).2) = true.

Lemma shapes_grow_ret {A} (a : A) : shapes_grow (mret a).
Proof. by intros st k. Qed.

Lemma shapes_grow_raise {A} e : shapes_grow (raise (A:=A) e).
Proof. by intros st k. Qed.

Lemma shapes_grow_lift {A} (r : result A) : shapes_grow (lift r).
Proof. by intros st k. Qed.

Lemma shapes_grow_gets {A} (g : Storage → A) : shapes_grow (gets g).
Proof. by intros st k. Qed.

Lemma shapes_grow_bind {A B} (m : M A) (k : A → M B) :
  shapes_grow m → (∀ a, shapes_grow (k a)) → shapes_grow (m ≫= k).
Proof.
  intros Hm Hk st key Hkey. unfold mbind, M_bind. specialize (Hm st key Hkey).
  destruct (m st) as [[a|e] st1]; simpl in *; [by apply Hk|done].
Qed.

Lemma shapes_grow_atoms_set c b : shapes_grow (atoms_set c b).
Proof. by intros st k. Qed.

Lemma exists_after_set {V'} `{!Codec Blob V'} (k key : string) (v : V')
    (s : @CachedDictStorage V' Blob) :
  CachedDictStorage_exists k (CachedDictStorage_set key v s) =
    if decide (k = key) then true else CachedDictStorage_exists k s.
Proof.
  unfold CachedDictStorage_exists, CachedDictStorage_set. cbn.
  destruct (decide (k = key)) as [->|Hne].
  - by rewrite lookup_insert_eq.
  - by rewrite lookup_insert_ne.
Qed.

Lemma shapes_grow_shapes_set h r : shapes_grow (shapes_set h r).
Proof.
  intros st k Hk. cbn. rewrite exists_after_set. by destruct (decide (k = h)).
Qed.

Lemma shapes_grow_save_ref (r : Ref) : shapes_grow (save_ref r).
Proof.
  revert r. fix IH 1. intros [c h m o|c h m o|c h m o]; cbn [save_ref].
  all: apply shapes_grow_bind; [apply shapes_grow_gets|].
  all: intros [|]; [apply shapes_grow_ret|].
  - apply shapes_grow_bind; [|intros _; apply shapes_grow_shapes_set].
    destruct m; [apply shapes_grow_atoms_set|apply shapes_grow_ret].
  - apply shapes_grow_bind; [apply shapes_grow_lift|]. intros sh.
    apply shapes_grow_bind; [apply shapes_grow_shapes_set|]. intros _.
    destruct o as [elts|]; [|apply shapes_grow_raise].
    induction elts as [|elt rest IHl]; [apply shapes_grow_ret|].
    apply shapes_grow_bind; [apply IH|intros _; apply IHl].
  - apply shapes_grow_bind; [apply shapes_grow_lift|]. intros sh.
    apply shapes_grow_bind; [apply shapes_grow_shapes_set|]. intros _.
    destruct o as [items|]; [|apply shapes_grow_raise].
    induction items as [|[k v] rest IHl]; [apply shapes_grow_ret|].
    apply shapes_grow_bind; [apply IH|intros _; apply IHl].
Qed.

Lemma save_ref_present (r : Ref) st :
  CachedDictStorage_exists (hid r) (shapes st) = true → save_ref r st = (Ok tt, st).
Proof.
  intros Hp. destruct r as [c h m o|c h m o|c h m o]; cbn [save_ref hid] in *;
    unfold mbind, M_bind, gets; cbn; by rewrite Hp.
Qed.

Lemma save_ref_saves (r : Ref) st u st1 :
  save_ref r st = (Ok u, st1) → CachedDictStorage_exists (hid r) (shapes st1) = true.
Proof.
  destruct (CachedDictStorage_exists (hid r) (shapes st)) eqn:Hp.
  { rewrite save_ref_present by done. by intros [= _ <-]. }
  intros Hrun.
  assert (Hset : ∀ (sh : Ref) (rest : M unit) st0,
    shapes_grow rest →
    CachedDictStorage_exists (hid r)
      (shapes ((shapes_set (hid r) sh ;; rest) st0).2) = true).
  { intros sh rest st0 Hrest. unfold mbind, M_bind. cbn.
    apply Hrest. cbn. rewrite exists_after_set. by rewrite decide_True. }
  destruct r as [c h m o|c h m o|c h m o]; cbn [save_ref hid] in *.
  - apply bind_inv in Hrun as (present & st0 & Hg & Hrun). injection Hg as <- <-.
    rewrite Hp in Hrun.
    apply bind_inv in Hrun as (u1 & st2 & H1 & Hrun). injection Hrun as _ <-. cbn.
    rewrite exists_after_set. by rewrite decide_True.
  - apply bind_inv in Hrun as (present & st0 & Hg & Hrun). injection Hg as <- <-.
    rewrite Hp in Hrun.
    apply bind_inv in Hrun as (sh & st2 & H1 & Hrun). injection H1 as _ <-.
    change st1 with (Ok u, st1).2. rewrite <- Hrun. apply Hset. clear Hrun.
    destruct o as [elts|]; [|apply shapes_grow_raise].
    induction elts as [|elt rest IHl]; [apply shapes_grow_ret|].
    apply shapes_grow_bind; [apply shapes_grow_save_ref|intros _; apply IHl].
  - apply bind_inv in Hrun as (present & st0 & Hg & Hrun). injection Hg as <- <-.
    rewrite Hp in Hrun.
    apply bind_inv in Hrun as (sh & st2 & H1 & Hrun). injection H1 as _ <-.
    change st1 with (Ok u, st1).2. rewrite <- Hrun. apply Hset. clear Hrun.
    destruct o as [items|]; [|apply shapes_grow_raise].
    induction items as [|[k v] rest IHl]; [apply shapes_grow_ret|].
    apply shapes_grow_bind; [apply shapes_grow_save_ref|intros _; apply IHl].
Qed.

(** X14. [save_ref] is idempotent: a ref whose hid the shapes table knows is not
    saved again, so saving a ref a second time changes nothing.  A ref saved
    under a hid stays known whatever is saved later. *)
Theorem save_ref_idempotent (r : Ref) (st st1 : Storage) :
  save_ref r st = (Ok tt, st1) →
  CachedDictStorage_exists (hid r) (shapes st1) = true ∧
  save_ref r st1 = (Ok tt, st1) ∧
  ∀ r', CachedDictStorage_exists (hid r) (shapes (save_ref r' st1).2) = true.
Proof.
  intros Hrun. pose proof (save_ref_saves _ _ _ _ Hrun) as Hp.
  split; [done|]. split; [by apply save_ref_present|].
  intros r'. by apply shapes_grow_save_ref.
Qed.

Lemma exists_after_save (c : Call) (s : CallStorage.CachedCallStorage) :
  CallStorage.CachedCallStorage_exists (call_hid c) (CallStorage.CachedCallStorage_save c s)
    = true.
Proof.
  unfold CallStorage.CachedCallStorage_exists, CallStorage.CachedCallStorage_save,
    CallStorage.InMemCallStorage_exists, CallStorage.InMemCallStorage_save. cbn.
  destruct (decide (call_hid c ∈ CallStorage.call_hids (CallStorage.cache s))) as [Hin|Hin].
  - by rewrite bool_decide_eq_true_2.
  - cbn. rewrite bool_decide_eq_true_2; [done|set_solver].
Qed.

(** X15. [save_call] is idempotent on the call hid: after it returned, the call
    exists, and saving it again changes nothing (also for another call of the
    same hid). *)
Theorem save_call_idempotent (c : Call) (st st1 : Storage) :
  save_call c st = (Ok tt, st1) →
  exists_call (call_hid c) st1 = (Ok true, st1) ∧
  ∀ c', call_hid c' = call_hid c → save_call c' st1 = (Ok tt, st1).
Proof.
  intros Hrun.
  assert (Hex : CallStorage.CachedCallStorage_exists (call_hid c) (calls st1) = true).
  { unfold save_call in Hrun.
    apply bind_inv in Hrun as (present & st0 & Hp & Hrun). injection Hp as <- <-.
    destruct (CallStorage.CachedCallStorage_exists _ _) eqn:Hpres.
    - by injection Hrun as <-.
    - apply bind_inv in Hrun as (known & st2 & Hk & Hrun).
      apply bind_inv in Hrun as (u & st3 & H2 & Hrun).
      apply bind_inv in Hrun as (l & st4 & H3 & Hrun).
      injection Hrun as <-. cbn. apply exists_after_save. }
  split.
  - unfold exists_call, gets. by rewrite Hex.
  - intros c' Hc'. unfold save_call, exists_call, gets, mbind, M_bind. by rewrite Hc', Hex.
Qed.

(** *** A dirty call that the cache has lost *)

Lemma commit_calls_loop_missing hs (c : CallStorage.InMemCallStorage) conn p h :
  h ∈ hs → CallStorage.InMemCallStorage_exists h c = false →
  is_Ok (CallStorage.commit_calls_loop hs c conn p).1 = false.
Proof.
  intros Hh Hmiss. revert p. induction hs as [|h' hs IH]; intros p;
    [by apply elem_of_nil in Hh|].
  cbn [CallStorage.commit_calls_loop].
  destruct (decide (h' = h)) as [->|Hne].
  - unfold CallStorage.InMemCallStorage_get_data. by rewrite Hmiss.
  - apply elem_of_cons in Hh as [->|Hh]; [done|].
    destruct (CallStorage.InMemCallStorage_get_data h' c) as [d|e]; [|done].
    destruct (CallStorage.SQLiteCallStorage_save d (Some conn) p) as [[[]|e] p']; [|done].
    by apply IH.
Qed.

(** X16. [drop_calls] removes calls from the call cache without touching the dirty
    set of the call storage.  When a dirty hid is no longer in the cache,
    [commit] cannot succeed: it raises (from the cache's [get_data], once the
    key-value tables are written), the hid stays dirty and stays missing, so
    every later [commit] fails as well. *)
Theorem commit_fails_on_lost_dirty_call (h : string) (st : Storage) :
  h ∈ CallStorage.dirty_hids (calls st) →
  CallStorage.InMemCallStorage_exists h (call_cache st) = false →
  is_Ok (commit st).1 = false ∧
  h ∈ CallStorage.dirty_hids (calls (commit st).2) ∧
  CallStorage.InMemCallStorage_exists h (call_cache (commit st).2) = false.
Proof.
  intros Hd Hmiss. unfold commit.
  destruct (CachedDictStorage_commit _ (atoms st)) as [[[]|e1] a]; [|done].
  destruct (CachedDictStorage_commit _ (shapes _)) as [[[]|e2] s]; [|done].
  destruct (CachedDictStorage_commit _ (ops _)) as [[[]|e3] o]; [|done].
  cbn [calls set_ops set_shapes set_atoms].
  unfold CallStorage.CachedCallStorage_commit.
  pose proof (commit_calls_loop_missing (elements (CallStorage.dirty_hids (calls st)))
                (CallStorage.cache (calls st)) db_conn
                (CallStorage.persistent (calls st)) h) as Hloop.
  destruct (CallStorage.commit_calls_loop _ _ _ _) as [[[]|e] p].
  - cbn in Hloop. discriminate Hloop; [by apply elem_of_elements|done].
  - done.
Qed.

(** *** Committing the whole storage *)

(** Every dirty key of the three tables is cached, and every dirty call is
    recorded in the call cache and new to the call table: the state of a
    storage whose calls were saved by [save_call] and not dropped. *)
Definition consistent (st : Storage) : Prop :=
  dirty_in_cache (atoms st) ∧ dirty_in_cache (shapes st) ∧ dirty_in_cache (ops st) ∧
  ∀ h, h ∈ CallStorage.dirty_hids (calls st) →
       CallStorage.committable (call_cache st) (call_storage st) h.



Lemma commit_ok (st : Storage) :
  consistent st →
  ∃ st', commit st = (Ok tt, st') ∧
    CachedDictStorage_commit (Some db_conn) (atoms st) = (Ok tt, atoms st') ∧
    CachedDictStorage_commit (Some db_conn) (shapes st) = (Ok tt, shapes st') ∧
    CachedDictStorage_commit (Some db_conn) (ops st) = (Ok tt, ops st') ∧
    CallStorage.CachedCallStorage_commit (Some db_conn) (calls st) = (Ok tt, calls st') ∧
    _versioned st' = _versioned st ∧ cached_versioner st' = cached_versioner st ∧
    current_context st' = current_context st ∧
    hids_drawn st' = hids_drawn st ∧ exec_log st' = exec_log st.
Proof.
  intros (Ha & Hs & Ho & Hc). unfold commit.
  destruct (dict_commit_ok db_conn (atoms st) Ha) as (a & Hra & _).
  destruct (dict_commit_ok db_conn (shapes st) Hs) as (s & Hrs & _).
  destruct (dict_commit_ok db_conn (ops st) Ho) as (o & Hro & _).
  destruct (CallStorage.calls_commit_ok (Some db_conn) (calls st) Hc) as (c & Hrc & _).
  exists (set_calls c (set_ops o (set_shapes s (set_atoms a st)))).
  rewrite Hra. cbn [shapes set_atoms]. rewrite Hrs. cbn [ops set_shapes set_atoms].
  rewrite Hro. cbn [calls set_ops set_shapes set_atoms]. rewrite Hrc. done.
Qed.

(** X17. [commit] on a consistent storage returns and leaves nothing dirty: the
    caches are as before, every dirty key of the three tables is in its table
    with its serialized cached value, every dirty call is in the call table
    with the rows the cache has of it, and a second [commit] changes
    nothing.  [__exit__] does the same, closes the context and drops the
    cached versioner. *)
Theorem commit_persists_everything (st : Storage) :
  consistent st →
  ∃ st', commit st = (Ok tt, st') ∧
    dirty_keys (atoms st') = ∅ ∧ dirty_keys (shapes st') = ∅ ∧ dirty_keys (ops st') = ∅ ∧
    CallStorage.dirty_hids (calls st') = ∅ ∧
    cache (atoms st') = cache (atoms st) ∧ cache (shapes st') = cache (shapes st) ∧
    cache (ops st') = cache (ops st) ∧ call_cache st' = call_cache st ∧
    (∀ k, k ∈ dirty_keys (atoms st) →
       table (persistent (atoms st')) !! k = serialize <$> cache (atoms st) !! k) ∧
    (∀ k, k ∈ dirty_keys (shapes st) →
       table (persistent (shapes st')) !! k = serialize <$> cache (shapes st) !! k) ∧
    (∀ k, k ∈ dirty_keys (ops st) →
       table (persistent (ops st')) !! k = serialize <$> cache (ops st) !! k) ∧
    (∀ h, h ∈ CallStorage.dirty_hids (calls st) →
       CallStorage.rows_of h (CallStorage.rows (call_storage st'))
         = CallStorage.rows_of h (CallStorage.df (call_cache st))) ∧
    commit st' = (Ok tt, st') ∧
    __exit__ st = (Ok tt, set_cached_versioner false (set_current_context false st')).
Proof.
  intros Hc. pose proof Hc as (Ha & Hs & Ho & Hcalls).
  destruct (commit_ok st Hc) as (st' & Hrun & Hra & Hrs & Hro & Hrc & Hv & Hcv & Hcc & Hh & Hl).
  destruct (dict_commit_ok db_conn (atoms st) Ha) as (a & Hra' & Had & Hac & Hat & _).
  destruct (dict_commit_ok db_conn (shapes st) Hs) as (s & Hrs' & Hsd & Hsc & Hst & _).
  destruct (dict_commit_ok db_conn (ops st) Ho) as (o & Hro' & Hod & Hoc & Hot & _).
  destruct (CallStorage.calls_commit_ok (Some db_conn) (calls st) Hcalls)
    as (c & Hrc' & Hcd & Hcache & Hct & _).
  rewrite Hra in Hra'. injection Hra' as <-. rewrite Hrs in Hrs'. injection Hrs' as <-.
  rewrite Hro in Hro'. injection Hro' as <-. rewrite Hrc in Hrc'. injection Hrc' as <-.
  exists st'. split; [done|]. do 8 (split; [done|]). do 3 (split; [done|]).
  split; [intros h Hh'; by destruct (Hct h Hh') as [_ ?]|].
  split.
  - destruct (commit_ok st') as (st2 & Hrun2 & Hra2 & Hrs2 & Hro2 & Hrc2 & Hv2 & Hcv2 & Hcc2 & Hh2 & Hl2).
    { unfold consistent, dirty_in_cache. rewrite Had, Hsd, Hod, Hcd.
      split; [set_solver|]. split; [set_solver|]. split; [set_solver|]. set_solver. }
    rewrite Hrun2. f_equal.
    assert (Hda : ∀ {V'} `{!Codec Blob V'} (x y : @CachedDictStorage V' Blob),
              dirty_keys x = ∅ → CachedDictStorage_commit (Some db_conn) x = (Ok tt, y) → y = x).
    { intros V' ? x y Hx. unfold CachedDictStorage_commit. rewrite Hx, elements_empty. cbn.
      intros [= <-]. destruct x. cbn in *. by subst. }
    assert (Hdc : calls st2 = calls st').
    { revert Hrc2. unfold CallStorage.CachedCallStorage_commit. rewrite Hcd, elements_empty. cbn.
      intros [= <-]. destruct (calls st'). cbn in *. by subst. }
    apply Hda in Hra2; [|done]. apply Hda in Hrs2; [|done]. apply Hda in Hro2; [|done].
    destruct st2, st'. cbn in *. by subst.
  - unfold __exit__.
    destruct (commit_ok (set_current_context false st)) as (st2 & Hrun2 & Hra2 & Hrs2 & Hro2 & Hrc2 & Hv2 & Hcv2 & Hcc2 & Hh2 & Hl2); [done|].
    rewrite Hrun2. f_equal. cbn in *.
    rewrite Hra in Hra2. rewrite Hrs in Hrs2. rewrite Hro in Hro2. rewrite Hrc in Hrc2.
    destruct st2, st'. unfold set_current_context, set_cached_versioner. cbn in *. congruence.
Qed.

(** *** Atoms saved and loaded *)

Lemma save_atom (c h : string) (o : Value) (st : Storage) :
  CachedDictStorage_exists h (shapes st) = false →
  save_ref (AtomRef c h true o) st =
    (Ok tt, set_shapes (CachedDictStorage_set h (AtomRef c h false VNone) (shapes st))
              (set_atoms (CachedDictStorage_set c (serialize o) (atoms st)) st)).
Proof.
  intros Hnew. cbn [save_ref]. unfold mbind, M_bind, gets. cbn [hid]. by rewrite Hnew.
Qed.

(** X18. An in-memory atom saved under a hid the shapes table does not know is
    loaded back as it was by [load_ref(hid)], when the codec returns its
    value; the lazy load gives the detached atom.  Loading a hid that the
    shapes table does not know raises [KeyError]. *)
Theorem atom_round_trip (depth : nat) (c h : string) (o : Value) (st : Storage) :
  CachedDictStorage_exists h (shapes st) = false →
  deserialize (serialize o : Blob) = o →
  (load_ref (S depth) h false st).1 = Raise (KeyError h) ∧
  ∃ st1, save_ref (AtomRef c h true o) st = (Ok tt, st1) ∧
    (load_ref (S depth) h false st1).1 = Ok (AtomRef c h true o) ∧
    (load_ref (S depth) h true st1).1 = Ok (AtomRef c h false VNone).
Proof.
  intros Hnew Hcodec. split.
  - cbn [load_ref]. unfold mbind, M_bind, shapes_get.
    by rewrite (get_absent h (shapes st) Hnew).
  - eexists. split; [by apply save_atom|].
    cbn [load_ref]. unfold mbind, M_bind, shapes_get, atoms_get, CachedDictStorage_get.
    cbn. rewrite !lookup_insert_eq. cbn. rewrite !lookup_insert_eq. cbn.
    by rewrite Hcodec.
Qed.



(** *** Calls fetched in bulk *)

Lemma merge_lists_split {A B} (φ : B → A) (P : A → bool) (hs : list A) (ts fs : list B) :
  φ <$> ts = filter (λ h, P h = true) hs →
  φ <$> fs = filter (λ h, ¬ P h = true) hs →
  ∃ l, merge_lists ts fs (P <$> hs) = Ok l ∧ φ <$> l = hs.
Proof.
  revert ts fs. induction hs as [|h hs IH]; intros ts fs Ht Hf.
  - exists []. done.
  - rewrite fmap_cons. cbn [merge_lists]. destruct (P h) eqn:HP.
    + rewrite filter_cons_True in Ht by done.
      rewrite filter_cons_False in Hf by (intros Hn; by apply Hn).
      destruct ts as [|t ts]; [done|]. rewrite fmap_cons in Ht. injection Ht as Hth Ht.
      destruct (IH ts fs Ht Hf) as (l & -> & Hl). exists (t :: l).
      by rewrite fmap_cons, Hth, Hl.
    + rewrite filter_cons_False in Ht by congruence.
      rewrite filter_cons_True in Hf by congruence.
      destruct fs as [|f fs]; [done|]. rewrite fmap_cons in Hf. injection Hf as Hfh Hf.
      destruct (IH ts fs Ht Hf) as (l & -> & Hl). exists (f :: l).
      by rewrite fmap_cons, Hfh, Hl.
Qed.

Lemma for_each_fmap {A B C} (body : A → M B) (φ : A → C) (ψ : B → C) (l : list A) st ys st' :
  (∀ x st y st', body x st = (Ok y, st') → ψ y = φ x) →
  for_each body l st = (Ok ys, st') → ψ <$> ys = φ <$> l.
Proof.
  intros Hbody. revert st ys st'. induction l as [|x l IH]; intros st ys st' Hrun.
  - by apply ret_inv in Hrun as [<- _].
  - rewrite for_each_cons in Hrun.
    apply bind_inv in Hrun as (y & st1 & Hy & Hrun).
    apply bind_inv in Hrun as (ys' & st2 & Hys & Hrun).
    apply ret_inv in Hrun as [<- _]. rewrite !fmap_cons.
    by rewrite (Hbody _ _ _ _ Hy), (IH _ _ _ Hys).
Qed.

Lemma get_call_from_data_hid depth d lazy st c st' :
  _get_call_from_data depth d lazy st = (Ok c, st') →
  call_hid c = CallStorage.d_hid d ∧ call_cid c = CallStorage.d_cid d.
Proof.
  unfold _get_call_from_data. intros Hrun.
  apply bind_inv in Hrun as (o & st1 & _ & Hrun).
  apply bind_inv in Hrun as (ins & st2 & _ & Hrun).
  apply bind_inv in Hrun as (outs & st3 & _ & Hrun).
  by apply ret_inv in Hrun as [<- _].
Qed.

(** X20. [mget_call] answers in the order of the hids it is given, one call per
    hid, each with its hid, whether the call came from the cache or from the
    table; [get_call(hid)] returns a call of that hid. *)
Theorem mget_call_in_order (depth : nat) (hids : list string) (lazy : bool)
    (st st' : Storage) (cs : list Call) :
  mget_call depth hids lazy st = (Ok cs, st') →
  call_hid <$> cs = hids ∧
  ∀ h c st2, get_call depth h lazy st = (Ok c, st2) → call_hid c = h.
Proof.
  assert (Hm : ∀ hs st0 cs0 st1, mget_call depth hs lazy st0 = (Ok cs0, st1) →
                                  call_hid <$> cs0 = hs).
  { intros hs st0 cs0 st1 Hrun. unfold mget_call in Hrun.
    apply bind_inv in Hrun as (cc & st2 & Hcc & Hrun). injection Hcc as <- <-.
    apply bind_inv in Hrun as (cache_datas & st2 & Hcd & Hrun).
    unfold lift in Hcd. injection Hcd as Hcd <-.
    apply bind_inv in Hrun as (p & st2 & Hp & Hrun). injection Hp as <- <-.
    apply bind_inv in Hrun as (db_datas & st2 & Hdd & Hrun).
    unfold lift in Hdd. injection Hdd as Hdd <-.
    apply bind_inv in Hrun as (call_datas & st2 & Hmerge & Hrun).
    unfold lift in Hmerge. injection Hmerge as Hmerge <-.
    pose proof (CallStorage.mget_rows_spec
      (filter (λ h, CallStorage.InMemCallStorage_exists h (call_cache st0) = true) hs)
      (CallStorage.df (call_cache st0))) as Hc.
    unfold CallStorage.InMemCallStorage_mget_data in Hcd. rewrite Hcd in Hc.
    pose proof (CallStorage.mget_rows_spec
      (filter (λ h, ¬ CallStorage.InMemCallStorage_exists h (call_cache st0) = true) hs)
      (CallStorage.rows (call_storage st0))) as Hd.
    unfold CallStorage.SQLiteCallStorage_mget_data in Hdd. rewrite Hdd in Hd.
    destruct Hc as [Hc _]. destruct Hd as [Hd _].
    destruct (merge_lists_split CallStorage.d_hid
                (λ h, CallStorage.InMemCallStorage_exists h (call_cache st0))
                hs cache_datas db_datas Hc Hd) as (l & Hl & Hhs).
    rewrite Hl in Hmerge. injection Hmerge as <-. rewrite <- Hhs.
    eapply for_each_fmap; [|exact Hrun].
    intros d st3 c st4 Hd'. by apply get_call_from_data_hid in Hd' as [? _]. }
  intros Hrun. split; [by eapply Hm|].
  intros h c st2 Hget. unfold get_call in Hget.
  apply bind_inv in Hget as (cs' & st3 & Hcs & Hget).
  apply Hm in Hcs. destruct cs' as [|c' rest]; [done|].
  apply ret_inv in Hget as [<- _]. by injection Hcs as -> _.
Qed.

(** *** Preloading the call cache *)

Definition preload_calls : M unit :=
  modify (λ st, set_call_cache
    (CallStorage.InMemCallStorage_init
       (Some (CallStorage.SQLiteCallStorage_get_df (call_storage st)))) st).

Definition preload_table {V} `{!Codec Blob V} (s : @CachedDictStorage V Blob)
    : @CachedDictStorage V Blob :=
  {| persistent := persistent s; cache := CachedDictStorage_load_all s;
     dirty_keys := dirty_keys s |}.

Definition preload_shapes : M unit := modify (λ st, set_shapes (preload_table (shapes st)) st).
Definition preload_ops : M unit := modify (λ st, set_ops (preload_table (ops st)) st).
Definition preload_atoms : M unit := modify (λ st, set_atoms (preload_table (atoms st)) st).

Definition preload (lazy : bool) : M unit :=
  preload_calls ;; preload_shapes ;; preload_ops ;;
  if negb lazy then preload_atoms else mret tt.

(** X21. After [preload_calls] the call cache holds the rows of the call table: it
    lists exactly the hids the table has, gives for each of them the data of
    its rows, and records every call whose rows the table holds.  The table
    and the dirty set are as before. *)
Theorem preload_calls_agrees (st : Storage) :
  let st' := (preload_calls st).2 in
  call_storage st' = call_storage st ∧
  CallStorage.dirty_hids (calls st') = CallStorage.dirty_hids (calls st) ∧
  (∀ h, CallStorage.InMemCallStorage_exists h (call_cache st')
        = CallStorage.SQLiteCallStorage_exists h None (call_storage st)) ∧
  (∀ h, CallStorage.SQLiteCallStorage_exists h None (call_storage st) = true →
        ∃ d, CallStorage.InMemCallStorage_get_data h (call_cache st') = Ok d ∧
             CallStorage.data_of h (CallStorage.rows (call_storage st)) = Ok d) ∧
  (∀ c, CallStorage.rows_of (call_hid c) (CallStorage.rows (call_storage st))
          = CallStorage.call_rows c →
        CallStorage.call_rows c ≠ [] →
        CallStorage.recorded c (call_cache st')).
Proof.
  cbn. split; [done|]. split; [done|].
  assert (Hex : ∀ h, CallStorage.InMemCallStorage_exists h
                       {| CallStorage.df := CallStorage.rows (call_storage st);
                          CallStorage.call_hids :=
                            list_to_set (CallStorage.levels0 (CallStorage.rows (call_storage st))) |}
                     = CallStorage.SQLiteCallStorage_exists h None (call_storage st)).
  { intros h. unfold CallStorage.InMemCallStorage_exists, CallStorage.SQLiteCallStorage_exists.
    cbn. apply bool_decide_ext. by rewrite elem_of_list_to_set. }
  split; [exact Hex|]. split.
  - intros h Hh. unfold CallStorage.InMemCallStorage_get_data. rewrite Hex, Hh.
    unfold CallStorage.InMemCallStorage_mget_data. cbn [CallStorage.mget_rows CallStorage.df].
    unfold CallStorage.SQLiteCallStorage_exists in Hh. apply bool_decide_eq_true in Hh.
    unfold CallStorage.data_of.
    destruct (CallStorage.rows_of h (CallStorage.rows (call_storage st))) as [|r0 rest] eqn:Hr.
    + exfalso. apply list_elem_of_fmap in Hh as (r & -> & Hin).
      assert (Hin' : r ∈ CallStorage.rows_of (CallStorage.call_history_id r)
                           (CallStorage.rows (call_storage st)))
        by (by apply list_elem_of_filter).
      rewrite Hr in Hin'. by apply elem_of_nil in Hin'.
    + eexists. split; [|reflexivity].
      unfold CallStorage.data_of, CallStorage.SQLiteCallStorage_get_df. by rewrite Hr.
  - intros c Hrows Hne. split.
    + cbn [CallStorage.call_hids CallStorage.df]. rewrite elem_of_list_to_set.
      apply CallStorage.rows_of_present.
      unfold CallStorage.SQLiteCallStorage_get_df. by rewrite Hrows.
    + exact Hrows.
Qed.

(** *** Cleaning up refs *)

Lemma for_each_modify {A} (g : A → Storage → Storage) (l : list A) st :
  ∃ us, for_each (λ x, modify (g x)) l st = (Ok us, foldl (λ s x, g x s) st l).
Proof.
  revert st. induction l as [|x l IH]; intros st; [by exists []|].
  rewrite for_each_cons. destruct (IH (g x st)) as (us & Hus).
  exists (tt :: us). unfold mbind, M_bind, modify in *. cbn. by rewrite Hus.
Qed.

Definition drop_hids (l : list string) (st : Storage) : Storage :=
  foldl (λ s h, set_shapes (CachedDictStorage_drop h (shapes s)) s) st l.

Definition drop_cids (l : list string) (st : Storage) : Storage :=
  foldl (λ s c, set_atoms (CachedDictStorage_drop c (atoms s)) s) st l.

Lemma drop_hids_frame l st :
  calls (drop_hids l st) = calls st ∧ atoms (drop_hids l st) = atoms st ∧
  current_context (drop_hids l st) = current_context st ∧
  ∀ k, table (persistent (shapes (drop_hids l st))) !! k =
       if decide (k ∈ l) then None else table (persistent (shapes st)) !! k.
Proof.
  revert st. induction l as [|h l IH]; intros st.
  - cbn. repeat split; try done.
  - change (drop_hids (h :: l) st)
      with (drop_hids l (set_shapes (CachedDictStorage_drop h (shapes st)) st)).
    destruct (IH (set_shapes (CachedDictStorage_drop h (shapes st)) st)) as (H1 & H2 & H3 & H4).
    rewrite H1, H2, H3. do 3 (split; [done|]). intros k. rewrite H4. cbn.
    destruct (decide (k ∈ l)) as [Hl|Hl].
    + rewrite decide_True; [done|by right].
    + destruct (decide (k = h)) as [->|Hne].
      * rewrite decide_True by left. apply lookup_delete_eq.
      * rewrite decide_False by (intros Hk; apply elem_of_cons in Hk as [?|?]; done).
        by apply lookup_delete_ne.
Qed.

Lemma drop_cids_frame l st :
  calls (drop_cids l st) = calls st ∧ shapes (drop_cids l st) = shapes st ∧
  current_context (drop_cids l st) = current_context st ∧
  ∀ k, table (persistent (atoms (drop_cids l st))) !! k =
       if decide (k ∈ l) then None else table (persistent (atoms st)) !! k.
Proof.
  revert st. induction l as [|h l IH]; intros st.
  - cbn. repeat split; try done.
  - change (drop_cids (h :: l) st)
      with (drop_cids l (set_atoms (CachedDictStorage_drop h (atoms st)) st)).
    destruct (IH (set_atoms (CachedDictStorage_drop h (atoms st)) st)) as (H1 & H2 & H3 & H4).
    rewrite H1, H2, H3. do 3 (split; [done|]). intros k. rewrite H4. cbn.
    destruct (decide (k ∈ l)) as [Hl|Hl].
    + rewrite decide_True; [done|by right].
    + destruct (decide (k = h)) as [->|Hne].
      * rewrite decide_True by left. apply lookup_delete_eq.
      * rewrite decide_False by (intros Hk; apply elem_of_cons in Hk as [?|?]; done).
        by apply lookup_delete_ne.
Qed.

Lemma keys_dom {V} `{!Codec Blob V} (p : @SQLiteDictStorage Blob) :
  (list_to_set (SQLiteDictStorage_keys p) : gset string) = dom (table p).
Proof.
  apply set_eq. intros k. rewrite elem_of_list_to_set, elem_of_dom.
  unfold SQLiteDictStorage_keys. rewrite list_elem_of_fmap. split.
  - intros ([k' v] & -> & Hin). apply elem_of_map_to_list in Hin. by exists v.
  - intros [v Hv]. exists (k, v). split; [done|]. by apply elem_of_map_to_list.
Qed.

(** The hids of the shapes table that no call row names, and the cids of the
    atoms table that no call row and no stored shape names. *)
Definition orphans_of (st : Storage) : gset string :=
  dom (table (persistent (shapes st))) ∖
  list_to_set (CallStorage.ref_history_id <$> CallStorage.rows (call_storage st)).

Definition unreferenced_of (st : Storage) : gset string :=
  (dom (table (persistent (atoms st))) ∖
   list_to_set (CallStorage.ref_content_id <$> CallStorage.rows (call_storage st))) ∖
  list_to_set (cid <$> SQLiteDictStorage_values (persistent (shapes st))).

Lemma get_orphans_run st :
  current_context st = false → get_orphans st = (Ok (orphans_of st), st).
Proof.
  intros Hc. unfold get_orphans, in_context, gets, mbind, M_bind. rewrite Hc. cbn.
  unfold orphans_of. by rewrite (keys_dom (V:=Ref)).
Qed.

Lemma get_unreferenced_cids_run st :
  current_context st = false →
  get_unreferenced_cids st = (Ok (unreferenced_of st), st).
Proof.
  intros Hc. unfold get_unreferenced_cids, in_context, gets, mbind, M_bind. rewrite Hc. cbn.
  unfold unreferenced_of. by rewrite (keys_dom (V:=Blob)).
Qed.

Lemma same_table_values {V} `{!Codec Blob V} (p q : @SQLiteDictStorage Blob) :
  table p = table q → SQLiteDictStorage_values (V:=V) p = SQLiteDictStorage_values q.
Proof. unfold SQLiteDictStorage_values. by intros ->. Qed.

Lemma nothing_left_1 (D R : gset string) : (D ∖ (D ∖ R)) ∖ R = ∅.
Proof. set_solver. Qed.

Lemma nothing_left_2 (D C S : gset string) : ((D ∖ ((D ∖ C) ∖ S)) ∖ C) ∖ S = ∅.
Proof. set_solver. Qed.

(** X22. [cleanup_refs] outside a context returns and is complete: afterwards no
    hid of the shapes table is an orphan and no cid of the atoms table is
    unreferenced, so a second cleanup finds nothing.  It leaves the call
    storage alone and keeps every shape and every atom that a row of the call
    table names.  Inside a context it raises before dropping anything. *)
Theorem cleanup_refs_complete (st : Storage) :
  (current_context st = false →
   ∃ st', cleanup_refs st = (Ok tt, st') ∧
     get_orphans st' = (Ok ∅, st') ∧
     get_unreferenced_cids st' = (Ok ∅, st') ∧
     calls st' = calls st ∧
     (∀ h, h ∈ CallStorage.ref_history_id <$> CallStorage.rows (call_storage st) →
           table (persistent (shapes st')) !! h = table (persistent (shapes st)) !! h) ∧
     (∀ c, c ∈ CallStorage.ref_content_id <$> CallStorage.rows (call_storage st) →
           table (persistent (atoms st')) !! c = table (persistent (atoms st)) !! c)) ∧
  (current_context st = true → cleanup_refs st = (Raise not_in_context, st)).
Proof.
  split.
  - intros Hc. unfold cleanup_refs.
    destruct (for_each_modify
                (λ h s, set_shapes (CachedDictStorage_drop h (shapes s)) s)
                (elements (orphans_of st)) st) as (us1 & Hd1).
    fold (drop_hids (elements (orphans_of st)) st) in Hd1.
    set (st1 := drop_hids (elements (orphans_of st)) st) in *.
    destruct (drop_hids_frame (elements (orphans_of st)) st) as (Hc1 & Ha1 & Hx1 & Ht1).
    fold st1 in Hc1, Ha1, Hx1, Ht1.
    destruct (for_each_modify
                (λ c s, set_atoms (CachedDictStorage_drop c (atoms s)) s)
                (elements (unreferenced_of st1)) st1) as (us2 & Hd2).
    fold (drop_cids (elements (unreferenced_of st1)) st1) in Hd2.
    set (st2 := drop_cids (elements (unreferenced_of st1)) st1) in *.
    destruct (drop_cids_frame (elements (unreferenced_of st1)) st1) as (Hc2 & Hs2 & Hx2 & Ht2).
    fold st2 in Hc2, Hs2, Hx2, Ht2.
    exists st2.
    assert (Hdom1 : dom (table (persistent (shapes st1)))
                    = dom (table (persistent (shapes st))) ∖ orphans_of st).
    { apply set_eq. intros k. rewrite elem_of_difference, !elem_of_dom, Ht1.
      destruct (decide (k ∈ elements (orphans_of st))) as [Hk|Hk].
      - apply elem_of_elements in Hk. split; [by intros [? ?]|by intros [_ ?]].
      - rewrite elem_of_elements in Hk. split; [done|by intros [? _]]. }
    assert (Hdom2 : dom (table (persistent (atoms st2)))
                    = dom (table (persistent (atoms st1))) ∖ unreferenced_of st1).
    { apply set_eq. intros k. rewrite elem_of_difference, !elem_of_dom, Ht2.
      destruct (decide (k ∈ elements (unreferenced_of st1))) as [Hk|Hk].
      - apply elem_of_elements in Hk. split; [by intros [? ?]|by intros [_ ?]].
      - rewrite elem_of_elements in Hk. split; [done|by intros [? _]]. }
    split; [|split; [|split; [|split; [|split]]]].
    + rewrite (bind_ok _ _ _ _ _ (get_orphans_run st Hc)).
      erewrite bind_ok; [|exact Hd1].
      rewrite (bind_ok _ _ _ _ _ (get_unreferenced_cids_run st1 (eq_trans Hx1 Hc))).
      erewrite bind_ok; [|exact Hd2]. done.
    + rewrite get_orphans_run by congruence. f_equal. f_equal.
      unfold orphans_of. rewrite Hs2. unfold call_storage. rewrite Hc2, Hc1.
      fold (call_storage st). rewrite Hdom1. unfold orphans_of. apply nothing_left_1.
    + rewrite get_unreferenced_cids_run by congruence. f_equal. f_equal.
      unfold unreferenced_of at 1. rewrite Hs2, Hdom2. unfold call_storage. rewrite Hc2.
      fold (call_storage st1). unfold unreferenced_of. apply nothing_left_2.
    + congruence.
    + intros h Hh. rewrite Hs2, Ht1. rewrite decide_False; [done|].
      rewrite elem_of_elements. unfold orphans_of. rewrite elem_of_difference.
      intros [_ Hn]. apply Hn. by apply elem_of_list_to_set.
    + intros c Hin. rewrite Ht2, Ha1. rewrite decide_False; [done|].
      rewrite elem_of_elements. unfold unreferenced_of. rewrite !elem_of_difference.
      intros [[_ Hn] _]. apply Hn. apply elem_of_list_to_set.
      unfold call_storage. by rewrite Hc1.
  - intros Hc. unfold cleanup_refs, get_orphans, in_context, gets, mbind, M_bind.
    by rewrite Hc.
Qed.

(** *** What [parse_args] hands to the storage *)

Lemma dict_set_keys_in {V} k (v : V) (d : pydict V) :
  k ∈ d.*1 → (dict_set k v d).*1 = d.*1.
Proof.
  induction d as [|[k' v'] d IH]; [by intros ?%elem_of_nil|].
  rewrite fmap_cons. cbn. intros Hk. destruct (decide (k' = k)) as [->|Hne]; [done|].
  rewrite fmap_cons. cbn. f_equal. apply IH.
  apply elem_of_cons in Hk as [Hk|Hk]; [congruence|done].
Qed.

Lemma dict_set_keys_eq {V W} k (v : V) (w : W) (d : pydict V) (d' : pydict W) :
  d.*1 = d'.*1 → (dict_set k v d).*1 = (dict_set k w d').*1.
Proof.
  revert d'. induction d as [|[k1 v1] d IH]; intros [|[k2 v2] d'] Heq; try done.
  rewrite !fmap_cons in Heq. cbn in Heq. injection Heq as -> Heq. cbn.
  destruct (decide (k2 = k)); rewrite !fmap_cons; cbn; [by rewrite Heq|].
  f_equal. by apply IH.
Qed.

Lemma dict_set_Forall {V} (P : string * V → Prop) k (v : V) (d : pydict V) :
  P (k, v) → Forall P d → Forall P (dict_set k v d).
Proof.
  intros Hkv. induction d as [|[k' v'] d IH]; intros Hd; cbn.
  - by constructor.
  - apply Forall_cons in Hd as [H1 H2]. destruct (decide (k' = k)).
    + by constructor.
    + constructor; [done|by apply IH].
Qed.

(** The storage inputs and their annotations go in step, and no storage input
    is marked [Ignore]. *)
Definition well_parsed (acc : parsed) : Prop :=
  acc.1.2.*1 = acc.2.*1 ∧ Forall (λ kv : string * Value, is_ignore kv.2 = false) acc.1.2.

Lemma add_storage_inputs_spec names vals tp (acc : parsed) :
  well_parsed acc →
  well_parsed (add_storage_inputs names vals tp acc) ∧
  (add_storage_inputs names vals tp acc).1.1 = acc.1.1.
Proof.
  unfold add_storage_inputs. generalize (zip names vals). intros l.
  set (f := λ (a : parsed) (nv : string * Value), _).
  assert (Hf : ∀ a nv, well_parsed a → well_parsed (f a nv) ∧ (f a nv).1.1 = a.1.1).
  { intros [[b si] sa] [n v] [Hk Hi]. subst f. cbn. destruct (is_ignore v) eqn:Hv; [done|].
    split; [|done]. split; cbn in *.
    - by apply dict_set_keys_eq.
    - apply dict_set_Forall; [|done]. cbn. by destruct v. }
  clearbody f. revert acc. induction l as [|nv l IH]; intros acc Hw; [done|].
  cbn [foldl]. destruct (Hf acc nv Hw) as [H1 H2].
  destruct (IH (f acc nv) H1) as [H3 H4]. split; [done|]. by rewrite H4.
Qed.

Lemma parse_arg_spec depth sig (acc acc' : parsed) kv st st' :
  well_parsed acc → kv.1 ∈ acc.1.1.*1 →
  parse_arg depth sig acc kv st = (Ok acc', st') →
  well_parsed acc' ∧ acc'.1.1.*1 = acc.1.1.*1.
Proof.
  destruct kv as [k v]. destruct acc as [[b si] sa]. intros Hw Hk. cbn in Hk.
  unfold parse_arg. destruct (find_param k sig) as [p|]; [|done].
  destruct (bool_decide _).
  { intros Hrun. apply bind_inv in Hrun as (args & st1 & _ & Hrun).
    apply ret_inv in Hrun as [<- _].
    destruct (add_storage_inputs_spec
                ((λ i : nat, k +:+ "_" +:+ pretty i) <$> seq 0 (length args)) args
                (annotation p) (dict_set k (VTuple (unwrap_ignore <$> args)) b, si, sa) Hw)
      as [H1 H2].
    split; [done|]. rewrite H2. cbn. by apply dict_set_keys_in. }
  destruct (bool_decide _).
  { destruct v as [| | | | | |d| |]; try done. intros Hrun.
    apply ret_inv in Hrun as [<- _].
    destruct (add_storage_inputs_spec d.*1 d.*2 (annotation p)
                (dict_set k (VDict (prod_map id unwrap_ignore <$> d)) b, si, sa) Hw)
      as [H1 H2].
    split; [done|]. rewrite H2. cbn. by apply dict_set_keys_in. }
  assert (Hreg : ∀ tp st0 st1 a,
            is_ignore v = false →
            (mret (b, dict_set k v si, dict_set k tp sa) : M parsed) st0 = (Ok a, st1) →
            well_parsed a ∧ a.1.1.*1 = b.*1).
  { intros tp st0 st1 a Hv Hrun. apply ret_inv in Hrun as [<- _].
    destruct Hw as [Hks Hi]. split; [|done]. split; cbn in *.
    - by apply dict_set_keys_eq.
    - by apply dict_set_Forall. }
  assert (Hskip : ∀ x st0 st1 a,
            (mret (dict_set k x b, si, sa) : M parsed) st0 = (Ok a, st1) →
            well_parsed a ∧ a.1.1.*1 = b.*1).
  { intros x st0 st1 a Hrun. apply ret_inv in Hrun as [<- _].
    split; [done|]. cbn. by apply dict_set_keys_in. }
  destruct v as [|bv|z|s|l|l|d|x|r]; try (by apply Hskip).
  all: destruct (param_default p) as [[dv|dv]|]; try (by apply Hreg).
  all: intros Hrun; apply bind_inv in Hrun as (same & st1 & _ & Hrun).
  all: destruct (same || _); [by eapply Hskip|by eapply Hreg].
Qed.

Lemma parse_args_loop_spec depth sig (items : pydict Value) (acc acc' : parsed) st st' :
  well_parsed acc → items.*1 ⊆ acc.1.1.*1 →
  parse_args_loop depth sig acc items st = (Ok acc', st') →
  well_parsed acc' ∧ acc'.1.1.*1 = acc.1.1.*1.
Proof.
  revert acc st. induction items as [|kv items IH]; intros acc st Hw Hsub Hrun.
  - by apply ret_inv in Hrun as [<- _].
  - cbn [parse_args_loop] in Hrun. apply bind_inv in Hrun as (acc1 & st1 & H1 & Hrun).
    rewrite fmap_cons in Hsub.
    destruct (parse_arg_spec _ _ _ _ _ _ _ Hw (Hsub _ (list_elem_of_here _ _)) H1)
      as [Hw1 Hk1].
    destruct (IH acc1 st1 Hw1) as [Hw2 Hk2]; [|done|].
    + rewrite Hk1. intros x Hx. apply Hsub. by right.
    + split; [done|]. by rewrite Hk2.
Qed.

(** X23. [parse_args] gives every storage input an annotation under the same name,
    in the same order, so that [call_internal] finds the type of each input;
    no storage input is a value marked [Ignore]; and the bound arguments keep
    the names and the order they were bound in. *)
Theorem parse_args_in_step (depth : nat) (sig : list Param) (bound : pydict Value)
    (st st' : Storage) (bound_arguments storage_inputs : pydict Value)
    (storage_annotations : pydict PyType) :
  parse_args depth sig bound st
    = (Ok (bound_arguments, storage_inputs, storage_annotations), st') →
  storage_inputs.*1 = storage_annotations.*1 ∧
  (∀ k, k ∈ storage_inputs.*1 → is_Some (dict_get k storage_annotations)) ∧
  Forall (λ kv : string * Value, is_ignore kv.2 = false) storage_inputs ∧
  bound_arguments.*1 = bound.*1.
Proof.
  intros Hrun. unfold parse_args in Hrun.
  destruct (parse_args_loop_spec depth sig bound (bound, [], [])
              (bound_arguments, storage_inputs, storage_annotations) st st')
    as [[Hk Hi] Hb];
    [by split|done|exact Hrun|].
  cbn in *. split; [done|]. split; [|done].
  intros k Hin. apply dict_get_is_Some. by rewrite <- Hk.
Qed.

(** *** What the lookup answers *)

(** The error of [self.call_cache.exists(hid=call_hid)]. *)
Definition lookup_type_error : exn :=
  TypeError "exists() got an unexpected keyword argument 'hid'".

Lemma lookup_call_outcome depth op inputs pre st :
  lookup_call depth op inputs pre st =
    (if negb (_versioned st) then Raise lookup_type_error
     else match versioner_lookup_call (exec_log st) op pre with
          | None => Ok None
          | Some _ => Raise lookup_type_error
          end, st).
Proof.
  unfold lookup_call, resolve_semantic_version, gets, mbind, M_bind, id.
  destruct (negb (_versioned st)); [done|].
  by destruct (versioner_lookup_call (exec_log st) op pre) as [[]|].
Qed.

(** *** The calls of a storage have rows *)

Lemma cache_has_rows_init pc pa ps po v :
  cache_has_rows (call_cache (Storage_init pc pa ps po v)).
Proof. intros h Hh. cbn in Hh. set_solver. Qed.

Lemma cache_has_rows_save_call (c : Call) (st st' : Storage) :
  inputs c ++ outputs c ≠ [] →
  cache_has_rows (call_cache st) →
  save_call c st = (Ok tt, st') →
  cache_has_rows (call_cache st').
Proof.
  intros Hne Hrows Hrun. unfold save_call in Hrun.
  apply bind_inv in Hrun as (present & st0 & Hp & Hrun). injection Hp as <- <-.
  destruct (CallStorage.CachedCallStorage_exists _ _); [by injection Hrun as <-|].
  apply bind_inv in Hrun as (known & st1 & Hk & Hrun). injection Hk as <- <-.
  apply bind_inv in Hrun as (u & st2 & H2 & Hrun).
  apply bind_inv in Hrun as (l & st3 & H3 & Hrun).
  injection Hrun as <-.
  assert (Hc2 : calls st2 = calls st).
  { change st2 with (Ok u, st2).2. rewrite <- H2.
    destruct (CachedDictStorage_exists _ _);
      [apply keeps_calls_ret|apply keeps_calls_ops_set]. }
  assert (Hc3 : calls st3 = calls st).
  { rewrite <- Hc2. change st3 with (Ok l, st3).2. rewrite <- H3.
    apply keeps_calls_for_each, keeps_calls_save_ref. }
  unfold cache_has_rows, call_cache. cbn. rewrite Hc3.
  by apply CallStorage.save_has_rows.
Qed.

(** X13. [call_internal] never gets a call back from the lookup.  Once the inputs
    are wrapped, a storage that is not versioned raises the [TypeError] of
    [exists(hid=...)]; a versioned storage raises [AttributeError] outside its
    context, the same [TypeError] when its versioner resolves the call, and
    goes on to execute the op only when the versioner does not know the call.
    In each failing case the state is the one the wrapping left: the op's
    function has not run. *)
Theorem call_internal_stops_at_lookup (depth : nat) (op : Op)
    (storage_inputs : pydict Value) (storage_tps : pydict PyType)
    (bound_arguments : option (pydict Value)) (st st1 : Storage)
    (wrapped_inputs : pydict Ref) (input_calls : list Call) :
  wrap_inputs (construct depth) storage_inputs storage_tps st
    = (Ok (wrapped_inputs, input_calls), st1) →
  let pre_call_id := get_pre_call_id get_content_hash op wrapped_inputs in
  let run := call_internal (S depth) op storage_inputs storage_tps bound_arguments st in
  lookup_call depth op wrapped_inputs pre_call_id st1 =
    (if negb (_versioned st1) then Raise lookup_type_error
     else match versioner_lookup_call (exec_log st1) op pre_call_id with
          | None => Ok None
          | Some _ => Raise lookup_type_error
          end, st1) ∧
  (_versioned st1 = false → run = (Raise lookup_type_error, st1)) ∧
  (_versioned st1 = true → cached_versioner st1 = false →
   run = (Raise (AttributeError "'NoneType' object has no attribute 'TracerCls'"), st1)) ∧
  (_versioned st1 = true → cached_versioner st1 = true →
   is_Some (versioner_lookup_call (exec_log st1) op pre_call_id) →
   run = (Raise lookup_type_error, st1)).
Proof.
  intros Hwrap pre_call_id run. split; [apply lookup_call_outcome|].
  assert (Hrun : run =
    (suspend_trace ;;
     call_option ← lookup_call depth op wrapped_inputs pre_call_id;
     match call_option with
     | Some main_call => mret (outputs main_call, main_call, input_calls)
     | None =>
         returns ← execute depth (construct depth) op wrapped_inputs storage_tps
                     bound_arguments;
         wrap_outputs (construct depth) (destruct_with (call_internal depth)) op
           wrapped_inputs input_calls pre_call_id returns
     end) st1).
  { subst run. rewrite call_internal_eq. cbv zeta.
    erewrite bind_ok; [|exact Hwrap]. reflexivity. }
  rewrite Hrun. split; [|split].
  - intros Hv. erewrite bind_ok; [|apply suspend_trace_ok; congruence].
    erewrite bind_raise; [reflexivity|]. rewrite lookup_call_outcome. by rewrite Hv.
  - intros Hv Hc. erewrite bind_raise; [reflexivity|]. by apply suspend_trace_raises.
  - intros Hv Hc [x Hx]. erewrite bind_ok; [|by apply suspend_trace_ok].
    erewrite bind_raise; [reflexivity|]. rewrite lookup_call_outcome, Hv. cbn.
    fold pre_call_id. by rewrite Hx.
Qed.

Lemma reads_only_mget_call depth hids lazy : reads_only (mget_call depth hids lazy).
Proof.
  unfold mget_call.
  apply reads_only_bind; [apply reads_only_gets|]. intros cc.
  apply reads_only_bind; [apply reads_only_lift|]. intros cache_datas.
  apply reads_only_bind; [apply reads_only_gets|]. intros p.
  apply reads_only_bind; [apply reads_only_lift|]. intros db_datas.
  apply reads_only_bind; [apply reads_only_lift|]. intros call_datas.
  apply reads_only_for_each. intros d. apply reads_only_get_call_from_data.
Qed.

(** X24. Loading only reads.  [load_ref], [mget_call], [get_call] and
    [lookup_call] change the storage at most by caching what they read from
    the tables: whether they return or raise, the call storage, what every key
    of the atoms, shapes and ops tables reads, the flags and the log of
    executions are as before. *)
Theorem loading_only_reads (depth : nat) :
  (∀ h lazy, reads_only (load_ref depth h lazy)) ∧
  (∀ hids lazy, reads_only (mget_call depth hids lazy)) ∧
  (∀ h lazy, reads_only (get_call depth h lazy)) ∧
  (∀ op inputs pre, reads_only (lookup_call depth op inputs pre)).
Proof.
  split; [intros; apply reads_only_load_ref|].
  split; [intros; apply reads_only_mget_call|].
  split; [|intros; apply reads_only_lookup_call].
  intros h lazy. unfold get_call.
  apply reads_only_bind; [apply reads_only_mget_call|].
  intros [|c cs]; [apply reads_only_raise|apply reads_only_ret].
Qed.

End storage.
End Engine.

(** ** A concrete storage: worked examples *)

Module Examples.
Import Model Engine.

(** Serialized objects, as what they deserialize to. *)
Inductive pickle :=
  | PValue (v : Value)
  | PBlob (b : pickle)
  | PRef (r : Ref)
  | POp (o : Op).

#[local] Instance codec_value : Codec pickle Value :=
  {| serialize := PValue;
     deserialize := λ b, match b with PValue v => v | _ => VNone end |}.
#[local] Instance codec_blob : Codec pickle pickle :=
  {| serialize := PBlob;
     deserialize := λ b, match b with PBlob v => v | _ => b end |}.
#[local] Instance codec_ref : Codec pickle Ref :=
  {| serialize := PRef;
     deserialize := λ b, match b with PRef v => v | _ => AtomRef "" "" false VNone end |}.
#[local] Instance codec_op : Codec pickle Op :=
  {| serialize := POp;
     deserialize := λ b, match b with POp v => v | _ => __get_list_item__ end |}.

(** A readable content hash: the printed form of what is hashed. *)
Fixpoint show (v : Value) : string :=
  match v with
  | VNone => "None"
  | VBool b => if b then "True" else "False"
  | VInt z => pretty z
  | VStr s => "'" +:+ s +:+ "'"
  | VTuple l | VList l => "[" +:+ foldr (λ x acc, show x +:+ "," +:+ acc) "]" l
  | VDict d => "{" +:+ foldr (λ x acc, x.1 +:+ ":" +:+ show x.2 +:+ "," +:+ acc) "}" d
  | VIgnore v => "Ignore" +:+ show v
  | VRef _ => "<ref>"
  end.

Fixpoint print_hash (h : hashable pickle) : string :=
  match h with
  | HBytes (PValue v) => "#" +:+ show v
  | HBytes _ => "#?"
  | HStr s => s
  | HNone => "~"
  | HSeq l => "(" +:+ foldr (λ x acc, print_hash x +:+ "," +:+ acc) ")" l
  end.

(** The [n]-th fresh history id. *)
Definition uuid (n : nat) (c : string) : string := "uuid" +:+ pretty n.

(** Two versioners: one that knows no call, and one that knows the version of
    an op once the op has run.  Both give a call that ran the versions
    ["c1"] and ["s1"]. *)
Definition no_lookup : list (string * pydict Value) → Op → string → option (string * string) :=
  λ _ _ _, None.
Definition learns : list (string * pydict Value) → Op → string → option (string * string) :=
  λ log op _, if bool_decide (name op ∈ log.*1) then Some ("c1", "s1") else None.
Definition no_versions : list (string * pydict Value) → Op → string → string * string :=
  λ _ _ _, ("c1", "s1").

Definition empty_table : @SQLiteDictStorage pickle := {| table := ∅ |}.

(** [Storage()]: a fresh in-memory storage, which is not versioned. *)
Definition fresh : @Storage pickle :=
  Storage_init {| CallStorage.rows := [] |} empty_table empty_table empty_table false.

(** A fresh versioned storage, and the same inside its context
    ([with storage:]). *)
Definition versioned : @Storage pickle :=
  Storage_init {| CallStorage.rows := [] |} empty_table empty_table empty_table true.
Definition session : @Storage pickle := (__enter__ versioned).2.

Definition param (n : string) (tp : PyType) : Param :=
  {| param_name := n; kind := POSITIONAL_OR_KEYWORD; annotation := tp;
     param_default := None |}.

(** [def inc(x: int) -> int: return x + 1] *)
Definition inc_f : PyFun := λ arguments raw_values,
  match dict_get "x" arguments with
  | Some (VInt z) => Ok (VInt (z + 1), [])
  | _ => Raise (TypeError "unsupported operand")
  end.

Definition inc : Op :=
  {| name := "inc"; op_f := Some inc_f; parameters := [param "x" AtomType];
     nout := 1; output_names := None; return_tps := [AtomType];
     __structural__ := false; __allow_side_effects__ := false |}.

(** [call] and [call_internal] under the versioner that knows no call, and
    [call] under the one that learns. *)
Definition run_call := call print_hash uuid no_lookup no_versions.
Definition run_call_internal := call_internal print_hash uuid no_lookup no_versions.
Definition run_call_learning := call print_hash uuid learns no_versions.

(** Closed goals are settled by running the definitions. *)
Ltac by_evaluation := vm_compute; reflexivity.
Ltac decide_it := apply (bool_decide_unpack _); vm_compute; exact I.

Definition one_entry : @CachedDictStorage Value pickle :=
  CachedDictStorage_set "a" (VInt 1) (CachedDictStorage_init empty_table).

Lemma dirty_keys_subset_cache_witness :
  reachable one_entry ∧ dirty_keys one_entry ⊆ dom (cache one_entry).
Proof.
  assert (H : reachable one_entry).
  { apply (reachable_run (DoSet "a" (VInt 1))), reachable_init. }
  split; [exact H|exact (dirty_keys_subset_cache one_entry H)].
Defined.








(** [def append_zero(xs): xs.append(0)], on an input stored as one atom. *)
Definition append_zero_f : PyFun := λ arguments raw_values,
  match dict_get "xs" arguments with
  | Some (VList l) => Ok (VNone, [("xs", VList (l ++ [VInt 0]))])
  | _ => Raise (AttributeError "object has no attribute 'append'")
  end.

Definition append_zero : Op :=
  {| name := "append_zero"; op_f := Some append_zero_f; parameters := [param "xs" AtomType];
     nout := 0; output_names := None; return_tps := [];
     __structural__ := false; __allow_side_effects__ := false |}.

Definition one_two_three : Value := VList [VInt 1; VInt 2; VInt 3].
Definition wrapped_xs :=
  wrap_inputs (construct print_hash uuid no_lookup no_versions 2)
    [("xs", one_two_three)] [("xs", AtomType)] session.
Definition xs_ref : Ref := AtomRef "#[1,2,3,]" "uuid0" true one_two_three.
Definition looked_up :=
  lookup_call print_hash no_lookup 2 append_zero [("xs", xs_ref)]
    (get_pre_call_id print_hash append_zero [("xs", xs_ref)]) wrapped_xs.2.
Definition raw_unwrapped := unwrap_items 2 [("xs", VRef xs_ref)] looked_up.2.
Definition args_unwrapped := unwrap_items 2 [("xs", one_two_three)] raw_unwrapped.2.
Definition refingerprinted :=
  cids_of_raw (construct print_hash uuid no_lookup no_versions 2) [("xs", AtomType)]
    [("xs", VList [VInt 1; VInt 2; VInt 3; VInt 0])]
    (log_call append_zero [("xs", one_two_three)] args_unwrapped.2).

Lemma side_effect_guard_aborts_witness :
  __allow_side_effects__ append_zero = false ∧
  cid_changed [("xs", "#[1,2,3,]")] [("xs", "#[1,2,3,0,]")] ∧
  run_call_internal 3 append_zero [("xs", one_two_three)] [("xs", AtomType)]
      (Some [("xs", one_two_three)]) session
    = (Raise (side_effects_error append_zero), refingerprinted.2).
Proof.
  assert (Hchanged : cid_changed [("xs", "#[1,2,3,]")] [("xs", "#[1,2,3,0,]")]).
  { exists "xs", "#[1,2,3,]", "#[1,2,3,0,]".
    split; [left|]. split; [reflexivity|discriminate]. }
  split; [reflexivity|]. split; [exact Hchanged|].
  destruct (side_effect_guard_aborts print_hash uuid no_lookup no_versions 2 append_zero
              [("xs", one_two_three)] [("xs", AtomType)] [("xs", one_two_three)]
              session wrapped_xs.2 looked_up.2 raw_unwrapped.2 args_unwrapped.2
              [("xs", xs_ref)] [] [("xs", one_two_three)] [("xs", one_two_three)]
              [("xs", VList [VInt 1; VInt 2; VInt 3; VInt 0])] append_zero_f VNone)
    as (_ & Hguard & _).
  - reflexivity.
  - apply run_eq. by_evaluation.
  - intros _. by_evaluation.
  - apply run_eq. by_evaluation.
  - apply run_eq. by_evaluation.
  - apply run_eq. by_evaluation.
  - reflexivity.
  - reflexivity.
  - destruct (Hguard eq_refl [("xs", "#[1,2,3,0,]")] refingerprinted.2) as [Hraise _].
    + apply run_eq. by_evaluation.
    + exact (Hraise Hchanged).
Defined.

(** Two refs to the same content with different histories. *)
Definition x41 := AtomRef "#41" "hx" true (VInt 41).
Definition y41 := AtomRef "#41" "hy" true (VInt 41).

(** [inc(x41)] called in the session and saved, under the versioner that knows
    [inc] from then on; then the same call again, and the call on [y41]. *)
Definition first_run := run_call_learning 3 inc [("x", VRef x41)] true session.
Definition inc_x41_hid : string :=
  get_call_history_id print_hash inc [("x", x41)] (Some "s1").
Definition second_run := run_call_learning 3 inc [("x", VRef x41)] true first_run.2.
Definition second_run_on_y := run_call_learning 3 inc [("x", VRef y41)] true first_run.2.

(** The same under the versioner that never knows the call. *)
Definition first_run_unknown := run_call 3 inc [("x", VRef x41)] true session.
Definition second_run_unknown := run_call 3 inc [("x", VRef x41)] true first_run_unknown.2.

(** C1 on the code.  On a storage that is not versioned the first call of
    [inc] already fails: [lookup_call] raises the [TypeError] of
    [exists(hid=...)] and [inc] is not run.  In the session of a versioned
    storage the first call runs [inc] and is saved in the call cache; once the
    versioner resolves its version, the second call on the same input raises
    the same [TypeError] instead of returning the stored outputs, and while
    the versioner does not know the call, the second call runs [inc] again. *)
Theorem lookup_raises_on_recorded_call :
  (run_call 3 inc [("x", VRef x41)] true fresh).1 = Raise lookup_type_error ∧
  exec_log (run_call 3 inc [("x", VRef x41)] true fresh).2 = [] ∧
  first_run.1
    = Ok (VRef (AtomRef "#42" "((incs1,((x,hx,),),s1,),output_0,)" true (VInt 42))) ∧
  CallStorage.InMemCallStorage_exists inc_x41_hid (call_cache first_run.2) = true ∧
  second_run.1 = Raise lookup_type_error ∧
  (call_internal print_hash uuid learns no_versions 3 inc [("x", VRef x41)]
     [("x", AtomType)] (Some [("x", VRef x41)]) first_run.2).1
    = Raise lookup_type_error ∧
  exec_log second_run.2 = [("inc", [("x", VInt 41)])] ∧
  is_Ok second_run_unknown.1 = true ∧
  exec_log second_run_unknown.2 = [("inc", [("x", VInt 41)]); ("inc", [("x", VInt 41)])].
Proof. vm_compute. repeat split. Qed.

(** C4 on the code.  [y41] has the content id of [x41] and another history
    id.  After [inc(x41)] was run and saved, the call on [y41] does not reach
    the lookup by content id: with the version resolved [lookup_call] raises
    the [TypeError] of [exists(hid=...)], and on a storage that is not
    versioned it raises it on the first call. *)
Theorem content_lookup_is_not_reached :
  cid y41 = cid x41 ∧ hid y41 ≠ hid x41 ∧
  is_Ok first_run.1 = true ∧
  CallStorage.InMemCallStorage_exists inc_x41_hid (call_cache first_run.2) = true ∧
  second_run_on_y.1 = Raise lookup_type_error ∧
  exec_log second_run_on_y.2 = [("inc", [("x", VInt 41)])] ∧
  (run_call 3 inc [("x", VRef y41)] true fresh).1 = Raise lookup_type_error.
Proof. vm_compute. repeat split. discriminate. Qed.

(** [construct] on plain values, and [unwrap] of what it built. *)
Definition run_construct := construct print_hash uuid no_lookup no_versions.
Definition unwrap_built (r : result (Ref * list Call) * Storage) : result Value :=
  match r with
  | (Ok (ref, _), st) => (unwrap 4 (VRef ref) st).1
  | (Raise e, _) => Raise e
  end.
Definition one_item : Value := VList [VInt 1].

(** C3 on the code.  On [Storage()], [construct] of a list or of a dict calls
    [call_internal] for the builder op, whose lookup raises the [TypeError] of
    [exists(hid=...)]: no ref is built.  An atom is wrapped without a call
    and unwraps to its value, and in the session of a versioned storage whose
    versioner knows no call the list is built and unwraps to the value. *)
Theorem construct_list_raises_at_lookup :
  (run_construct 4 (ListType AtomType) one_item fresh).1 = Raise lookup_type_error ∧
  (run_construct 4 (DictType AtomType AtomType) (VDict [("k", VInt 1)]) fresh).1
    = Raise lookup_type_error ∧
  unwrap_built (run_construct 4 AtomType (VInt 1) fresh) = Ok (VInt 1) ∧
  unwrap_built (run_construct 4 (ListType AtomType) one_item session) = Ok one_item.
Proof. vm_compute. repeat split. Qed.

(** A list of lists, a list and a dict of atoms, in memory. *)
Definition nested : Ref :=
  ListRef "cLL" "hLL" true
    (Some [ListRef "cL" "hL" true (Some [AtomRef "c1" "h1" true (VInt 1)])]).
Definition flat : Ref := ListRef "cL" "hL" true (Some [AtomRef "c1" "h1" true (VInt 1)]).
Definition flat_dict : Ref :=
  DictRef "cD" "hD" true (Some [("k", AtomRef "c1" "h1" true (VInt 1))]).
Definition load_saved (r : Ref) : result Ref * Storage :=
  load_ref 4 (hid r) false (save_ref r fresh).2.
Definition unwrap_loaded (r : result Ref * Storage) : result Value :=
  match r with
  | (Ok ref, st) => (unwrap 4 (VRef ref) st).1
  | (Raise e, _) => Raise e
  end.

(** C2 at a saved list of lists: [load_ref] with [lazy=False] returns the
    list with the children of the stored shape, which are detached, not the
    children it has just loaded; unwrapping the returned ref fails where
    unwrapping the saved ref gave the value.  A saved flat list comes back
    with a detached atom as well, while the dict path returns the loaded,
    in-memory child. *)
Theorem load_ref_list_returns_shape_children :
  (save_ref nested fresh).1 = Ok tt ∧
  (load_saved nested).1
    = Ok (ListRef "cLL" "hLL" true (Some [ListRef "cL" "hL" false None])) ∧
  (unwrap 4 (VRef nested) fresh).1 = Ok (VList [VList [VInt 1]]) ∧
  unwrap_loaded (load_saved nested) = Raise (TypeError "'NoneType' object is not iterable") ∧
  (load_saved flat).1
    = Ok (ListRef "cL" "hL" true (Some [AtomRef "c1" "h1" false VNone])) ∧
  (load_saved flat_dict).1
    = Ok (DictRef "cD" "hD" true (Some [("k", AtomRef "c1" "h1" true (VInt 1))])).
Proof. vm_compute. repeat split. Qed.

(** *** More runs *)

Lemma one_entry_dirty_cached : dirty_keys one_entry ⊆ dom (cache one_entry).
Proof. unfold one_entry. simpl. rewrite dom_insert_L. set_solver. Defined.

Lemma committed_value_survives_clear_witness :
  dirty_keys one_entry ⊆ dom (cache one_entry) ∧
  ∃ s', CachedDictStorage_commit (Some db_conn) (CachedDictStorage_set "b" (VInt 2) one_entry)
          = (Ok tt, s') ∧
        (CachedDictStorage_get "b" (CachedDictStorage_clear s')).1 = Ok (VInt 2).
Proof.
  split; [exact one_entry_dirty_cached|].
  destruct (committed_value_survives_clear "b" (VInt 2) db_conn one_entry
              one_entry_dirty_cached) as [(s' & Hrun & Hget) _].
  exists s'. split; [exact Hrun|exact Hget].
Defined.



(** The call [inc(x41)] of the session, as a [Call]. *)
Definition inc_x41 : Call :=
  {| call_op := inc;
     call_cid := get_call_content_id print_hash inc [("x", x41)] (Some "s1");
     call_hid := inc_x41_hid;
     inputs := [("x", x41)];
     outputs := [("output_0",
                  AtomRef "#42" (output_hid print_hash inc_x41_hid "output_0") true (VInt 42))];
     semantic_version := Some "s1"; content_version := Some "c1" |}.

Definition no_calls : CallStorage.InMemCallStorage := CallStorage.InMemCallStorage_init None.
Definition no_rows : CallStorage.SQLiteCallStorage := {| CallStorage.rows := [] |}.

Lemma inc_x41_slots : NoDup ((inputs inc_x41).*1 ++ (outputs inc_x41).*1).
Proof. decide_it. Defined.

Lemma inc_x41_has_slots : inputs inc_x41 ++ outputs inc_x41 ≠ [].
Proof. discriminate. Defined.

Lemma save_then_get_data_witness :
  call_hid inc_x41 ∉ CallStorage.call_hids no_calls ∧
  CallStorage.InMemCallStorage_get_data (call_hid inc_x41)
      (CallStorage.InMemCallStorage_save inc_x41 no_calls)
    = Ok (CallStorage.data_of_call inc_x41).
Proof.
  assert (Hnew : call_hid inc_x41 ∉ CallStorage.call_hids no_calls) by decide_it.
  split; [exact Hnew|].
  destruct (CallStorage.save_then_get_data inc_x41 no_calls Hnew) as (_ & Hget & _).
  - intros r Hr. exfalso. revert Hr. apply not_elem_of_nil.
  - exact inc_x41_slots.
  - exact inc_x41_has_slots.
  - exact Hget.
Defined.

Lemma table_save_adds_rows_once_witness :
  CallStorage.SQLiteCallStorage_exists (call_hid inc_x41) None no_rows = false ∧
  ∃ p', CallStorage.SQLiteCallStorage_save (CallStorage.data_of_call inc_x41)
          (Some db_conn) no_rows = (Ok tt, p') ∧
        CallStorage.SQLiteCallStorage_save (CallStorage.data_of_call inc_x41)
          (Some db_conn) p' = (Raise IntegrityError, p').
Proof.
  split; [reflexivity|].
  destruct (CallStorage.table_save_adds_rows_once inc_x41 (Some db_conn) no_rows
              inc_x41_slots inc_x41_has_slots eq_refl) as (p' & Hsave & _ & _ & _ & Hagain).
  exists p'. split; [exact Hsave|exact Hagain].
Defined.

(** A call storage that has saved [inc_x41] and not committed it. *)
Definition one_call : CallStorage.CachedCallStorage :=
  CallStorage.CachedCallStorage_save inc_x41 (CallStorage.CachedCallStorage_init no_rows).

Lemma one_call_committable h :
  h ∈ CallStorage.dirty_hids one_call →
  CallStorage.committable (CallStorage.cache one_call) (CallStorage.persistent one_call) h.
Proof.
  intros Hh. exists inc_x41. split.
  - apply elem_of_union in Hh as [Hh|Hh].
    + apply elem_of_singleton in Hh. by symmetry.
    + exfalso. revert Hh. apply not_elem_of_empty.
  - split; [split; [decide_it|by_evaluation]|].
    split; [exact inc_x41_slots|]. split; [exact inc_x41_has_slots|reflexivity].
Defined.

Lemma calls_commit_writes_dirty_witness :
  (∀ h, h ∈ CallStorage.dirty_hids one_call →
        CallStorage.committable (CallStorage.cache one_call)
          (CallStorage.persistent one_call) h) ∧
  ∃ s', CallStorage.CachedCallStorage_commit (Some db_conn) one_call = (Ok tt, s') ∧
        CallStorage.dirty_hids s' = ∅.
Proof.
  split; [exact one_call_committable|].
  destruct (CallStorage.calls_commit_writes_dirty (Some db_conn) one_call one_call_committable)
    as (s' & Hrun & Hd & _).
  exists s'. split; [exact Hrun|exact Hd].
Defined.

Definition wrapped_x41 :=
  wrap_inputs (construct print_hash uuid no_lookup no_versions 2)
    [("x", VRef x41)] [("x", AtomType)] fresh.

Lemma call_internal_stops_at_lookup_witness :
  wrapped_x41 = (Ok ([("x", x41)], []), fresh) ∧
  run_call_internal 3 inc [("x", VRef x41)] [("x", AtomType)] (Some [("x", VRef x41)]) fresh
    = (Raise lookup_type_error, fresh).
Proof.
  assert (Hwrap : wrapped_x41 = (Ok ([("x", x41)], []), fresh)) by reflexivity.
  split; [exact Hwrap|].
  destruct (call_internal_stops_at_lookup print_hash uuid no_lookup no_versions 2 inc
              [("x", VRef x41)] [("x", AtomType)] (Some [("x", VRef x41)])
              fresh fresh [("x", x41)] [] Hwrap) as (_ & Hraise & _).
  exact (Hraise eq_refl).
Defined.

Lemma save_ref_idempotent_witness :
  save_ref nested fresh = (Ok tt, (save_ref nested fresh).2) ∧
  save_ref nested (save_ref nested fresh).2 = (Ok tt, (save_ref nested fresh).2).
Proof.
  assert (Hrun : save_ref nested fresh = (Ok tt, (save_ref nested fresh).2))
    by (apply run_eq; by_evaluation).
  split; [exact Hrun|].
  destruct (save_ref_idempotent nested fresh _ Hrun) as (_ & Hagain & _).
  exact Hagain.
Defined.

(** A storage that has saved the call [inc_x41]. *)
Definition saved := save_call inc_x41 fresh.

Lemma save_call_idempotent_witness :
  saved = (Ok tt, saved.2) ∧
  exists_call (call_hid inc_x41) saved.2 = (Ok true, saved.2) ∧
  save_call inc_x41 saved.2 = (Ok tt, saved.2).
Proof.
  assert (Hrun : saved = (Ok tt, saved.2)) by (apply run_eq; by_evaluation).
  split; [exact Hrun|].
  destruct (save_call_idempotent inc_x41 fresh saved.2 Hrun) as (Hex & Hagain).
  split; [exact Hex|exact (Hagain inc_x41 eq_refl)].
Defined.

(** The saved call dropped again: its hid is still dirty. *)
Definition dropped : Storage := (drop_calls (inr [inc_x41_hid]) false saved.2).2.

Lemma commit_fails_on_lost_dirty_call_witness :
  inc_x41_hid ∈ CallStorage.dirty_hids (calls dropped) ∧
  CallStorage.InMemCallStorage_exists inc_x41_hid (call_cache dropped) = false ∧
  is_Ok (commit dropped).1 = false.
Proof.
  assert (Hd : inc_x41_hid ∈ CallStorage.dirty_hids (calls dropped)) by decide_it.
  assert (Hm : CallStorage.InMemCallStorage_exists inc_x41_hid (call_cache dropped) = false)
    by by_evaluation.
  split; [exact Hd|]. split; [exact Hm|].
  destruct (commit_fails_on_lost_dirty_call inc_x41_hid dropped Hd Hm) as (Hfail & _).
  exact Hfail.
Defined.

Lemma saved_consistent : consistent saved.2.
Proof.
  split; [unfold dirty_in_cache; decide_it|]. split; [unfold dirty_in_cache; decide_it|].
  split; [unfold dirty_in_cache; decide_it|].
  intros h Hh. exists inc_x41. split.
  - assert (Hd : CallStorage.dirty_hids (calls saved.2) = {[inc_x41_hid]}) by by_evaluation.
    rewrite Hd in Hh. apply elem_of_singleton in Hh. by symmetry.
  - split; [split; [decide_it|by_evaluation]|].
    split; [exact inc_x41_slots|]. split; [exact inc_x41_has_slots|by_evaluation].
Defined.

Lemma commit_persists_everything_witness :
  consistent saved.2 ∧
  ∃ st', commit saved.2 = (Ok tt, st') ∧
    CallStorage.dirty_hids (calls st') = ∅ ∧ commit st' = (Ok tt, st').
Proof.
  split; [exact saved_consistent|].
  destruct (commit_persists_everything saved.2 saved_consistent)
    as (st' & Hrun & _ & _ & _ & Hd & _ & _ & _ & _ & _ & _ & _ & _ & Hagain & _).
  exists st'. split; [exact Hrun|]. split; [exact Hd|exact Hagain].
Defined.

Lemma atom_round_trip_witness :
  CachedDictStorage_exists "hx" (shapes fresh) = false ∧
  ∃ st1, save_ref x41 fresh = (Ok tt, st1) ∧ (load_ref 3 "hx" false st1).1 = Ok x41.
Proof.
  split; [reflexivity|].
  assert (Hcodec : deserialize (serialize (VInt 41) : pickle) = VInt 41) by reflexivity.
  destruct (atom_round_trip 2 "#41" "hx" (VInt 41) fresh eq_refl Hcodec)
    as (_ & st1 & Hsave & Hload & _).
  exists st1. split; [exact Hsave|exact Hload].
Defined.


Definition fetched := mget_call 3 [inc_x41_hid] true saved.2.
Definition fetched_calls : list Call :=
  match fetched.1 with Ok cs => cs | Raise _ => [] end.

Lemma mget_call_in_order_witness :
  fetched = (Ok fetched_calls, fetched.2) ∧ call_hid <$> fetched_calls = [inc_x41_hid].
Proof.
  assert (Hrun : fetched = (Ok fetched_calls, fetched.2)) by (apply run_eq; by_evaluation).
  split; [exact Hrun|].
  destruct (mget_call_in_order 3 [inc_x41_hid] true saved.2 fetched.2 fetched_calls Hrun)
    as (Hhids & _).
  exact Hhids.
Defined.

Definition parsed_41 := parse_args 3 (parameters inc) [("x", VInt 41)] fresh.

Lemma parse_args_in_step_witness :
  parsed_41 = (Ok ([("x", VInt 41)], [("x", VInt 41)], [("x", AtomType)]), fresh) ∧
  [("x", VInt 41)].*1 = [("x", AtomType)].*1.
Proof.
  assert (Hrun : parsed_41
            = (Ok ([("x", VInt 41)], [("x", VInt 41)], [("x", AtomType)]), fresh))
    by reflexivity.
  split; [exact Hrun|].
  destruct (parse_args_in_step 3 (parameters inc) [("x", VInt 41)] fresh fresh
              [("x", VInt 41)] [("x", VInt 41)] [("x", AtomType)] Hrun) as (Hkeys & _).
  exact Hkeys.
Defined.

End Examples.
